(** * Graph analytics engine of TCMKG-nx: a shallow embedding.

    The development follows [services/graphAnalysis] (adjacency index,
    co-occurrence builder, distance module, hierarchical clustering, vector
    k-means, bipartite label propagation, association rules, centrality
    rankings) and proves the properties the specification states about it.

    Modelling conventions.
    - A JavaScript [number] is [JS.number]: a rational, the two infinities or
      NaN.  Finite arithmetic is exact (no rounding, no overflow, no signed
      zero); the non-finite cases follow IEEE 754 as JavaScript does.
      [Math.sqrt] is computed to 52 fractional bits and is exact on squares.
    - A JavaScript [Map] or [Set] iterates in insertion order and the
      algorithms depend on it, so both are association lists that keep that
      order ([jsmap], [jsset]).
    - A plain object used as a record keyed by node id ([Record<string,T>])
      is the same association list; a missing key reads as [undefined],
      here [None]. *)

From Stdlib Require Import List String Ascii Bool Arith ZArith QArith Lia.
From Stdlib Require Import Permutation Sorted Qabs Qminmax Qround DecimalString.
Import ListNotations.

Local Open Scope nat_scope.
Local Open Scope list_scope.

(* ================================================================== *)
(** ** JavaScript numbers *)
(* ================================================================== *)

Module JS.

Inductive number : Type :=
| NaN
| NegInf
| Fin (q : Q)
| PosInf.

Definition of_nat (n : nat) : number := Fin (inject_Z (Z.of_nat n)).
Definition of_Z (z : Z) : number := Fin (inject_Z z).

Definition Qltb (a b : Q) : bool :=
  match (a ?= b)%Q with Lt => true | _ => false end.

Definition Qeqb (a b : Q) : bool :=
  match (a ?= b)%Q with Eq => true | _ => false end.

(** [a + b] *)
Definition add (a b : number) : number :=
  match a, b with
  | NaN, _ | _, NaN => NaN
  | PosInf, NegInf | NegInf, PosInf => NaN
  | PosInf, _ | _, PosInf => PosInf
  | NegInf, _ | _, NegInf => NegInf
  | Fin x, Fin y => Fin (x + y)
  end.

Definition neg (a : number) : number :=
  match a with
  | NaN => NaN
  | NegInf => PosInf
  | Fin x => Fin (- x)
  | PosInf => NegInf
  end.

(** [a - b] *)
Definition sub (a b : number) : number := add a (neg b).

Definition inf_of_sign (c : comparison) : number :=
  match c with Lt => NegInf | Eq => NaN | Gt => PosInf end.

Definition sign (a : number) : comparison :=
  match a with
  | NaN => Eq
  | NegInf => Lt
  | Fin x => (x ?= 0)%Q
  | PosInf => Gt
  end.

Definition sign_mul (c d : comparison) : comparison :=
  match c, d with
  | Eq, _ | _, Eq => Eq
  | Lt, Lt | Gt, Gt => Gt
  | _, _ => Lt
  end.

(** [a * b] *)
Definition mul (a b : number) : number :=
  match a, b with
  | NaN, _ | _, NaN => NaN
  | Fin x, Fin y => Fin (x * y)
  | _, _ => inf_of_sign (sign_mul (sign a) (sign b))
  end.

(** [a / b]; a zero divisor is [+0]. *)
Definition div (a b : number) : number :=
  match a, b with
  | NaN, _ | _, NaN => NaN
  | Fin x, Fin y =>
      if Qeqb y 0 then inf_of_sign (x ?= 0)%Q else Fin (x / y)
  | Fin _, _ => Fin 0
  | _, Fin y => if Qltb y 0 then neg a else a
  | _, _ => NaN
  end.

(** [Math.abs] *)
Definition abs (a : number) : number :=
  match a with
  | NaN => NaN
  | Fin x => Fin (Qabs x)
  | _ => PosInf
  end.

(** [a < b] *)
Definition ltb (a b : number) : bool :=
  match a, b with
  | NaN, _ | _, NaN => false
  | NegInf, NegInf => false
  | NegInf, _ => true
  | Fin x, Fin y => Qltb x y
  | Fin _, PosInf => true
  | _, _ => false
  end.

(** [a > b] *)
Definition gtb (a b : number) : bool := ltb b a.

(** [a >= b] *)
Definition geb (a b : number) : bool :=
  match a, b with
  | NaN, _ | _, NaN => false
  | _, NegInf => true
  | PosInf, _ => true
  | Fin x, Fin y => Qle_bool y x
  | _, _ => false
  end.

(** [Math.max] of two arguments *)
Definition max (a b : number) : number :=
  match a, b with
  | NaN, _ | _, NaN => NaN
  | _, _ => if ltb a b then b else a
  end.

(** [Math.max(...xs)]; [-Infinity] on no arguments. *)
Definition max_list (xs : list number) : number := fold_left max xs NegInf.

(** Square root of a non-negative rational to 52 fractional bits (rounded
    down); exact whenever the reduced fraction has a square numerator and
    denominator. *)
Definition Qsqrt (q : Q) : Q :=
  let r := Qred q in
  let d := Zpos (Qden r) in
  (Z.sqrt (Qnum r * d * 2 ^ 104) # Pos.mul (Qden r) (2 ^ 52))%Q.

(** [Math.sqrt] *)
Definition sqrt (a : number) : number :=
  match a with
  | NaN | NegInf => NaN
  | Fin x => if Qltb x 0 then NaN else Fin (Qsqrt x)
  | PosInf => PosInf
  end.

(** [Math.pow(a, 2)] *)
Definition pow2 (a : number) : number := mul a a.

(** Truthiness of a number, as [||] and [?:] test it. *)
Definition truthy (a : number) : bool :=
  match a with
  | NaN => false
  | Fin x => negb (Qeqb x 0)
  | _ => true
  end.

(** [x || d] for an optional number [x] *)
Definition or_default (x : option number) (d : number) : number :=
  match x with
  | Some a => if truthy a then a else d
  | None => d
  end.

(** [a === 0] *)
Definition is_zero (a : number) : bool :=
  match a with
  | Fin x => Qeqb x 0
  | _ => false
  end.

Definition finite (a : number) : Prop := exists q, a = Fin q.

End JS.

Import JS.

(* ================================================================== *)
(** ** Insertion-ordered maps and sets *)
(* ================================================================== *)

Section JsMap.

Context {V : Type}.

(** [Map<string, V>], entries in insertion order, keys pairwise distinct. *)
Definition jsmap := list (string * V).

Fixpoint map_get (k : string) (m : jsmap) : option V :=
  match m with
  | [] => None
  | (k', v) :: m' => if String.eqb k' k then Some v else map_get k m'
  end.

Definition map_has (k : string) (m : jsmap) : bool :=
  match map_get k m with Some _ => true | None => false end.

(** [m.set(k, v)]: an existing key keeps its position. *)
Fixpoint map_set (k : string) (v : V) (m : jsmap) : jsmap :=
  match m with
  | [] => [(k, v)]
  | (k', v') :: m' =>
      if String.eqb k' k then (k', v) :: m' else (k', v') :: map_set k v m'
  end.

Definition map_keys (m : jsmap) : list string := List.map fst m.
Definition map_values (m : jsmap) : list V := List.map snd m.

End JsMap.

Arguments jsmap V : clear implicits.

(** [Set<string>], elements in insertion order. *)
Definition jsset := list string.

Definition set_has (x : string) (s : jsset) : bool :=
  existsb (String.eqb x) s.

Definition set_add (x : string) (s : jsset) : jsset :=
  if set_has x s then s else s ++ [x].

(** [new Set(xs)] *)
Definition set_of_list (xs : list string) : jsset :=
  fold_left (fun s x => set_add x s) xs [].

(* ================================================================== *)
(** ** Data model ([types.ts]) *)
(* ================================================================== *)

Record RawEntity := mkEntity { e_type : string; e_name : string }.

Record RawRelation := mkRelation {
  r_source : string; r_relation : string; r_target : string }.

Record Metrics := mkMetrics {
  m_degree : number; m_betweenness : number; m_closeness : number;
  m_kCore : number; m_community : number; m_clusteringCoeff : number }.

Record GraphNode := mkNode {
  id : string;
  group : string;
  metrics : option Metrics;
  clusters_kmeans : option nat }.

(** [source] and [target] of a link are a node id or a resolved node. *)
Inductive endpoint : Type :=
| EId (s : string)
| ENode (n : GraphNode).

Record Association := mkAssociation {
  a_support : number; a_confidence : number; a_lift : number;
  a_isRule : bool }.

Record GraphLink := mkLink {
  l_source : endpoint;
  l_target : endpoint;
  l_type : string;
  l_weight : option number;
  l_association : option Association }.

Record GraphData := mkGraph { nodes : list GraphNode; links : list GraphLink }.

(* ================================================================== *)
(** ** Graph index: [getAdjacency] *)
(* ================================================================== *)

Record neighbor := mkNb { nb_id : string; nb_weight : number }.

Definition adjacency := jsmap (list neighbor).

(** [typeof e === 'object' ? e.id : e] *)
Definition endpoint_id (e : endpoint) : string :=
  match e with
  | EId s => s
  | ENode n => id n
  end.

(** [if (adj.has(k)) adj.get(k)?.push(e)] *)
Definition adj_push (k : string) (e : neighbor) (adj : adjacency) : adjacency :=
  if map_has k adj then
    match map_get k adj with
    | Some l => map_set k (l ++ [e]) adj
    | None => adj
    end
  else adj.

Definition link_weight (weighted : bool) (l : GraphLink) : number :=
  if weighted then or_default (l_weight l) (Fin 1) else Fin 1.

(** The body of [links.forEach] in [getAdjacency]. *)
Definition add_link (weighted : bool) (adj : adjacency) (l : GraphLink)
  : adjacency :=
  let s := endpoint_id (l_source l) in
  let t := endpoint_id (l_target l) in
  let w := link_weight weighted l in
  adj_push t (mkNb s w) (adj_push s (mkNb t w) adj).

Definition getAdjacency (ns : list GraphNode) (ls : list GraphLink)
    (weighted : bool) : adjacency :=
  let adj := fold_left (fun adj n => map_set (id n) [] adj) ns [] in
  fold_left (add_link weighted) ls adj.

(** [adj.get(v)], the neighbour list of [v] if [v] is indexed. *)
Definition neighbors (adj : adjacency) (v : string) : option (list neighbor) :=
  map_get v adj.

(* ================================================================== *)
(** ** Strings: [split] and template keys *)
(* ================================================================== *)

Definition bar : ascii := "|"%char.

(** [s.split('|')] *)
Fixpoint split_bar (s : string) : list string :=
  match s with
  | EmptyString => [EmptyString]
  | String c s' =>
      if Ascii.eqb c bar then EmptyString :: split_bar s'
      else match split_bar s' with
           | [] => [String c EmptyString]
           | p :: ps => String c p :: ps
           end
  end.

(** [`${a}|${b}`] *)
Definition pair_key (a b : string) : string :=
  (a ++ String bar b)%string.

(** [const [s, t] = key.split('|')]; a key built by [pair_key] always has
    two parts. *)
Definition key_parts (k : string) : string * string :=
  let ps := split_bar k in (nth 0 ps EmptyString, nth 1 ps EmptyString).

(** [a < b] on strings.  JavaScript compares UTF-16 code units, the model
    compares the bytes of the UTF-8 text; the two orders agree on the Basic
    Multilingual Plane. *)
Definition str_ltb (a b : string) : bool := String.ltb a b.

(* ================================================================== *)
(** ** Co-occurrence builder: [generateCooccurrenceGraph] *)
(* ================================================================== *)

(** [entities.find(e => e.name === x && e.type === ty)], as a truth value. *)
Definition has_entity (es : list RawEntity) (x ty : string) : bool :=
  existsb (fun e => String.eqb (e_name e) x && String.eqb (e_type e) ty) es.

(** [if (!m.has(c)) m.set(c, new Set()); m.get(c)?.add(i)] *)
Definition register (c i : string) (m : jsmap jsset) : jsmap jsset :=
  let m1 := if map_has c m then m else map_set c [] m in
  match map_get c m1 with
  | Some s => map_set c (set_add i s) m1
  | None => m1
  end.

(** The body of [relations.forEach] in the builder; the state is
    [(containerToItems, allItems)]. *)
Definition cooc_step (es : list RawEntity) (containerType itemType : string)
    (st : jsmap jsset * jsset) (r : RawRelation) : jsmap jsset * jsset :=
  let '(c2i, all) := st in
  let '(c2i, all) :=
    if has_entity es (r_source r) containerType
       && has_entity es (r_target r) itemType
    then (register (r_source r) (r_target r) c2i, set_add (r_target r) all)
    else (c2i, all) in
  if has_entity es (r_target r) containerType
     && has_entity es (r_source r) itemType
  then (register (r_target r) (r_source r) c2i, set_add (r_source r) all)
  else (c2i, all).

Definition containerToItems (es : list RawEntity) (rs : list RawRelation)
    (containerType itemType : string) : jsmap jsset * jsset :=
  fold_left (cooc_step es containerType itemType) rs ([], []).

(** [edgesMap.set(k, (edgesMap.get(k) || 0) + 1)] *)
Definition bump (k : string) (m : jsmap nat) : jsmap nat :=
  map_set k (match map_get k m with Some n => n | None => 0 end + 1) m.

Definition edge_key (a b : string) : string :=
  if str_ltb a b then pair_key a b else pair_key b a.

(** The double loop [for i; for j = i+1] over one container's items. *)
Fixpoint pair_loop (arr : list string) (m : jsmap nat) : jsmap nat :=
  match arr with
  | [] => m
  | a :: rest =>
      pair_loop rest (fold_left (fun m b => bump (edge_key a b) m) rest m)
  end.

Definition edgesMap (c2i : jsmap jsset) : jsmap nat :=
  fold_left (fun m items => pair_loop items m) (map_values c2i) [].

Definition cooc_link (kw : string * nat) : GraphLink :=
  let '(s, t) := key_parts (fst kw) in
  mkLink (EId s) (EId t) "co-occur" (Some (of_nat (snd kw))) None.

Definition generateCooccurrenceGraph (es : list RawEntity)
    (rs : list RawRelation) (containerType itemType : string) : GraphData :=
  let '(c2i, all) := containerToItems es rs containerType itemType in
  mkGraph (List.map (fun i => mkNode i itemType None None) all)
          (List.map cooc_link (edgesMap c2i)).

(* ================================================================== *)
(** ** Distance module: [calculateDistance] *)
(* ================================================================== *)

Inductive DistanceType := euclidean | chebyshev | manhattan | lance.
Inductive ClusterMethod := complete | average | centroid.

(** [vecA.reduce((acc, v, i) => f(acc, v, vecB[i]), init)]; an index past
    the end of [vecB] reads [undefined], which arithmetic turns into NaN. *)
Fixpoint reduce2 (f : number -> number -> number -> number) (acc : number)
    (vecA vecB : list number) : number :=
  match vecA with
  | [] => acc
  | v :: vecA' => reduce2 f (f acc v (hd NaN vecB)) vecA' (tl vecB)
  end.

Definition calculateDistance (vecA vecB : list number) (type : DistanceType)
  : number :=
  match type with
  | manhattan =>
      reduce2 (fun sum v b => add sum (abs (sub v b))) (Fin 0) vecA vecB
  | chebyshev =>
      reduce2 (fun mx v b => max mx (abs (sub v b))) (Fin 0) vecA vecB
  | lance =>
      reduce2 (fun sum v b =>
                 let denom := add (abs v) (abs b) in
                 add sum (if is_zero denom then Fin 0
                          else div (abs (sub v b)) denom))
              (Fin 0) vecA vecB
  | euclidean =>
      sqrt (reduce2 (fun sum v b => add sum (pow2 (sub v b))) (Fin 0)
                    vecA vecB)
  end.

(* ================================================================== *)
(** ** Hierarchical clusterer: [calculateHierarchicalTree] *)
(* ================================================================== *)

(** [DendrogramNode]: only [name] is mandatory. *)
#[local] Set Warnings "-register-all".
Inductive DendrogramNode : Type :=
| mkDendro (name : string) (children : option (list DendrogramNode))
           (distance : option number) (isLeaf : option bool).

(** A working cluster.  The source also gives it an [id] made of a time
    stamp and a random number; nothing reads it, so it is left out. *)
Record cluster := mkCluster {
  members : list string;
  vec : list number;
  tree : DendrogramNode }.

Definition leaf (n : string) : DendrogramNode :=
  mkDendro n None (Some (Fin 0)) (Some true).

(** [adj.get(n)?.find(x => x.id === i)] followed by
    [neighbor ? neighbor.weight : 0] *)
Definition weight_to (adj : adjacency) (n i : string) : number :=
  match map_get n adj with
  | Some l =>
      match find (fun x => String.eqb (nb_id x) i) l with
      | Some x => nb_weight x
      | None => Fin 0
      end
  | None => Fin 0
  end.

(** [vectors[n.id] = allNodeIds.map(...)] for every node, in order. *)
Definition node_vectors (ns : list GraphNode) (adj : adjacency)
  : jsmap (list number) :=
  let allNodeIds := List.map id ns in
  fold_left
    (fun vs n =>
       map_set (id n)
         (List.map (fun i => if String.eqb i (id n) then Fin 0
                             else weight_to adj (id n) i) allNodeIds) vs)
    ns [].

(** [vectors[m]]; every member of a cluster is a node id, so the lookup
    always succeeds. *)
Definition vector_of (vectors : jsmap (list number)) (m : string)
  : list number :=
  match map_get m vectors with Some v => v | None => [] end.

Section Linkage.

Variable vectors : jsmap (list number).
Variable distanceType : DistanceType.
Variable method : ClusterMethod.

Definition pairwise_dists (c1 c2 : cluster) : list number :=
  flat_map (fun m1 =>
              List.map (fun m2 =>
                          calculateDistance (vector_of vectors m1)
                                            (vector_of vectors m2) distanceType)
                       (members c2))
           (members c1).

Definition getClusterDist (c1 c2 : cluster) : number :=
  match method with
  | centroid => calculateDistance (vec c1) (vec c2) distanceType
  | complete => max_list (pairwise_dists c1 c2)
  | average =>
      let dists := pairwise_dists c1 c2 in
      div (fold_left add dists (Fin 0)) (of_nat (List.length dists))
  end.

(** The index pairs [(i, j)], [i < j < n], in the order of the two loops. *)
Definition index_pairs (n : nat) : list (nat * nat) :=
  flat_map (fun i => List.map (fun j => (i, j)) (seq (S i) (n - S i)))
           (seq 0 n).

Definition empty_cluster : cluster := mkCluster [] [] (mkDendro "" None None None).

(** The search for the closest pair.  The state is [minD] and the two merge
    indices, [None] while they are still [-1]. *)
Definition closest_pair (clusters : list cluster)
  : number * option (nat * nat) :=
  fold_left
    (fun st ij =>
       let d := getClusterDist (nth (fst ij) clusters empty_cluster)
                               (nth (snd ij) clusters empty_cluster) in
       if ltb d (fst st) then (d, Some ij) else st)
    (index_pairs (List.length clusters)) (PosInf, None).

(** [newMembers[0] ? vectors[newMembers[0]].map(...) : []]; the empty
    string is falsy. *)
Definition centroid_of (newMembers : list string) : list number :=
  match newMembers with
  | [] => []
  | m0 :: _ =>
      if String.eqb m0 "" then []
      else
        List.map
          (fun i =>
             div (fold_left
                    (fun sum m => add sum (nth i (vector_of vectors m) NaN))
                    newMembers (Fin 0))
                 (of_nat (List.length newMembers)))
          (seq 0 (List.length (vector_of vectors m0)))
  end.

Definition merge_clusters (minD : number) (c1 c2 : cluster) : cluster :=
  let newMembers := members c1 ++ members c2 in
  mkCluster newMembers (centroid_of newMembers)
            (mkDendro "" (Some [tree c1; tree c2]) (Some minD) None).

(** [clusters.filter((_, idx) => idx !== i && idx !== j)] *)
Definition remove_two (i j : nat) (clusters : list cluster) : list cluster :=
  List.map snd
    (filter (fun p => negb (Nat.eqb (fst p) i) && negb (Nat.eqb (fst p) j))
            (combine (seq 0 (List.length clusters)) clusters)).

(** One turn of the [while] loop; [None] when the loop is left. *)
Definition merge_step (clusters : list cluster) : option (list cluster) :=
  if 1 <? List.length clusters then
    match closest_pair clusters with
    | (minD, Some (i, j)) =>
        Some (remove_two i j clusters
              ++ [merge_clusters minD (nth i clusters empty_cluster)
                                      (nth j clusters empty_cluster)])
    | (_, None) => None
    end
  else None.

(** The [while] loop, at most [fuel] turns. *)
Fixpoint agglomerate (fuel : nat) (clusters : list cluster) : list cluster :=
  match fuel with
  | 0 => clusters
  | S fuel' =>
      match merge_step clusters with
      | Some clusters' => agglomerate fuel' clusters'
      | None => clusters
      end
  end.

End Linkage.

Definition initial_clusters (ns : list GraphNode)
    (vectors : jsmap (list number)) : list cluster :=
  List.map (fun n => mkCluster [id n] (vector_of vectors (id n)) (leaf (id n)))
           ns.

(** Each turn of the loop removes one cluster, so as many turns as there
    are clusters are enough ([agglomerate_done] below). *)
Definition calculateHierarchicalTree (ns : list GraphNode)
    (ls : list GraphLink) (distanceType : DistanceType)
    (method : ClusterMethod) : DendrogramNode :=
  let adj := getAdjacency ns ls true in
  let vectors := node_vectors ns adj in
  let clusters := initial_clusters ns vectors in
  match agglomerate vectors distanceType method (List.length clusters) clusters with
  | c :: _ => tree c
  | [] => mkDendro "Root" (Some []) None None
  end.

(* ================================================================== *)
(** ** [Array.prototype.sort] *)
(* ================================================================== *)

Section Sort.

Context {A : Type}.

(** [after x y] says that the comparator puts [x] after [y], that is
    [compare(x, y) > 0]. *)
Variable after : A -> A -> bool.

Fixpoint sort_insert (x : A) (l : list A) : list A :=
  match l with
  | [] => [x]
  | y :: l' => if after x y then y :: sort_insert x l' else x :: l
  end.

(** The sort is stable, so with a consistent comparator its result is the
    one of an insertion sort that never moves an element past an equal
    one. *)
Definition js_sort (l : list A) : list A := fold_right sort_insert [] l.

End Sort.

(** [xs.sort()] on strings: ascending order of the code units. *)
Definition sort_strings (xs : list string) : list string :=
  js_sort (fun x y => str_ltb y x) xs.

(* ================================================================== *)
(** ** Vector k-means: [calculateVectorKMeans] *)
(* ================================================================== *)

(** [entities.find(e => e.name === x)?.type] *)
Definition type_of (es : list RawEntity) (x : string) : option string :=
  option_map e_type (find (fun e => String.eqb (e_name e) x) es).

(** [entities.find(e => e.name === x)?.type === ty] *)
Definition has_type (es : list RawEntity) (x ty : string) : bool :=
  match type_of es x with
  | Some t => String.eqb t ty
  | None => false
  end.

Definition relevantRelations (es : list RawEntity) (rs : list RawRelation)
    (targetType : string) : list RawRelation :=
  filter (fun r => has_entity es (r_source r) targetType
                   || has_entity es (r_target r) targetType) rs.

(** The body of [relevantRelations.forEach]; the state is
    [(contextFeatures, nodeConnections)]. *)
Definition feature_step (es : list RawEntity) (targetType : string)
    (st : jsset * jsmap jsset) (r : RawRelation) : jsset * jsmap jsset :=
  let '(target, feature) :=
    if has_type es (r_source r) targetType
    then (r_source r, r_target r) else (r_target r, r_source r) in
  (set_add feature (fst st), register target feature (snd st)).

Definition vectorize (featureList : list string) (conns : jsmap jsset)
    (n : RawEntity) : list number :=
  let c := match map_get (e_name n) conns with Some s => s | None => [] end in
  List.map (fun f => if set_has f c then Fin 1 else Fin 0) featureList.

(** The local [distance]: Euclidean. *)
Definition distance (a b : list number) : number :=
  sqrt (reduce2 (fun sum v b => add sum (pow2 (sub v b))) (Fin 0) a b).

(** The inner [centroids.forEach]: the nearest centroid of [v], the first
    one on a tie, index 0 when there is none. *)
Definition nearest (centroids : list (list number)) (v : list number) : nat :=
  snd (fold_left
         (fun st ci_c =>
            let d := distance v (snd ci_c) in
            if ltb d (fst st) then (d, fst ci_c) else st)
         (combine (seq 0 (List.length centroids)) centroids)
         (PosInf, 0)).

Definition assign (centroids vectors : list (list number)) : list nat :=
  List.map (nearest centroids) vectors.

(** [xs[i] = f(xs[i])] for an index inside the array. *)
Fixpoint update_nth {A : Type} (i : nat) (f : A -> A) (xs : list A) : list A :=
  match xs, i with
  | [], _ => []
  | x :: xs', 0 => f x :: xs'
  | x :: xs', S i' => x :: update_nth i' f xs'
  end.

(** [v.forEach((val, dim) => row[dim] += val)]; a coordinate past the end
    of [row] is created as [undefined + val], that is NaN. *)
Fixpoint add_into (row v : list number) : list number :=
  match v with
  | [] => row
  | val :: v' =>
      match row with
      | [] => NaN :: add_into [] v'
      | x :: row' => add x val :: add_into row' v'
      end
  end.

(** The accumulation [vectors.forEach((v, i) => ...)] of the update step on
    [(newCentroids, counts)].  [newCentroids[c]] is [undefined] for [c]
    outside the [k] rows: writing a coordinate of it throws, which is
    [None] here; [counts[c]++] out of range only adds an entry nobody
    reads. *)
Fixpoint accumulate (vs : list (list number)) (assignments : list nat)
    (st : list (list number) * list nat)
  : option (list (list number) * list nat) :=
  match vs, assignments with
  | v :: vs', c :: as' =>
      let '(sums, counts) := st in
      if c <? List.length sums then
        accumulate vs' as'
          (update_nth c (fun row => add_into row v) sums,
           update_nth c S counts)
      else
        match v with
        | [] => accumulate vs' as' st
        | _ :: _ => None
        end
  | _, _ => Some st
  end.

(** [newCentroids.map((c, i) => counts[i] > 0 ? c.map(x => x / counts[i]) : c)] *)
Definition finish_centroids (sums : list (list number)) (counts : list nat)
  : list (list number) :=
  List.map (fun sc =>
              if 0 <? snd sc
              then List.map (fun x => div x (of_nat (snd sc))) (fst sc)
              else fst sc)
           (combine sums counts).

(** The "Update Centroids" block. *)
Definition update_centroids (k dim : nat) (vectors : list (list number))
    (assignments : list nat) : option (list (list number)) :=
  match accumulate vectors assignments
          (repeat (repeat (Fin 0) dim) k, repeat 0 k) with
  | Some (sums, counts) => Some (finish_centroids sums counts)
  | None => None
  end.

(** One turn of the [for (iter ...)] loop on [(centroids, assignments)]. *)
Definition kmeans_iter (k dim : nat) (vectors : list (list number))
    (st : list (list number) * list nat)
  : option (list (list number) * list nat) :=
  let assignments := assign (fst st) vectors in
  match update_centroids k dim vectors assignments with
  | Some centroids => Some (centroids, assignments)
  | None => None
  end.

Fixpoint kmeans_loop (iters k dim : nat) (vectors : list (list number))
    (st : list (list number) * list nat)
  : option (list (list number) * list nat) :=
  match iters with
  | 0 => Some st
  | S iters' =>
      match kmeans_iter k dim vectors st with
      | Some st' => kmeans_loop iters' k dim vectors st'
      | None => None
      end
  end.

Record KMeansResult := mkKMeans {
  km_result : jsmap nat;
  km_nodes : list GraphNode }.

Definition targetNodes (es : list RawEntity) (targetType : string)
  : list RawEntity :=
  filter (fun e => String.eqb (e_type e) targetType) es.

Definition kmeans_features (es : list RawEntity) (rs : list RawRelation)
    (targetType : string) : jsset * jsmap jsset :=
  fold_left (feature_step es targetType)
            (relevantRelations es rs targetType) ([], []).

Definition kmeans_vectors (es : list RawEntity) (rs : list RawRelation)
    (targetType : string) : list (list number) :=
  let '(contextFeatures, nodeConnections) :=
    kmeans_features es rs targetType in
  let featureList := sort_strings contextFeatures in
  List.map (vectorize featureList nodeConnections) (targetNodes es targetType).

(** [vectors.slice(0, k)], replaced by [vectors] when there are fewer than
    [k] of them. *)
Definition initial_centroids (k : nat) (vectors : list (list number))
  : list (list number) :=
  if List.length vectors <? k then vectors else firstn k vectors.

(** [None] stands for the [TypeError] the update step can throw. *)
Definition calculateVectorKMeans (es : list RawEntity) (rs : list RawRelation)
    (targetType : string) (k : nat) : option KMeansResult :=
  let tn := targetNodes es targetType in
  match tn with
  | [] => Some (mkKMeans [] [])
  | _ :: _ =>
      let featureList := sort_strings (fst (kmeans_features es rs targetType)) in
      let vectors := kmeans_vectors es rs targetType in
      match kmeans_loop 10 k (List.length featureList) vectors
              (initial_centroids k vectors,
               repeat 0 (List.length vectors)) with
      | Some (_, assignments) =>
          let result :=
            fold_left (fun res na => map_set (e_name (fst na)) (snd na) res)
                      (combine tn assignments) [] in
          Some (mkKMeans result
                  (List.map (fun n => mkNode (e_name n) (e_type n) None
                                             (map_get (e_name n) result)) tn))
      | None => None
      end
  end.

(* ================================================================== *)
(** ** Plain objects with numeric-looking keys *)
(* ================================================================== *)

Definition digit_of (c : ascii) : option nat :=
  let n := nat_of_ascii c in
  if (48 <=? n) && (n <=? 57) then Some (n - 48) else None.

Fixpoint digits_value (s : string) (acc : N) : option N :=
  match s with
  | EmptyString => Some acc
  | String c s' =>
      match digit_of c with
      | Some d => digits_value s' (acc * 10 + N.of_nat d)%N
      | None => None
      end
  end.

(** An array index: the canonical decimal text of an integer below
    [2^32 - 1].  An object lists such keys first, in ascending order, and
    then its other keys in the order they were created. *)
Definition array_index (s : string) : option N :=
  match s with
  | EmptyString => None
  | String c s' =>
      if Ascii.eqb c "0"%char then
        match s' with EmptyString => Some 0%N | _ => None end
      else
        match digits_value s 0%N with
        | Some n => if (n <? 4294967295)%N then Some n else None
        | None => None
        end
  end.

Definition index_entries {V : Type} (m : jsmap V) : list (N * V) :=
  flat_map (fun kv => match array_index (fst kv) with
                      | Some n => [(n, snd kv)]
                      | None => []
                      end) m.

(** [Object.values(o)] for an object whose properties were created in the
    order of [m]. *)
Definition object_values {V : Type} (m : jsmap V) : list V :=
  List.map snd (js_sort (fun x y => (fst y <? fst x)%N) (index_entries m))
  ++ List.map snd
       (filter (fun kv => match array_index (fst kv) with
                          | Some _ => false
                          | None => true
                          end) m).

(* ================================================================== *)
(** ** Bipartite community detector: [calculateBipartiteCommunity] *)
(* ================================================================== *)

Definition zero_metrics : Metrics :=
  mkMetrics (Fin 0) (Fin 0) (Fin 0) (Fin 0) (Fin 0) (Fin 0).

Definition bipartite_entities (es : list RawEntity) (frontType backType : string)
  : list RawEntity :=
  filter (fun e => String.eqb (e_type e) frontType) es
  ++ filter (fun e => String.eqb (e_type e) backType) es.

Definition validLinks (es : list RawEntity) (rs : list RawRelation)
    (frontType backType : string) : list RawRelation :=
  let validNames :=
    set_of_list (List.map e_name (bipartite_entities es frontType backType)) in
  filter (fun r => set_has (r_source r) validNames
                   && set_has (r_target r) validNames
                   && negb (String.eqb (r_source r) (r_target r))) rs.

Definition bipartite_nodes (es : list RawEntity) (frontType backType : string)
  : list GraphNode :=
  List.map (fun e => mkNode (e_name e) (e_type e) (Some zero_metrics) None)
           (bipartite_entities es frontType backType).

Definition bipartite_links (es : list RawEntity) (rs : list RawRelation)
    (frontType backType : string) : list GraphLink :=
  List.map (fun r => mkLink (EId (r_source r)) (EId (r_target r))
                            (r_relation r) None None)
           (validLinks es rs frontType backType).

(** [nodes.forEach((n, i) => labels[n.id] = i)] *)
Definition initial_labels (ns : list GraphNode) : jsmap nat :=
  fold_left (fun labels ni => map_set (id (snd ni)) (fst ni) labels)
            (combine (seq 0 (List.length ns)) ns) [].

(** [counts[l] = (counts[l] || 0) + 1] on an object keyed by labels.  Labels
    are array indices, so [Object.entries] lists them in ascending order
    and [counts] is kept sorted by key. *)
Fixpoint count_label (l : nat) (counts : list (nat * nat)) : list (nat * nat) :=
  match counts with
  | [] => [(l, 1)]
  | (l', c) :: rest =>
      if l =? l' then (l', c + 1) :: rest
      else if l <? l' then (l, 1) :: counts
      else (l', c) :: count_label l rest
  end.

(** The neighbour labels of a node, counted.  Every neighbour is a node of
    the subgraph and has a label. *)
Definition neighbor_counts (labels : jsmap nat) (neighbors : list neighbor)
  : list (nat * nat) :=
  fold_left (fun counts nb =>
               match map_get (nb_id nb) labels with
               | Some l => count_label l counts
               | None => counts
               end) neighbors [].

(** The scan of [Object.entries(counts)] for the most frequent label.
    [bestL] is [None] while it is [-1]; [maxC] starts at [-1]. *)
Definition best_label (counts : list (nat * nat)) : option nat :=
  fst (fold_left (fun st lc =>
                    if (snd st <? Z.of_nat (snd lc))%Z
                    then (Some (fst lc), Z.of_nat (snd lc)) else st)
                 counts (None, (-1)%Z)).

(** The body of [for (const n of shuffled)] on [(labels, change)]. *)
Definition visit (adj : adjacency) (st : jsmap nat * bool) (n : GraphNode)
  : jsmap nat * bool :=
  let neighbors := match map_get (id n) adj with Some l => l | None => [] end in
  match neighbors with
  | [] => st
  | _ :: _ =>
      match best_label (neighbor_counts (fst st) neighbors) with
      | Some bestL =>
          if match map_get (id n) (fst st) with
             | Some l => negb (l =? bestL)
             | None => true
             end
          then (map_set (id n) bestL (fst st), true)
          else st
      | None => st
      end
  end.

(** The propagation loop.  [shuffled i] is the visiting order of pass [i],
    the outcome of sorting the nodes with a random comparator. *)
Fixpoint propagate (passes i : nat) (shuffled : nat -> list GraphNode)
    (adj : adjacency) (labels : jsmap nat) : jsmap nat :=
  match passes with
  | 0 => labels
  | S passes' =>
      let '(labels', change) := fold_left (visit adj) (shuffled i) (labels, false) in
      if change then propagate passes' (S i) shuffled adj labels' else labels'
  end.

(** [Array.from(new Set(xs))] on numbers *)
Definition unique_nats (xs : list nat) : list nat :=
  fold_left (fun s x => if existsb (Nat.eqb x) s then s else s ++ [x]) xs [].

(** Position of [l] in [uniqueLabels], that is [labelMap.get(l)]. *)
Fixpoint index_of (l : nat) (xs : list nat) : option nat :=
  match xs with
  | [] => None
  | x :: xs' => if x =? l then Some 0 else option_map S (index_of l xs')
  end.

Definition final_labels (es : list RawEntity) (rs : list RawRelation)
    (frontType backType : string) (shuffled : nat -> list GraphNode)
  : jsmap nat :=
  let ns := bipartite_nodes es frontType backType in
  let adj := getAdjacency ns (bipartite_links es rs frontType backType) false in
  propagate 20 0 shuffled adj (initial_labels ns).

(** [labelMap.get(labels[n.id]) || 0] *)
Definition community_of (labels : jsmap nat) (uniqueLabels : list nat)
    (n : string) : nat :=
  match map_get n labels with
  | Some l => match index_of l uniqueLabels with Some i => i | None => 0 end
  | None => 0
  end.

Definition set_community (c : nat) (n : GraphNode) : GraphNode :=
  match metrics n with
  | Some m =>
      mkNode (id n) (group n)
             (Some (mkMetrics (m_degree m) (m_betweenness m) (m_closeness m)
                              (m_kCore m) (of_nat c) (m_clusteringCoeff m)))
             (clusters_kmeans n)
  | None => n
  end.

Definition calculateBipartiteCommunity (es : list RawEntity)
    (rs : list RawRelation) (frontType backType : string)
    (shuffled : nat -> list GraphNode) : GraphData :=
  let ns := bipartite_nodes es frontType backType in
  let labels := final_labels es rs frontType backType shuffled in
  let uniqueLabels := unique_nats (object_values labels) in
  mkGraph (List.map (fun n => set_community (community_of labels uniqueLabels (id n)) n) ns)
          (bipartite_links es rs frontType backType).

(* ================================================================== *)
(** ** Association rule miner: [calculateAssociationRules] *)
(* ================================================================== *)

Record AssociationRuleResult := mkRule {
  source : string;
  target : string;
  support : number;
  confidence : number;
  lift : number;
  cooccur : nat }.

Record AssociationResult := mkAssocResult {
  rules : list AssociationRuleResult;
  assoc_nodes : list GraphNode;
  assoc_links : list GraphLink }.

(** [`direct_${idx}`] *)
Definition direct_key (idx : nat) : string :=
  ("direct_" ++ NilEmpty.string_of_uint (Nat.to_uint idx))%string.

(** Step 1: one transaction per front-to-back relation. *)
Definition direct_transactions (es : list RawEntity) (rs : list RawRelation)
    (frontType backType : string) : jsmap jsset :=
  fold_left
    (fun tr ir =>
       let r := snd ir in
       if has_type es (r_source r) frontType
          && has_type es (r_target r) backType
       then map_set (direct_key (fst ir))
                    (set_of_list [r_source r; r_target r]) tr
       else tr)
    (combine (seq 0 (List.length rs)) rs) [].

(** [connectorMap]: the targets of every source. *)
Definition connectorMap (rs : list RawRelation) : jsmap jsset :=
  fold_left (fun m r => register (r_source r) (r_target r) m) rs [].

(** Step 2: one transaction per connector with a front and a back item. *)
Definition connector_transactions (es : list RawEntity)
    (frontType backType : string) (cm : jsmap jsset) (tr : jsmap jsset)
  : jsmap jsset :=
  fold_left
    (fun tr ci =>
       let fronts := filter (fun i => has_type es i frontType) (snd ci) in
       let backs := filter (fun i => has_type es i backType) (snd ci) in
       match fronts, backs with
       | _ :: _, _ :: _ => map_set (fst ci) (set_of_list (fronts ++ backs)) tr
       | _, _ => tr
       end)
    cm tr.

Definition transactions (es : list RawEntity) (rs : list RawRelation)
    (frontType backType : string) : jsmap jsset :=
  connector_transactions es frontType backType (connectorMap rs)
    (direct_transactions es rs frontType backType).

(** The body of [transactions.forEach] on [(itemCounts, pairCounts)]. *)
Definition count_step (es : list RawEntity) (frontType backType : string)
    (st : jsmap nat * jsmap nat) (arr : jsset) : jsmap nat * jsmap nat :=
  let itemCounts := fold_left (fun m i => bump i m) arr (fst st) in
  let fronts := filter (fun i => has_type es i frontType) arr in
  let backs := filter (fun i => has_type es i backType) arr in
  let pairCounts :=
    fold_left (fun m f => fold_left (fun m b => bump (pair_key f b) m) backs m)
              fronts (snd st) in
  (itemCounts, pairCounts).

Definition count_all (es : list RawEntity) (frontType backType : string)
    (tr : jsmap jsset) : jsmap nat * jsmap nat :=
  fold_left (count_step es frontType backType) (map_values tr) ([], []).

(** [(itemCounts.get(x) || 0) / totalTrans] *)
Definition item_support (itemCounts : jsmap nat) (totalTrans : nat)
    (x : string) : number :=
  div (of_nat (match map_get x itemCounts with Some n => n | None => 0 end))
      (of_nat totalTrans).

(** The body of [pairCounts.forEach]: the rule of one pair, if it passes
    both thresholds. *)
Definition rule_of (itemCounts : jsmap nat) (totalTrans : nat)
    (minSupport minConfidence : number) (kc : string * nat)
  : option AssociationRuleResult :=
  let '(src, tgt) := key_parts (fst kc) in
  let count := snd kc in
  let support := div (of_nat count) (of_nat totalTrans) in
  let supportSource := item_support itemCounts totalTrans src in
  let supportTarget := item_support itemCounts totalTrans tgt in
  if geb support minSupport then
    let confidence := div support supportSource in
    if geb confidence minConfidence then
      let lift := div confidence supportTarget in
      Some (mkRule src tgt support confidence lift count)
    else None
  else None.

Definition option_list {A : Type} (o : option A) : list A :=
  match o with Some a => [a] | None => [] end.

Definition unsorted_rules (itemCounts pairCounts : jsmap nat)
    (totalTrans : nat) (minSupport minConfidence : number)
  : list AssociationRuleResult :=
  flat_map (fun kc => option_list (rule_of itemCounts totalTrans
                                           minSupport minConfidence kc))
           pairCounts.

(** The comparator [(a, b) => b.lift - a.lift] puts [a] after [b] when it
    returns a positive number. *)
Definition lift_after (a b : AssociationRuleResult) : bool :=
  gtb (sub (lift b) (lift a)) (Fin 0).

(** [entities.find(e => e.name === id)?.type || "Unknown"] *)
Definition group_or_unknown (es : list RawEntity) (x : string) : string :=
  match type_of es x with
  | Some t => if String.eqb t "" then "Unknown" else t
  | None => "Unknown"
  end.

Definition calculateAssociationRules (es : list RawEntity)
    (rs : list RawRelation) (frontType backType : string)
    (minSupport minConfidence : number) : AssociationResult :=
  let tr := transactions es rs frontType backType in
  let totalTrans := List.length tr in
  if totalTrans =? 0 then mkAssocResult [] [] []
  else
    let '(itemCounts, pairCounts) := count_all es frontType backType tr in
    let found :=
      unsorted_rules itemCounts pairCounts totalTrans minSupport minConfidence in
    let validNodes :=
      set_of_list (flat_map (fun r => [source r; target r]) found) in
    let sorted := js_sort lift_after found in
    mkAssocResult
      sorted
      (List.map (fun x => mkNode x (group_or_unknown es x) (Some zero_metrics) None)
                validNodes)
      (List.map (fun r => mkLink (EId (source r)) (EId (target r)) "assoc" None
                                 (Some (mkAssociation (support r) (confidence r)
                                                      (lift r) true)))
                sorted).

(* ================================================================== *)
(** ** Centrality calculator *)
(* ================================================================== *)

(** A numeric record read at a key: [undefined] behaves as NaN in
    arithmetic. *)
Definition get_num (m : jsmap number) (k : string) : number :=
  match map_get k m with Some x => x | None => NaN end.

(** State of the breadth-first search of [calculateBetweenness]. *)
Record brandes := mkBrandes {
  b_Q : list string;
  b_S : list string;
  b_P : jsmap (list string);
  b_sigma : jsmap nat;
  b_d : jsmap Z }.

(** The body of [adj.get(v)?.forEach(edge => ...)].  [v] was taken from the
    queue, so [d[v]] and [sigma[v]] are defined; [d[w]] is [undefined] for
    an id outside the node list and then both tests fail. *)
Definition brandes_edge (v : string) (st : brandes) (edge : neighbor) : brandes :=
  let w := nb_id edge in
  let st1 :=
    match map_get w (b_d st), map_get v (b_d st) with
    | Some dw, Some dv =>
        if (dw <? 0)%Z
        then mkBrandes (b_Q st ++ [w]) (b_S st) (b_P st) (b_sigma st)
                       (map_set w (dv + 1)%Z (b_d st))
        else st
    | _, _ => st
    end in
  match map_get w (b_d st1), map_get v (b_d st1) with
  | Some dw, Some dv =>
      if (dw =? dv + 1)%Z
      then
        mkBrandes (b_Q st1) (b_S st1)
                  (map_set w (match map_get w (b_P st1) with
                              | Some p => p | None => [] end ++ [v])
                           (b_P st1))
                  (map_set w (match map_get w (b_sigma st1) with
                              | Some a => a | None => 0 end
                              + match map_get v (b_sigma st1) with
                                | Some a => a | None => 0 end)
                           (b_sigma st1))
                  (b_d st1)
      else st1
  | _, _ => st1
  end.

(** [while (Q.length > 0)], at most [fuel] turns. *)
Fixpoint brandes_bfs (fuel : nat) (adj : adjacency) (st : brandes) : brandes :=
  match fuel with
  | 0 => st
  | S fuel' =>
      match b_Q st with
      | [] => st
      | v :: q =>
          let st1 := mkBrandes q (b_S st ++ [v]) (b_P st) (b_sigma st) (b_d st) in
          brandes_bfs fuel' adj
            (fold_left (brandes_edge v)
                       (match map_get v adj with Some l => l | None => [] end)
                       st1)
      end
  end.

Definition brandes_init (ns : list GraphNode) (s : string) : brandes :=
  mkBrandes [s] []
    (fold_left (fun m t => map_set (id t) [] m) ns [])
    (map_set s 1 (fold_left (fun m t => map_set (id t) 0 m) ns []))
    (map_set s 0%Z (fold_left (fun m t => map_set (id t) (-1)%Z m) ns [])).

(** [delta[v] += (sigma[v] / sigma[w]) * (1 + delta[w])] *)
Definition back_edge (sigma : jsmap nat) (w : string) (delta : jsmap number)
    (v : string) : jsmap number :=
  let sg x := match map_get x sigma with
              | Some a => of_nat a | None => NaN end in
  map_set v (add (get_num delta v)
                 (mul (div (sg v) (sg w)) (add (Fin 1) (get_num delta w))))
          delta.

(** The body of [while (S.length > 0)] on [(delta, CB)]. *)
Definition back_step (s : string) (st : brandes)
    (acc : jsmap number * jsmap number) (w : string)
  : jsmap number * jsmap number :=
  let delta :=
    fold_left (back_edge (b_sigma st) w)
              (match map_get w (b_P st) with Some p => p | None => [] end)
              (fst acc) in
  (delta,
   if String.eqb w s then snd acc
   else map_set w (add (get_num (snd acc) w) (get_num delta w)) (snd acc)).

(** The body of the outer [nodes.forEach(s => ...)].  A search dequeues
    every node id at most once, so one turn per node is enough
    ([brandes_bfs_empty] below). *)
Definition brandes_source (ns : list GraphNode) (adj : adjacency)
    (CB : jsmap number) (s : GraphNode) : jsmap number :=
  let st := brandes_bfs (List.length ns) adj (brandes_init ns (id s)) in
  let delta0 := fold_left (fun m v => map_set (id v) (Fin 0) m) ns [] in
  snd (fold_left (back_step (id s) st) (rev (b_S st)) (delta0, CB)).

Definition calculateBetweenness (ns : list GraphNode) (adj : adjacency)
  : jsmap number :=
  fold_left (brandes_source ns adj) ns
            (fold_left (fun m n => map_set (id n) (Fin 0) m) ns []).

(** State of the search of [calculateCloseness]. *)
Record closeness := mkCloseness {
  c_q : list (string * nat);
  c_visited : jsset;
  c_total : nat;
  c_count : nat }.

Definition closeness_edge (d : nat) (st : closeness) (n : neighbor) : closeness :=
  if set_has (nb_id n) (c_visited st) then st
  else mkCloseness (c_q st ++ [(nb_id n, d + 1)])
                   (set_add (nb_id n) (c_visited st))
                   (c_total st) (c_count st).

(** [while (q.length)], at most [fuel] turns. *)
Fixpoint closeness_bfs (fuel : nat) (adj : adjacency) (st : closeness)
  : closeness :=
  match fuel with
  | 0 => st
  | S fuel' =>
      match c_q st with
      | [] => st
      | (x, d) :: q =>
          let st1 :=
            if 0 <? d
            then mkCloseness q (c_visited st) (c_total st + d) (c_count st + 1)
            else mkCloseness q (c_visited st) (c_total st) (c_count st) in
          closeness_bfs fuel' adj
            (fold_left (closeness_edge d)
                       (match map_get x adj with Some l => l | None => [] end)
                       st1)
      end
  end.

(** Every id a search enqueues besides its start is the id of an adjacency
    entry, and it enqueues each once. *)
Definition closeness_fuel (adj : adjacency) : nat :=
  S (List.length (flat_map snd adj)).

Definition closeness_of (adj : adjacency) (x : string) : number :=
  let st := closeness_bfs (closeness_fuel adj) adj
                          (mkCloseness [(x, 0)] [x] 0 0) in
  if 0 <? c_count st then div (of_nat (c_count st)) (of_nat (c_total st))
  else Fin 0.

Definition calculateCloseness (ns : list GraphNode) (adj : adjacency)
  : jsmap number :=
  fold_left (fun CC n => map_set (id n) (closeness_of adj (id n)) CC) ns [].

Record ranked := mkRanked { rk_id : string; val : number }.

(** The comparator [(a, b) => b.val - a.val]. *)
Definition val_after (a b : ranked) : bool :=
  gtb (sub (val b) (val a)) (Fin 0).

Record CentralityRankings := mkRankings {
  degree : list ranked;
  betweenness : list ranked;
  closeness_ranking : list ranked }.

(** [adj.get(n.id)?.length || 0] *)
Definition degree_of (adj : adjacency) (x : string) : number :=
  of_nat (match map_get x adj with Some l => List.length l | None => 0 end).

(** The three rankings before [slice(0, 5)]. *)
Definition degree_ranking (ns : list GraphNode) (ls : list GraphLink)
  : list ranked :=
  let adj := getAdjacency ns ls false in
  js_sort val_after (List.map (fun n => mkRanked (id n) (degree_of adj (id n))) ns).

Definition betweenness_ranking (ns : list GraphNode) (ls : list GraphLink)
  : list ranked :=
  let adj := getAdjacency ns ls false in
  let CB := calculateBetweenness ns adj in
  js_sort val_after (List.map (fun n => mkRanked (id n) (get_num CB (id n))) ns).

Definition closeness_full_ranking (ns : list GraphNode) (ls : list GraphLink)
  : list ranked :=
  let adj := getAdjacency ns ls false in
  let CC := calculateCloseness ns adj in
  js_sort val_after (List.map (fun n => mkRanked (id n) (get_num CC (id n))) ns).

Definition calculateCentralityRankings (ns : list GraphNode)
    (ls : list GraphLink) : CentralityRankings :=
  mkRankings (firstn 5 (degree_ranking ns ls))
             (firstn 5 (betweenness_ranking ns ls))
             (firstn 5 (closeness_full_ranking ns ls)).

(* ================================================================== *)
(** ** Notions used to state the properties *)
(* ================================================================== *)

Definition node_ids (ns : list GraphNode) : list string := List.map id ns.

(** Number of link ends that sit on [v]: a self-loop has two. *)
Definition incidences (v : string) (ls : list GraphLink) : nat :=
  List.length (filter (fun l => String.eqb (endpoint_id (l_source l)) v) ls)
  + List.length (filter (fun l => String.eqb (endpoint_id (l_target l)) v) ls).

(** Leaves, internal nodes and shape of a dendrogram.  A leaf is a node
    flagged [isLeaf: true]; any other node is internal. *)
Definition flagged_leaf (isLeaf : option bool) : bool :=
  match isLeaf with Some true => true | _ => false end.

Fixpoint leaf_names (t : DendrogramNode) : list string :=
  match t with
  | mkDendro name children _ isLeaf =>
      if flagged_leaf isLeaf then [name]
      else match children with
           | Some cs => flat_map leaf_names cs
           | None => []
           end
  end.

Fixpoint internal_count (t : DendrogramNode) : nat :=
  match t with
  | mkDendro _ children _ isLeaf =>
      if flagged_leaf isLeaf then 0
      else S (match children with
              | Some cs => list_sum (List.map internal_count cs)
              | None => 0
              end)
  end.

(** Every internal node has exactly two children. *)
Fixpoint binary (t : DendrogramNode) : bool :=
  match t with
  | mkDendro _ children _ isLeaf =>
      if flagged_leaf isLeaf then true
      else match children with
           | Some cs => (List.length cs =? 2) && forallb binary cs
           | None => false
           end
  end.

Definition dendro_distance (t : DendrogramNode) : option number :=
  match t with mkDendro _ _ d _ => d end.

Definition dendro_children (t : DendrogramNode) : list DendrogramNode :=
  match t with
  | mkDendro _ (Some cs) _ _ => cs
  | mkDendro _ None _ _ => []
  end.

(** A link weight the index can read without producing an infinity. *)
Definition finite_weight (l : GraphLink) : Prop :=
  l_weight l <> Some PosInf /\ l_weight l <> Some NegInf.

(** The scenario of the specification: two symptoms of one syndrome. *)
Definition scenario_entities : list RawEntity :=
  [mkEntity "症状" "胸闷"; mkEntity "症状" "胸痛"; mkEntity "证候" "气虚血瘀证"].

Definition scenario_relations : list RawRelation :=
  [mkRelation "胸闷" "是症状" "气虚血瘀证";
   mkRelation "胸痛" "是症状" "气虚血瘀证"].

Definition scenario_graph : GraphData :=
  generateCooccurrenceGraph scenario_entities scenario_relations "证候" "症状".

Definition scenario_tree : DendrogramNode :=
  calculateHierarchicalTree (nodes scenario_graph) (links scenario_graph)
                            euclidean complete.

(** A vector of [n] finite coordinates. *)
Definition fin_vec (n : nat) (v : list number) : Prop :=
  List.length v = n /\ Forall finite v.

(** What the clustering loop keeps true of every working cluster: it has
    members, they are node ids, and under centroid linkage its vector has
    one finite coordinate per node. *)
Definition good_cluster (ids : list string) (method : ClusterMethod)
    (c : cluster) : Prop :=
  members c <> []
  /\ Forall (fun m => In m ids) (members c)
  /\ (method = centroid -> fin_vec (List.length ids) (vec c)).

Definition all_leaves (cs : list cluster) : list string :=
  flat_map (fun c => leaf_names (tree c)) cs.

Definition all_internal (cs : list cluster) : nat :=
  list_sum (List.map (fun c => internal_count (tree c)) cs).

(** The invariant of the clustering loop: the clusters are well formed,
    their trees carry the node ids as leaves, every merge made so far
    accounts for one internal node, and all trees are binary. *)
Definition tree_inv (ids : list string) (method : ClusterMethod)
    (cs : list cluster) : Prop :=
  Forall (good_cluster ids method) cs
  /\ Permutation (all_leaves cs) ids
  /\ all_internal cs + List.length cs = List.length ids
  /\ Forall (fun c => binary (tree c) = true) cs.

(** The vectors the assignment step gave to cluster [c]. *)
Definition assigned (c : nat) (vectors : list (list number))
    (assignments : list nat) : list (list number) :=
  List.map fst (filter (fun va => snd va =? c) (combine vectors assignments)).

(** Sum of coordinate [i] over a list of vectors, from [start]. *)
Definition column_sum (i : nat) (vs : list (list number)) (start : number)
  : number :=
  fold_left (fun s v => add s (nth i v NaN)) vs start.

(** Elementwise mean of a list of vectors of dimension [dim]. *)
Definition mean_vector (dim : nat) (vs : list (list number)) : list number :=
  List.map (fun i => div (column_sum i vs (Fin 0)) (of_nat (List.length vs)))
           (seq 0 dim).

(** Coordinates of incidence vectors and of the centroids they settle on. *)
Definition bit (x : number) : Prop := x = Fin 0 \/ x = Fin 1.

Definition near_bit (y : number) : Prop :=
  exists q, y = Fin q /\ (q == 0 \/ q == 1)%Q.

Definition qeq_num (x y : number) : Prop :=
  exists p q, x = Fin p /\ y = Fin q /\ (p == q)%Q.

(** Two vectors with equal coordinates, as rationals. *)
Definition veq (c v : list number) : Prop := Forall2 qeq_num c v.

(** With no more items than clusters, every item keeps a centroid equal to
    its own vector among the first [length vs] centroids. *)
Definition settled (dim : nat) (vs cs : list (list number)) : Prop :=
  Forall (fun c => List.length c = dim /\ Forall near_bit c) cs
  /\ Forall (fun v => exists j, j < List.length vs /\ j < List.length cs
                                /\ veq (nth j cs []) v) vs.

(** What label propagation keeps true of the label map, for a split of the
    node ids into two sides: every label is the index of a node on the
    side of the node that carries it. *)
Definition labels_inv (side : string -> bool) (ns : list GraphNode)
    (labels : jsmap nat) : Prop :=
  forall v l, map_get v labels = Some l ->
    l < List.length ns
    /\ side (id (nth l ns (mkNode "" "" None None))) = side v.

(** The community number a returned node carries. *)
Definition community (n : GraphNode) : option number :=
  option_map m_community (metrics n).

(** Number of transactions that contain the item [x], and the support of
    [x]: that number over the number of transactions. *)
Definition tx_count (x : string) (tr : jsmap jsset) : nat :=
  List.length (filter (set_has x) (map_values tr)).

Definition support_of (tr : jsmap jsset) (x : string) : number :=
  div (of_nat (tx_count x tr)) (of_nat (List.length tr)).

(** A positive number or [+Infinity]. *)
Definition pos_num (x : number) : Prop :=
  x = PosInf \/ exists q, x = Fin q /\ (0 < q)%Q.

Definition getd (m : jsmap nat) (k : string) : nat :=
  match map_get k m with Some n => n | None => 0 end.

(** A string without the separator ['|']. *)
Fixpoint bar_free (s : string) : bool :=
  match s with
  | EmptyString => true
  | String c s' => negb (Ascii.eqb c bar) && bar_free s'
  end.

(** [holds c i]: some relation joins the container-typed entity [c] and the
    item-typed entity [i], in either direction. *)
Definition holds (es : list RawEntity) (rs : list RawRelation)
    (containerType itemType : string) (c i : string) : bool :=
  existsb (fun r => (String.eqb (r_source r) c && String.eqb (r_target r) i)
                    || (String.eqb (r_target r) c && String.eqb (r_source r) i))
          rs
  && has_entity es c containerType && has_entity es i itemType.

(** Names of the container-typed entities. *)
Definition container_names (es : list RawEntity) (containerType : string)
  : list string :=
  List.map e_name (filter (fun e => String.eqb (e_type e) containerType) es).

(** Number of containers under which [s] and [t] co-occur. *)
Definition cooccurrences (es : list RawEntity) (rs : list RawRelation)
    (containerType itemType : string) (s t : string) : nat :=
  List.length
    (filter (fun c => holds es rs containerType itemType c s
                      && holds es rs containerType itemType c t)
            (container_names es containerType)).

Definition cooc_edge (s t : string) (w : nat) : GraphLink :=
  mkLink (EId s) (EId t) "co-occur" (Some (of_nat w)) None.

(** The item set registered under [c], empty when [c] is not a key. *)
Definition items_of (c2i : jsmap jsset) (c : string) : jsset :=
  match map_get c c2i with Some s => s | None => [] end.

(** The keys the double loop over one item set bumps, in order. *)
Fixpoint pair_keys (arr : list string) : list string :=
  match arr with
  | [] => []
  | a :: rest => List.map (edge_key a) rest ++ pair_keys rest
  end.

(** The example of the specification: [X] holds [a, b], [Y] holds [b, c]. *)
Definition example_entities : list RawEntity :=
  [mkEntity "container" "X"; mkEntity "container" "Y";
   mkEntity "item" "a"; mkEntity "item" "b"; mkEntity "item" "c"].

Definition example_relations : list RawRelation :=
  [mkRelation "X" "has" "a"; mkRelation "X" "has" "b";
   mkRelation "Y" "has" "b"; mkRelation "Y" "has" "c"].

(** A non-negative number or [+Infinity]. *)
Definition nn (x : number) : Prop :=
  x = PosInf \/ exists q, x = Fin q /\ (0 <= q)%Q.

(** [sigma[v]] is defined and at least 1. *)
Definition sigma_pos (sigma : jsmap nat) (v : string) : Prop :=
  exists n, map_get v sigma = Some n /\ 1 <= n.

(** [d[v]] is defined and not negative. *)
Definition reached (d : jsmap Z) (v : string) : Prop :=
  exists dv, map_get v d = Some dv /\ (0 <= dv)%Z.

(** What the search of [calculateBetweenness] keeps true: only node ids
    carry a distance, and every id that is queued, was dequeued or was
    recorded as a predecessor has been reached and has a positive path
    count. *)
Definition brandes_inv (ids : list string) (st : brandes) : Prop :=
  (forall x, map_has x (b_d st) = true -> In x ids)
  /\ (forall x, In x (b_Q st) ->
        reached (b_d st) x /\ sigma_pos (b_sigma st) x)
  /\ (forall x, In x (b_S st) ->
        reached (b_d st) x /\ sigma_pos (b_sigma st) x)
  /\ (forall w l v, map_get w (b_P st) = Some l -> In v l ->
        reached (b_d st) v /\ sigma_pos (b_sigma st) v).

(** A ranking as the component returns it: the first five entries of a
    full list that has one entry per node and is sorted by descending
    value. *)
Definition top5_of (ns : list GraphNode) (short full : list ranked) : Prop :=
  short = firstn 5 full
  /\ List.length short = Nat.min 5 (List.length ns)
  /\ Permutation (List.map rk_id full) (node_ids ns)
  /\ StronglySorted (fun a b => geb (val a) (val b) = true) full.

(** Six nodes without links. *)
Definition six_nodes : list GraphNode :=
  List.map (fun x => mkNode x "Herb" None None) ["a"; "b"; "c"; "d"; "e"; "f"]%string.

(** Node ids the search of [calculateBetweenness] has not reached yet:
    entries of [d] that still hold [-1]. *)
Definition unseen (d : jsmap Z) : nat :=
  List.length (filter (fun kv => (snd kv <? 0)%Z) d).

(** Work left for the search: queued ids plus ids still to be reached. *)
Definition brandes_measure (st : brandes) : nat :=
  List.length (b_Q st) + unseen (b_d st).

(** Ids that occur in some neighbour list. *)
Definition neighbor_ids (adj : adjacency) : list string :=
  nodup string_dec (List.map nb_id (flat_map snd adj)).

(** Work left for the search of [calculateCloseness]: queued entries plus
    neighbour ids not visited yet. *)
Definition closeness_measure (adj : adjacency) (st : closeness) : nat :=
  List.length (c_q st)
  + List.length (filter (fun x => negb (set_has x (c_visited st)))
                        (neighbor_ids adj)).

(** A finite number that is not negative. *)
Definition fnn (x : number) : Prop := exists q, x = Fin q /\ (0 <= q)%Q.

(** Two numbers with the same value, which the ranking comparator cannot
    tell apart. *)
Definition same_value (a b : number) : bool :=
  match a, b with
  | NaN, NaN | NegInf, NegInf | PosInf, PosInf => true
  | Fin x, Fin y => Qeqb x y
  | _, _ => false
  end.

(** Total number of entries in the neighbour lists of an index. *)
Definition entries (adj : adjacency) : nat :=
  list_sum (List.map (fun kv => List.length (snd kv)) adj).

(* ================================================================== *)
(** ** The manual graph of the application: [standardGraphData] *)
(* ================================================================== *)

(** [if (!m.has(x)) m.set(x, { id: x, group: "未定义" })] *)
Definition ensure_node (x : string) (m : jsmap GraphNode) : jsmap GraphNode :=
  if map_has x m then m else map_set x (mkNode x "未定义" None None) m.

(** [uniqueNodesMap]: one node per entity name, then one per relation end
    that no entity names. *)
Definition uniqueNodesMap (es : list RawEntity) (rs : list RawRelation)
  : jsmap GraphNode :=
  fold_left (fun m r => ensure_node (r_target r) (ensure_node (r_source r) m))
            rs
            (fold_left (fun m e => map_set (e_name e)
                                           (mkNode (e_name e) (e_type e) None None)
                                           m)
                       es []).

Definition relation_link (r : RawRelation) : GraphLink :=
  mkLink (EId (r_source r)) (EId (r_target r)) (r_relation r) None None.

Definition standardGraphData (es : list RawEntity) (rs : list RawRelation)
  : GraphData :=
  let m := uniqueNodesMap es rs in
  mkGraph (map_values m)
          (filter (fun l => map_has (endpoint_id (l_source l)) m
                            && map_has (endpoint_id (l_target l)) m)
                  (List.map relation_link rs)).

(** The type of the last entity named [x], which is the one the map keeps. *)
Definition last_type (es : list RawEntity) (x : string) : option string :=
  option_map e_type (find (fun e => String.eqb (e_name e) x) (rev es)).

(** The node the manual graph shows for the id [x], if any. *)
Definition standard_node (es : list RawEntity) (rs : list RawRelation)
    (x : string) : option GraphNode :=
  match last_type es x with
  | Some t => Some (mkNode x t None None)
  | None =>
      if existsb (fun r => String.eqb (r_source r) x
                           || String.eqb (r_target r) x) rs
      then Some (mkNode x "未定义" None None)
      else None
  end.

(* ================================================================== *)
(** ** The graph on screen: [activeGraphData] *)
(* ================================================================== *)

(** The view settings [activeGraphData] reads: hidden ids, expanded ids,
    the selected type (["all"] for none) and the selected entity (the empty
    string for none). *)
Record ViewState := mkView {
  hiddenNodeIds : jsset;
  expandedNodeIds : list string;
  selectedType : string;
  selectedEntityId : string }.

Definition filteredNodes (std : GraphData) (v : ViewState) : list GraphNode :=
  let shown :=
    filter (fun n => negb (set_has (id n) (hiddenNodeIds v))) (nodes std) in
  if 0 <? List.length (expandedNodeIds v) then
    filter (fun n => existsb (String.eqb (id n)) (expandedNodeIds v)
                     && negb (set_has (id n) (hiddenNodeIds v)))
           (nodes std)
  else
    let byType :=
      if negb (String.eqb (selectedType v) "all")
      then filter (fun n => String.eqb (group n) (selectedType v)) shown
      else shown in
    if negb (String.eqb (selectedEntityId v) EmptyString)
    then filter (fun n => String.eqb (id n) (selectedEntityId v)) byType
    else byType.

(** [isShowingAnalysis && analysisGraphData] selects the analysis graph;
    otherwise the manual graph is filtered by the view settings and keeps
    the links whose two ends are visible. *)
Definition activeGraphData (isShowingAnalysis : bool)
    (analysisGraphData : option GraphData) (std : GraphData) (v : ViewState)
  : GraphData :=
  match (if isShowingAnalysis then analysisGraphData else None) with
  | Some g => g
  | None =>
      let visibleIds := set_of_list (List.map id (filteredNodes std v)) in
      mkGraph (filteredNodes std v)
              (filter (fun l => set_has (endpoint_id (l_source l)) visibleIds
                                && set_has (endpoint_id (l_target l)) visibleIds)
                      (links std))
  end.

(** The distances the merges of a dendrogram record, one per internal
    node. *)
Fixpoint merge_distances (t : DendrogramNode) : list (option number) :=
  match t with
  | mkDendro _ children d isLeaf =>
      if flagged_leaf isLeaf then []
      else d :: match children with
                | Some cs => flat_map merge_distances cs
                | None => []
                end
  end.

(** A recorded distance that is a finite number and not negative. *)
Definition good_distance (d : option number) : Prop :=
  exists q, d = Some (Fin q) /\ (0 <= q)%Q.

(* ================================================================== *)
(** ** The dispatcher: [runAlgorithm] *)
(* ================================================================== *)

(** The fields [runAlgorithm] reads from [params]. *)
Record AlgorithmParams := mkParams {
  p_distanceType : DistanceType;
  p_method : ClusterMethod;
  p_targetType : string;
  p_k : nat;
  p_frontType : string;
  p_backType : string;
  p_minSupport : number;
  p_minConfidence : number }.

(** What [runAlgorithm] returns: the result of the algorithm it ran, or
    the empty object. *)
Inductive AlgorithmResult : Type :=
| TreeResult (t : DendrogramNode)
| ClusterResult (r : KMeansResult)
| CommunityResult (g : GraphData)
| RuleResult (r : AssociationResult)
| RankingResult (r : CentralityRankings)
| EmptyResult.

(** [None] stands for the [TypeError] of the k-means update step; the
    visiting orders of the community detector are passed along. *)
Definition runAlgorithm (type : string) (data : GraphData)
    (params : AlgorithmParams)
    (rawData : option (list RawEntity * list RawRelation))
    (shuffled : nat -> list GraphNode) : option AlgorithmResult :=
  if String.eqb type "HIERARCHICAL" then
    Some (TreeResult (calculateHierarchicalTree
                        (nodes data) (links data)
                        (p_distanceType params) (p_method params)))
  else
    match (if String.eqb type "KMEANS" then rawData else None) with
    | Some (es, rs) =>
        option_map ClusterResult
          (calculateVectorKMeans es rs (p_targetType params) (p_k params))
    | None =>
        match (if String.eqb type "COMMUNITY" then rawData else None) with
        | Some (es, rs) =>
            Some (CommunityResult
                    (calculateBipartiteCommunity
                       es rs (p_frontType params) (p_backType params) shuffled))
        | None =>
            match (if String.eqb type "ASSOCIATION" then rawData else None) with
            | Some (es, rs) =>
                Some (RuleResult
                        (calculateAssociationRules
                           es rs (p_frontType params) (p_backType params)
                           (p_minSupport params) (p_minConfidence params)))
            | None =>
                if String.eqb type "CENTRALITY" then
                  Some (RankingResult
                          (calculateCentralityRankings (nodes data) (links data)))
                else Some EmptyResult
            end
        end
    end.

(** The target entity and the feature a relevant relation contributes, as
    [relevantRelations.forEach] picks them. *)
Definition feature_pair (es : list RawEntity) (targetType : string)
    (r : RawRelation) : string * string :=
  if has_type es (r_source r) targetType
  then (r_source r, r_target r) else (r_target r, r_source r).

(** Some relevant relation makes [f] a feature of the target [n]. *)
Definition related (es : list RawEntity) (rs : list RawRelation)
    (targetType n f : string) : bool :=
  existsb (fun r => String.eqb (fst (feature_pair es targetType r)) n
                    && String.eqb (snd (feature_pair es targetType r)) f)
          (relevantRelations es rs targetType).

(** The link the rule graph draws for a rule. *)
Definition rule_link (r : AssociationRuleResult) : GraphLink :=
  mkLink (EId (source r)) (EId (target r)) "assoc" None
         (Some (mkAssociation (support r) (confidence r) (lift r) true)).

(* ================================================================== *)
(** * Properties *)
(* ================================================================== *)

(** ** Maps and sets *)

Section JsMapFacts.

Context {V : Type}.
Implicit Types (m : jsmap V) (k : string) (v : V).

Lemma map_get_set_same m k v : map_get k (map_set k v m) = Some v.
Proof.
  induction m as [|[k' v'] m IH]; simpl.
  - now rewrite String.eqb_refl.
  - destruct (String.eqb k' k) eqn:E; simpl; rewrite E; auto.
Qed.

Lemma map_get_set_other m k k' v :
  k <> k' -> map_get k' (map_set k v m) = map_get k' m.
Proof.
  intros Hne. induction m as [|[k1 v1] m IH]; simpl.
  - destruct (String.eqb k k') eqn:E; auto.
    apply String.eqb_eq in E. contradiction.
  - destruct (String.eqb k1 k) eqn:E; simpl.
    + apply String.eqb_eq in E. subst k1.
      destruct (String.eqb k k') eqn:E'; auto.
      apply String.eqb_eq in E'. contradiction.
    + now rewrite IH.
Qed.

Lemma map_get_set m k k' v :
  map_get k' (map_set k v m)
  = if String.eqb k k' then Some v else map_get k' m.
Proof.
  destruct (String.eqb k k') eqn:E.
  - apply String.eqb_eq in E. subst. apply map_get_set_same.
  - apply String.eqb_neq in E. now apply map_get_set_other.
Qed.

Lemma map_get_In m k v : map_get k m = Some v -> In (k, v) m.
Proof.
  induction m as [|[k' v'] m IH]; simpl; [discriminate|].
  destruct (String.eqb k' k) eqn:E; intros H.
  - apply String.eqb_eq in E. inversion H. subst. now left.
  - right. auto.
Qed.

Lemma map_get_None m k : map_get k m = None <-> ~ In k (map_keys m).
Proof.
  induction m as [|[k' v'] m IH]; simpl.
  - tauto.
  - destruct (String.eqb k' k) eqn:E.
    + apply String.eqb_eq in E. split; [discriminate|]. intros H.
      exfalso. apply H. now left.
    + apply String.eqb_neq in E. rewrite IH. unfold map_keys. simpl.
      split; [intros H [H1|H1]; auto | intros H H1; apply H; now right].
Qed.

Lemma map_has_In m k : map_has k m = true <-> In k (map_keys m).
Proof.
  unfold map_has. destruct (map_get k m) eqn:E.
  - split; auto. intros _.
    destruct (in_dec string_dec k (map_keys m)) as [H|H]; auto.
    apply map_get_None in H. congruence.
  - apply map_get_None in E. split; [discriminate | contradiction].
Qed.

Lemma map_keys_set m k v :
  map_keys (map_set k v m)
  = if map_has k m then map_keys m else map_keys m ++ [k].
Proof.
  unfold map_has. induction m as [|[k' v'] m IH]; simpl; auto.
  destruct (String.eqb k' k) eqn:E; simpl; auto.
  rewrite IH. now destruct (map_get k m).
Qed.

Lemma map_keys_set_In m k v k' :
  In k' (map_keys (map_set k v m)) <-> k' = k \/ In k' (map_keys m).
Proof.
  rewrite map_keys_set. destruct (map_has k m) eqn:E.
  - apply map_has_In in E. split; [tauto|]. intros [->|H]; auto.
  - rewrite in_app_iff. simpl. intuition auto.
Qed.

End JsMapFacts.

Lemma set_has_In x s : set_has x s = true <-> In x s.
Proof.
  unfold set_has. rewrite existsb_exists. split.
  - intros [y [Hy E]]. apply String.eqb_eq in E. now subst.
  - intros H. exists x. split; auto. apply String.eqb_refl.
Qed.

Lemma set_add_In x y s : In y (set_add x s) <-> y = x \/ In y s.
Proof.
  unfold set_add. destruct (set_has x s) eqn:E.
  - apply set_has_In in E. split; [tauto|]. intros [->|H]; auto.
  - rewrite in_app_iff. simpl. split; [intros [H|[H|[]]]|intros [H|H]]; auto.
Qed.

Lemma set_add_NoDup x s : NoDup s -> NoDup (set_add x s).
Proof.
  intros H. unfold set_add. destruct (set_has x s) eqn:E; auto.
  apply NoDup_app; auto.
  - constructor; [intros []|constructor].
  - intros y Hy [<-|[]]. apply set_has_In in Hy. congruence.
Qed.

(** ** Graph index *)

Lemma adj_push_get k e (adj : adjacency) v :
  map_get v (adj_push k e adj)
  = if String.eqb k v then option_map (fun l => l ++ [e]) (map_get v adj)
    else map_get v adj.
Proof.
  unfold adj_push, map_has.
  destruct (map_get k adj) as [l|] eqn:E.
  - rewrite map_get_set. destruct (String.eqb k v) eqn:Ekv; auto.
    apply String.eqb_eq in Ekv. subst. now rewrite E.
  - destruct (String.eqb k v) eqn:Ekv; auto.
    apply String.eqb_eq in Ekv. subst. now rewrite E.
Qed.

Lemma adj_push_absent k e (adj : adjacency) :
  ~ In k (map_keys adj) -> adj_push k e adj = adj.
Proof.
  intros H. unfold adj_push.
  destruct (map_has k adj) eqn:E; auto.
  apply map_has_In in E. contradiction.
Qed.

Lemma adj_push_keys k e (adj : adjacency) :
  map_keys (adj_push k e adj) = map_keys adj.
Proof.
  unfold adj_push. destruct (map_has k adj) eqn:E; auto.
  destruct (map_get k adj); auto.
  rewrite map_keys_set. now rewrite E.
Qed.

Lemma add_link_keys w (adj : adjacency) l :
  map_keys (add_link w adj l) = map_keys adj.
Proof. unfold add_link. now rewrite !adj_push_keys. Qed.

Lemma fold_add_link_keys w ls (adj : adjacency) :
  map_keys (fold_left (add_link w) ls adj) = map_keys adj.
Proof.
  revert adj. induction ls as [|l ls IH]; intros adj; simpl; auto.
  rewrite IH. apply add_link_keys.
Qed.

Lemma init_keys_In {V : Type} (f : GraphNode -> V) ns (m : jsmap V) k :
  In k (map_keys (fold_left (fun m n => map_set (id n) (f n) m) ns m))
  <-> In k (node_ids ns) \/ In k (map_keys m).
Proof.
  revert m. induction ns as [|n ns IH]; intros m; simpl.
  - tauto.
  - rewrite IH, map_keys_set_In. intuition auto.
Qed.

Lemma getAdjacency_keys ns ls w k :
  In k (map_keys (getAdjacency ns ls w)) <-> In k (node_ids ns).
Proof.
  unfold getAdjacency. rewrite fold_add_link_keys.
  rewrite (init_keys_In (fun _ => [])). simpl. tauto.
Qed.

Lemma getAdjacency_snoc ns ls l w :
  getAdjacency ns (ls ++ [l]) w = add_link w (getAdjacency ns ls w) l.
Proof. unfold getAdjacency. now rewrite fold_left_app. Qed.

Lemma add_link_get w (adj : adjacency) l v :
  let s := endpoint_id (l_source l) in
  let t := endpoint_id (l_target l) in
  map_get v (add_link w adj l)
  = option_map
      (fun old => old
                  ++ (if String.eqb s v then [mkNb t (link_weight w l)] else [])
                  ++ (if String.eqb t v then [mkNb s (link_weight w l)] else []))
      (map_get v adj).
Proof.
  intros s t. unfold add_link. fold s t. rewrite !adj_push_get.
  destruct (map_get v adj) as [old|]; simpl;
    destruct (String.eqb s v), (String.eqb t v); simpl;
    rewrite ?app_nil_r, <- ?app_assoc; auto.
Qed.

Lemma add_link_absent w (adj : adjacency) l :
  ~ In (endpoint_id (l_source l)) (map_keys adj) ->
  ~ In (endpoint_id (l_target l)) (map_keys adj) ->
  add_link w adj l = adj.
Proof.
  intros Hs Ht. unfold add_link.
  rewrite (adj_push_absent (endpoint_id (l_source l))) by assumption.
  now apply adj_push_absent.
Qed.

Lemma getAdjacency_get_init ns v :
  map_get v (fold_left (fun (adj : adjacency) n => map_set (id n) [] adj) ns [])
  = if in_dec string_dec v (node_ids ns) then Some [] else None.
Proof.
  assert (G : forall (m : adjacency),
             (forall k l, map_get k m = Some l -> l = []) ->
             forall k l,
               map_get k (fold_left (fun (adj : adjacency) n =>
                                       map_set (id n) [] adj) ns m) = Some l ->
               l = []).
  { induction ns as [|n ns IH]; intros m Hm k l; simpl; eauto.
    apply IH. intros k' l'. rewrite map_get_set.
    destruct (String.eqb (id n) k'); eauto. congruence. }
  destruct (in_dec string_dec v (node_ids ns)) as [Hin|Hout].
  - destruct (map_get v _) as [l|] eqn:E.
    + f_equal. eapply G; eauto. simpl. discriminate.
    + apply map_get_None in E. exfalso. apply E.
      apply (init_keys_In (fun _ => [])). now left.
  - apply map_get_None. intros H.
    apply (init_keys_In (fun _ => [])) in H. simpl in H. tauto.
Qed.

Lemma incidences_snoc v ls l :
  incidences v (ls ++ [l])
  = incidences v ls
    + (if String.eqb (endpoint_id (l_source l)) v then 1 else 0)
    + (if String.eqb (endpoint_id (l_target l)) v then 1 else 0).
Proof.
  unfold incidences. rewrite !filter_app, !length_app. simpl.
  destruct (String.eqb (endpoint_id (l_source l)) v),
           (String.eqb (endpoint_id (l_target l)) v); simpl; lia.
Qed.

Lemma getAdjacency_degree ns ls w v :
  In v (node_ids ns) ->
  exists old, neighbors (getAdjacency ns ls w) v = Some old
              /\ List.length old = incidences v ls.
Proof.
  intros Hin. unfold neighbors.
  induction ls as [|l ls IH] using rev_ind.
  - exists []. split; auto. unfold getAdjacency. simpl.
    rewrite getAdjacency_get_init.
    destruct (in_dec string_dec v (node_ids ns)); tauto.
  - destruct IH as [old [Hold Hlen]].
    rewrite getAdjacency_snoc, add_link_get, Hold. simpl.
    eexists. split; [reflexivity|].
    rewrite incidences_snoc, !length_app, Hlen.
    destruct (String.eqb (endpoint_id (l_source l)) v),
             (String.eqb (endpoint_id (l_target l)) v); simpl; lia.
Qed.

(** *** C2 *)

(** C2, as the specification words it, fails: a link from the indexed node
    [a] to the unknown id [ghost] is not dropped, it leaves an entry for
    [ghost] in the neighbour list of [a]. *)
Lemma C2_dangling_link_counterexample :
  let ns := [mkNode "a" "g" None None] in
  let l := mkLink (EId "a") (EId "ghost") "t" None None in
  ~ In (endpoint_id (l_target l)) (node_ids ns)
  /\ neighbors (getAdjacency ns [] false) "a" = Some []
  /\ neighbors (getAdjacency ns [l] false) "a" = Some [mkNb "ghost" (Fin 1)]
  /\ getAdjacency ns [l] false <> getAdjacency ns [] false.
Proof.
  simpl. repeat split; try reflexivity.
  - intros [H|[]]. discriminate.
  - discriminate.
Qed.

(** C2, amended: a link contributes to a neighbour list only through an end
    that is in the node set.  With both ends missing it changes nothing,
    wherever it stands in the link list; with the source present and the
    target missing it appends one entry, naming the missing id, to the list
    of the source and to no other list (and symmetrically). *)
Theorem C2_dangling_link_amended ns ls ls' l w :
  let s := endpoint_id (l_source l) in
  let t := endpoint_id (l_target l) in
  (~ In s (node_ids ns) -> ~ In t (node_ids ns) ->
   getAdjacency ns (ls ++ l :: ls') w = getAdjacency ns (ls ++ ls') w)
  /\ (In s (node_ids ns) -> ~ In t (node_ids ns) ->
      (exists old,
          neighbors (getAdjacency ns ls w) s = Some old
          /\ neighbors (getAdjacency ns (ls ++ [l]) w) s
             = Some (old ++ [mkNb t (link_weight w l)]))
      /\ forall v, v <> s ->
           neighbors (getAdjacency ns (ls ++ [l]) w) v
           = neighbors (getAdjacency ns ls w) v)
  /\ (~ In s (node_ids ns) -> In t (node_ids ns) ->
      (exists old,
          neighbors (getAdjacency ns ls w) t = Some old
          /\ neighbors (getAdjacency ns (ls ++ [l]) w) t
             = Some (old ++ [mkNb s (link_weight w l)]))
      /\ forall v, v <> t ->
           neighbors (getAdjacency ns (ls ++ [l]) w) v
           = neighbors (getAdjacency ns ls w) v).
Proof.
  intros s t. repeat split.
  - intros Hs Ht. unfold getAdjacency. rewrite !fold_left_app. simpl.
    f_equal. apply add_link_absent; fold s t;
      rewrite fold_add_link_keys, (init_keys_In (fun _ => [])); simpl; tauto.
  - destruct (getAdjacency_degree ns ls w s H) as [old [Hold _]].
    exists old. split; auto. unfold neighbors in *.
    rewrite getAdjacency_snoc, add_link_get, Hold. simpl. fold s t.
    rewrite String.eqb_refl.
    destruct (String.eqb t s) eqn:E.
    + apply String.eqb_eq in E. rewrite E in H0. contradiction.
    + now rewrite app_nil_r.
  - intros v Hv. unfold neighbors.
    rewrite getAdjacency_snoc, add_link_get. fold s t.
    destruct (map_get v (getAdjacency ns ls w)) as [old|] eqn:E; auto.
    simpl. assert (Hin : In v (node_ids ns)).
    { apply (getAdjacency_keys ns ls w). apply map_has_In.
      unfold map_has. now rewrite E. }
    destruct (String.eqb s v) eqn:E1.
    { apply String.eqb_eq in E1. congruence. }
    destruct (String.eqb t v) eqn:E2.
    { apply String.eqb_eq in E2. subst v. contradiction. }
    now rewrite !app_nil_r.
  - destruct (getAdjacency_degree ns ls w t H0) as [old [Hold _]].
    exists old. split; auto. unfold neighbors in *.
    rewrite getAdjacency_snoc, add_link_get, Hold. simpl. fold s t.
    rewrite String.eqb_refl.
    destruct (String.eqb s t) eqn:E.
    + apply String.eqb_eq in E. rewrite <- E in H0. contradiction.
    + reflexivity.
  - intros v Hv. unfold neighbors.
    rewrite getAdjacency_snoc, add_link_get. fold s t.
    destruct (map_get v (getAdjacency ns ls w)) as [old|] eqn:E; auto.
    simpl. assert (Hin : In v (node_ids ns)).
    { apply (getAdjacency_keys ns ls w). apply map_has_In.
      unfold map_has. now rewrite E. }
    destruct (String.eqb t v) eqn:E1.
    { apply String.eqb_eq in E1. congruence. }
    destruct (String.eqb s v) eqn:E2.
    { apply String.eqb_eq in E2. subst v. contradiction. }
    now rewrite !app_nil_r.
Qed.

Lemma C2_dangling_link_amended_witness :
  let ns := [mkNode "a" "g" None None; mkNode "b" "g" None None] in
  let l := mkLink (EId "a") (EId "ghost") "t" None None in
  (exists old,
      neighbors (getAdjacency ns [] false) "a" = Some old
      /\ neighbors (getAdjacency ns ([] ++ [l]) false) "a"
         = Some (old ++ [mkNb "ghost" (link_weight false l)]))
  /\ forall v, v <> "a"%string ->
       neighbors (getAdjacency ns ([] ++ [l]) false) v
       = neighbors (getAdjacency ns [] false) v.
Proof.
  intros ns l.
  refine (proj1 (proj2 (C2_dangling_link_amended ns [] [] l false)) _ _).
  - simpl. now left.
  - simpl. intros [H|[H|[]]]; discriminate.
Defined.

(** ** Sorting *)

Section SortFacts.

Context {A : Type}.
Variable after : A -> A -> bool.

Lemma sort_insert_perm x l : Permutation (sort_insert after x l) (x :: l).
Proof.
  induction l as [|y l IH]; simpl; auto.
  destruct (after x y); auto.
  rewrite IH. apply perm_swap.
Qed.

Lemma js_sort_perm l : Permutation (js_sort after l) l.
Proof.
  induction l as [|x l IH]; simpl; auto.
  rewrite sort_insert_perm. now constructor.
Qed.

Lemma js_sort_length l : List.length (js_sort after l) = List.length l.
Proof. apply Permutation_length, js_sort_perm. Qed.

Lemma js_sort_In x l : In x (js_sort after l) <-> In x l.
Proof.
  split; apply Permutation_in; [|symmetry]; apply js_sort_perm.
Qed.

(** On elements where the comparator is a total preorder, the outcome is
    sorted. *)
Variable P : A -> Prop.
Variable R : A -> A -> Prop.
Hypothesis R_before : forall x y, P x -> P y -> after x y = false -> R x y.
Hypothesis R_after : forall x y, P x -> P y -> after x y = true -> R y x.

Lemma sort_insert_Sorted x l :
  P x -> Forall P l -> Sorted R l -> Sorted R (sort_insert after x l).
Proof.
  intros Px Pl Hs. induction l as [|y l IH]; simpl.
  - repeat constructor.
  - inversion Pl as [|? ? Py Pl']. subst.
    inversion Hs as [|? ? Hs' Hd]. subst.
    destruct (after x y) eqn:E.
    + constructor; auto.
      destruct l as [|z l]; simpl.
      * constructor. auto.
      * destruct (after x z); constructor; auto.
        now inversion Hd.
    + constructor; auto.
Qed.

Lemma js_sort_Sorted l : Forall P l -> Sorted R (js_sort after l).
Proof.
  induction l as [|x l IH]; intros Pl; simpl.
  - constructor.
  - inversion Pl. subst. apply sort_insert_Sorted; auto.
    eapply Permutation_Forall; [symmetry; apply js_sort_perm|]. auto.
Qed.

End SortFacts.

(** *** C10 *)

(** C10: for a node [v] of the node set, a self-loop on [v] appends two
    entries to the neighbour list of [v]; the length of that list, which is
    the degree the centrality ranking reports, is the number of link ends
    on [v], so it counts a self-loop twice and a repeated link once per
    occurrence. *)
Theorem C10_degree_counts_link_ends ns ls w v :
  In v (node_ids ns) ->
  (forall l, endpoint_id (l_source l) = v -> endpoint_id (l_target l) = v ->
     exists old,
       neighbors (getAdjacency ns ls w) v = Some old
       /\ neighbors (getAdjacency ns (ls ++ [l]) w) v
          = Some (old ++ [mkNb v (link_weight w l); mkNb v (link_weight w l)]))
  /\ (exists nbs, neighbors (getAdjacency ns ls w) v = Some nbs
                  /\ List.length nbs = incidences v ls)
  /\ degree_of (getAdjacency ns ls false) v = of_nat (incidences v ls)
  /\ In (mkRanked v (of_nat (incidences v ls))) (degree_ranking ns ls).
Proof.
  intros Hin.
  assert (Hdeg : degree_of (getAdjacency ns ls false) v
                 = of_nat (incidences v ls)).
  { destruct (getAdjacency_degree ns ls false v Hin) as [old [Hold Hlen]].
    unfold degree_of. unfold neighbors in Hold. now rewrite Hold, Hlen. }
  repeat split; auto.
  - intros l Hs Ht.
    destruct (getAdjacency_degree ns ls w v Hin) as [old [Hold _]].
    exists old. split; auto. unfold neighbors in *.
    rewrite getAdjacency_snoc, add_link_get, Hold, Hs, Ht.
    now rewrite String.eqb_refl.
  - apply getAdjacency_degree; assumption.
  - unfold degree_ranking. apply js_sort_In. rewrite <- Hdeg.
    unfold node_ids in Hin. apply in_map_iff in Hin.
    destruct Hin as [n [Hn Hin]]. apply in_map_iff. exists n.
    now rewrite Hn.
Qed.

Lemma C10_degree_counts_link_ends_witness :
  let ns := [mkNode "a" "g" None None; mkNode "b" "g" None None] in
  let loop := mkLink (EId "a") (EId "a") "t" None None in
  let ab := mkLink (EId "a") (EId "b") "t" None None in
  degree_of (getAdjacency ns [loop; ab; ab] false) "a" = Fin 4
  /\ In (mkRanked "a" (Fin 4)) (degree_ranking ns [loop; ab; ab]).
Proof.
  intros ns loop ab.
  assert (Hin : In "a"%string (node_ids ns)) by (simpl; now left).
  destruct (C10_degree_counts_link_ends ns [loop; ab; ab] false "a" Hin)
    as [_ [_ [H1 H2]]].
  split; [exact H1 | exact H2].
Defined.

(** ** Hierarchical clustering: the scenario *)

(** *** C5 *)

(** C5, as the specification words it, fails on the merge distance: the
    two symptoms get the vectors [0, 1] and [1, 0] (the diagonal of the
    co-occurrence matrix is zero), so the only merge is recorded at
    [Math.sqrt(2)], not at 0. *)
Lemma C5_scenario_counterexample :
  node_vectors (nodes scenario_graph)
               (getAdjacency (nodes scenario_graph) (links scenario_graph) true)
  = [("胸闷"%string, [Fin 0; Fin 1]); ("胸痛"%string, [Fin 1; Fin 0])]
  /\ dendro_distance scenario_tree = Some (sqrt (Fin 2))
  /\ dendro_distance scenario_tree <> Some (Fin 0)
  /\ ltb (Fin 1) (sqrt (Fin 2)) = true.
Proof.
  repeat split; try (vm_compute; reflexivity).
  vm_compute. discriminate.
Qed.

(** C5, amended: on the scenario the co-occurrence graph has the two
    symptoms as nodes and one edge of weight 1 between them, and euclidean
    / complete clustering makes exactly one merge, whose root has the two
    symptom leaves as children and records the distance [Math.sqrt(2)],
    about 1.414. *)
Theorem C5_scenario_amended :
  node_ids (nodes scenario_graph) = ["胸闷"%string; "胸痛"%string]
  /\ links scenario_graph
     = [mkLink (EId "胸痛") (EId "胸闷") "co-occur" (Some (Fin 1)) None]
  /\ scenario_tree
     = mkDendro "" (Some [leaf "胸闷"; leaf "胸痛"]) (Some (sqrt (Fin 2))) None
  /\ internal_count scenario_tree = 1
  /\ dendro_children scenario_tree = [leaf "胸闷"; leaf "胸痛"]
  /\ ltb (Fin (1414 # 1000)) (sqrt (Fin 2)) = true
  /\ ltb (sqrt (Fin 2)) (Fin (1415 # 1000)) = true.
Proof.
  repeat split; vm_compute; reflexivity.
Qed.

(** ** Finite arithmetic *)

Lemma Qltb_lt a b : Qltb a b = true <-> (a < b)%Q.
Proof.
  unfold Qltb. rewrite Qlt_alt. destruct (a ?= b)%Q; split; congruence.
Qed.

Lemma Qltb_ge a b : Qltb a b = false <-> (b <= a)%Q.
Proof.
  split; intros H.
  - apply Qnot_lt_le. intros Hlt. apply Qltb_lt in Hlt. congruence.
  - destruct (Qltb a b) eqn:E; auto.
    apply Qltb_lt in E. exfalso. exact (Qle_not_lt _ _ H E).
Qed.

Lemma Qeqb_eq a b : Qeqb a b = true <-> (a == b)%Q.
Proof.
  unfold Qeqb. rewrite Qeq_alt. destruct (a ?= b)%Q; split; congruence.
Qed.

Lemma Qeqb_of_nat_pos n : 0 < n -> Qeqb (inject_Z (Z.of_nat n)) 0 = false.
Proof.
  intros H. destruct (Qeqb _ _) eqn:E; auto.
  apply Qeqb_eq in E. unfold Qeq in E. simpl in E. lia.
Qed.

Lemma finite_Fin q : finite (Fin q).
Proof. now exists q. Qed.

Lemma finite_add a b : finite a -> finite b -> finite (add a b).
Proof. intros [x ->] [y ->]. simpl. apply finite_Fin. Qed.

Lemma finite_sub a b : finite a -> finite b -> finite (sub a b).
Proof. intros [x ->] [y ->]. simpl. apply finite_Fin. Qed.

Lemma finite_abs a : finite a -> finite (abs a).
Proof. intros [x ->]. simpl. apply finite_Fin. Qed.

Lemma finite_max a b : finite a -> finite b -> finite (max a b).
Proof. intros [x ->] [y ->]. simpl. destruct (Qltb x y); apply finite_Fin. Qed.

Lemma finite_div_nat a n : finite a -> 0 < n -> finite (div a (of_nat n)).
Proof.
  intros [x ->] H. unfold div, of_nat. rewrite Qeqb_of_nat_pos by assumption.
  apply finite_Fin.
Qed.

Lemma finite_or_default l : finite_weight l -> finite (link_weight true l).
Proof.
  intros [H1 H2]. unfold link_weight, or_default.
  destruct (l_weight l) as [[| |q|]|]; simpl; try congruence;
    try apply finite_Fin.
  destruct (negb (Qeqb q 0)); apply finite_Fin.
Qed.

Lemma reduce2_inv (I : number -> Prop) f :
  (forall acc v b, I acc -> finite v -> finite b -> I (f acc v b)) ->
  forall va vb acc,
    I acc -> Forall finite va -> Forall finite vb ->
    List.length va = List.length vb ->
    I (reduce2 f acc va vb).
Proof.
  intros Hf va. induction va as [|v va IH]; intros vb acc Ha Hva Hvb Hlen; simpl; auto.
  destruct vb as [|b vb]; simpl in *; [discriminate|].
  inversion Hva. inversion Hvb. subst. apply IH; auto.
Qed.

Lemma calculateDistance_finite va vb type :
  Forall finite va -> Forall finite vb -> List.length va = List.length vb ->
  finite (calculateDistance va vb type).
Proof.
  intros Ha Hb Hlen. destruct type; simpl.
  - (* euclidean *)
    assert (H : exists q, reduce2 (fun sum v b => add sum (pow2 (sub v b)))
                                  (Fin 0) va vb = Fin q /\ (0 <= q)%Q).
    { apply (reduce2_inv (fun a => exists q, a = Fin q /\ (0 <= q)%Q)); auto.
      - intros acc v b [q [-> Hq]] [x ->] [y ->]. simpl.
        eexists. split; [reflexivity|].
        assert (0 <= (x + - y) * (x + - y))%Q.
        { destruct (Qlt_le_dec (x + - y) 0) as [Hn|Hp].
          - setoid_replace ((x + - y) * (x + - y))%Q
              with ((- (x + - y)) * (- (x + - y)))%Q by ring.
            apply Qmult_le_0_compat;
              (apply Qlt_le_weak; apply Qopp_lt_compat in Hn; exact Hn).
          - now apply Qmult_le_0_compat. }
        rewrite <- (Qplus_0_r 0). apply Qplus_le_compat; auto.
      - exists 0%Q. split; auto. apply Qle_refl. }
    destruct H as [q [-> Hq]]. simpl.
    apply Qltb_ge in Hq. rewrite Hq. apply finite_Fin.
  - (* chebyshev *)
    apply (reduce2_inv finite); auto using finite_Fin.
    intros. apply finite_max; auto. apply finite_abs, finite_sub; auto.
  - (* manhattan *)
    apply (reduce2_inv finite); auto using finite_Fin.
    intros. apply finite_add; auto. apply finite_abs, finite_sub; auto.
  - (* lance *)
    apply (reduce2_inv finite); auto using finite_Fin.
    intros acc v b [a ->] [x ->] [y ->]. simpl.
    destruct (Qeqb (Qabs x + Qabs y) 0) eqn:E; simpl; apply finite_Fin.
Qed.

(** ** Hierarchical clustering *)

Lemma init_get {V : Type} (f : string -> V) ns v :
  map_get v (fold_left (fun m n => map_set (id n) (f (id n)) m) ns [])
  = if in_dec string_dec v (node_ids ns) then Some (f v) else None.
Proof.
  assert (G : forall m,
             map_get v (fold_left (fun m n => map_set (id n) (f (id n)) m) ns m)
             = if in_dec string_dec v (node_ids ns) then Some (f v)
               else map_get v m).
  { induction ns as [|n ns IH]; intros m; simpl; auto.
    rewrite IH. destruct (in_dec string_dec v (node_ids ns)) as [Hin|Hout].
    - destruct (string_dec (id n) v); auto.
    - rewrite map_get_set. destruct (string_dec (id n) v) as [->|Hne].
      + now rewrite String.eqb_refl.
      + apply String.eqb_neq in Hne. now rewrite Hne. }
  apply G.
Qed.

Lemma getAdjacency_finite ns ls v l :
  Forall finite_weight ls ->
  map_get v (getAdjacency ns ls true) = Some l ->
  Forall (fun x => finite (nb_weight x)) l.
Proof.
  revert l. induction ls as [|e ls IH] using rev_ind; intros l Hfin.
  - unfold getAdjacency. simpl. rewrite getAdjacency_get_init.
    destruct (in_dec string_dec v (node_ids ns)); [|discriminate].
    intros H. inversion H. constructor.
  - apply Forall_app in Hfin. destruct Hfin as [Hls He].
    inversion He as [|? ? Hw _]. subst.
    rewrite getAdjacency_snoc, add_link_get.
    destruct (map_get v (getAdjacency ns ls true)) as [old|]; [|discriminate].
    simpl. intros H. inversion H. subst. clear H.
    pose proof (finite_or_default e Hw) as Hfw.
    repeat (apply Forall_app; split); auto.
    + destruct (String.eqb _ v); repeat constructor; auto.
    + destruct (String.eqb _ v); repeat constructor; auto.
Qed.

Lemma max_fold_finite xs a :
  finite a -> Forall finite xs -> finite (fold_left max xs a).
Proof.
  revert a. induction xs as [|x xs IH]; intros a Ha Hx; simpl; auto.
  inversion Hx. subst. apply IH; auto. now apply finite_max.
Qed.

Lemma max_list_finite xs :
  xs <> [] -> Forall finite xs -> finite (max_list xs).
Proof.
  destruct xs as [|x xs]; [congruence|]. intros _ H.
  inversion H as [|? ? [q ->] Hxs]. subst.
  unfold max_list. simpl. apply max_fold_finite; auto. apply finite_Fin.
Qed.

Lemma add_fold_finite xs a :
  finite a -> Forall finite xs -> finite (fold_left add xs a).
Proof.
  revert a. induction xs as [|x xs IH]; intros a Ha Hx; simpl; auto.
  inversion Hx. subst. apply IH; auto. now apply finite_add.
Qed.

Lemma index_pairs_In n i j : In (i, j) (index_pairs n) <-> i < j < n.
Proof.
  unfold index_pairs. rewrite in_flat_map. split.
  - intros [i' [Hi H]]. apply in_map_iff in H. destruct H as [j' [E Hj]].
    inversion E. subst. apply in_seq in Hi, Hj. lia.
  - intros H. exists i. split; [apply in_seq; lia|].
    apply in_map_iff. exists j. split; auto. apply in_seq. lia.
Qed.

Section ClosestPair.

Variable d : nat * nat -> number.

Let step (st : number * option (nat * nat)) (ij : nat * nat) :=
  if ltb (d ij) (fst st) then (d ij, Some ij) else st.

Lemma closest_fold_Some pairs st ij0 :
  snd st = Some ij0 ->
  exists ij, snd (fold_left step pairs st) = Some ij
             /\ (In ij pairs \/ ij = ij0).
Proof.
  revert st ij0. induction pairs as [|p pairs IH]; intros st ij0 H; simpl.
  - exists ij0. auto.
  - unfold step at 2. destruct (ltb (d p) (fst st)).
    + destruct (IH (d p, Some p) p eq_refl) as [ij [E Hin]].
      exists ij. split; auto. left. destruct Hin; subst; auto.
    + destruct (IH st ij0 H) as [ij [E Hin]].
      exists ij. split; auto. destruct Hin; auto.
Qed.

Lemma closest_fold_In pairs st ij :
  snd st = None ->
  snd (fold_left step pairs st) = Some ij -> In ij pairs.
Proof.
  revert st. induction pairs as [|p pairs IH]; intros st H; simpl.
  - congruence.
  - unfold step at 2. destruct (ltb (d p) (fst st)).
    + destruct (closest_fold_Some pairs (d p, Some p) p eq_refl) as [ij' [E Hin]].
      intros E'. rewrite E in E'. inversion E'. subst.
      destruct Hin; subst; auto.
    + intros E. right. eapply IH; eauto.
Qed.

Lemma closest_fold_finite pairs :
  pairs <> [] -> (forall ij, In ij pairs -> finite (d ij)) ->
  exists ij, snd (fold_left step pairs (PosInf, None)) = Some ij.
Proof.
  destruct pairs as [|p pairs]; [congruence|]. intros _ H. simpl.
  destruct (H p (or_introl eq_refl)) as [q Hq].
  unfold step at 2. rewrite Hq. simpl.
  destruct (closest_fold_Some pairs (Fin q, Some p) p eq_refl) as [ij [E _]].
  exists ij. exact E.
Qed.

End ClosestPair.

Definition keep_two (i j : nat) (p : nat * cluster) : bool :=
  negb (Nat.eqb (fst p) i) && negb (Nat.eqb (fst p) j).

Lemma keep_all (l : list cluster) s i j :
  i < s -> j < s ->
  List.map snd (filter (keep_two i j) (combine (seq s (List.length l)) l)) = l.
Proof.
  revert s. induction l as [|x l IH]; intros s Hi Hj; simpl; auto.
  unfold keep_two at 1. simpl.
  destruct (Nat.eqb_spec s i); [lia|]. destruct (Nat.eqb_spec s j); [lia|].
  simpl. f_equal. apply IH; lia.
Qed.

Lemma drop_one_perm (l : list cluster) s i j dflt :
  i < s -> s <= j -> j < s + List.length l ->
  Permutation l
    (nth (j - s) l dflt
     :: List.map snd (filter (keep_two i j) (combine (seq s (List.length l)) l))).
Proof.
  revert s. induction l as [|x l IH]; intros s Hi Hj Hlen; simpl in *; [lia|].
  unfold keep_two at 1. simpl.
  destruct (Nat.eqb_spec s i); [lia|]. simpl.
  destruct (Nat.eqb_spec s j) as [->|Hne]; simpl.
  - rewrite Nat.sub_diag. rewrite keep_all by lia. reflexivity.
  - replace (j - s) with (S (j - S s)) by lia. cbn [nth].
    eapply perm_trans; [apply perm_skip, (IH (S s)); lia|].
    apply perm_swap.
Qed.

Lemma remove_two_perm (l : list cluster) i j dflt :
  i < j -> j < List.length l ->
  Permutation l (nth i l dflt :: nth j l dflt :: remove_two i j l).
Proof.
  unfold remove_two. fold (keep_two i j).
  assert (G : forall s, s <= i -> i < j -> j < s + List.length l ->
              Permutation l
                (nth (i - s) l dflt :: nth (j - s) l dflt
                 :: List.map snd (filter (keep_two i j)
                                         (combine (seq s (List.length l)) l)))).
  { induction l as [|x l IH]; intros s Hs Hij Hlen; simpl in *; [lia|].
    unfold keep_two at 1. simpl.
    destruct (Nat.eqb_spec s i) as [->|Hne]; simpl.
    - rewrite Nat.sub_diag. constructor.
      replace (i - i) with 0 by lia.
      replace (j - i) with (S (j - S i)) by lia.
      apply drop_one_perm; lia.
    - destruct (Nat.eqb_spec s j); [lia|]. simpl.
      replace (i - s) with (S (i - S s)) by lia.
      replace (j - s) with (S (j - S s)) by lia.
      cbn [nth].
      eapply perm_trans; [apply perm_skip, (IH (S s)); lia|].
      eapply perm_trans; [apply perm_swap|].
      apply perm_skip, perm_swap. }
  intros Hij Hj. specialize (G 0). rewrite !Nat.sub_0_r in G. apply G; lia.
Qed.

Lemma initial_leaves ns vectors :
  all_leaves (initial_clusters ns vectors) = node_ids ns.
Proof.
  unfold all_leaves, initial_clusters.
  induction ns as [|n ns IH]; simpl; auto. now rewrite IH.
Qed.

Lemma initial_internal ns vectors :
  all_internal (initial_clusters ns vectors) = 0.
Proof.
  unfold all_internal, initial_clusters.
  induction ns as [|n ns IH]; simpl; auto.
Qed.

Lemma initial_length ns vectors :
  List.length (initial_clusters ns vectors) = List.length ns.
Proof. unfold initial_clusters. apply length_map. Qed.

Section HierarchicalFacts.

Variable ns : list GraphNode.
Variable ls : list GraphLink.
Variable distanceType : DistanceType.
Variable method : ClusterMethod.

Let adj := getAdjacency ns ls true.
Let vectors := node_vectors ns adj.
Let ids := node_ids ns.

(** The loop leaves within as many turns as there are clusters, whatever
    the input. *)
Lemma merge_step_length cs cs' :
  merge_step vectors distanceType method cs = Some cs' ->
  S (List.length cs') = List.length cs.
Proof.
  unfold merge_step. destruct (1 <? List.length cs); [|discriminate].
  destruct (closest_pair _ _ _ cs) as [minD [[i j]|]] eqn:E; [|discriminate].
  intros H. inversion H. subst. clear H.
  assert (Hij : In (i, j) (index_pairs (List.length cs))).
  { unfold closest_pair in E.
    apply (closest_fold_In
             (fun ij => getClusterDist vectors distanceType method
                          (nth (fst ij) cs empty_cluster)
                          (nth (snd ij) cs empty_cluster))
             _ (PosInf, None) (i, j) eq_refl).
    rewrite E. reflexivity. }
  apply index_pairs_In in Hij.
  pose proof (remove_two_perm cs i j empty_cluster (proj1 Hij) (proj2 Hij)) as P.
  apply Permutation_length in P. simpl in P.
  rewrite length_app. simpl. lia.
Qed.

Lemma agglomerate_done fuel cs :
  List.length cs <= fuel ->
  merge_step vectors distanceType method
             (agglomerate vectors distanceType method fuel cs) = None.
Proof.
  revert cs. induction fuel as [|fuel IH]; intros cs Hlen; simpl.
  - unfold merge_step. destruct cs; simpl in *; [reflexivity|lia].
  - destruct (merge_step vectors distanceType method cs) as [cs'|] eqn:E; auto.
    apply IH. apply merge_step_length in E. lia.
Qed.

Hypothesis Hfin : Forall finite_weight ls.
Hypothesis Hids : method = centroid -> Forall (fun x => x <> ""%string) ids.

Lemma vector_of_node v :
  In v ids -> fin_vec (List.length ids) (vector_of vectors v).
Proof.
  intros Hin. unfold vector_of, vectors, node_vectors.
  rewrite (init_get
             (fun x => List.map (fun i => if String.eqb i x then Fin 0
                                          else weight_to adj x i)
                                (List.map id ns))).
  destruct (in_dec string_dec v (node_ids ns)) as [_|Hout]; [|contradiction].
  split.
  - unfold ids, node_ids. now rewrite !length_map.
  - apply Forall_forall. intros x Hx. apply in_map_iff in Hx.
    destruct Hx as [i [<- _]].
    destruct (String.eqb i v); [apply finite_Fin|].
    unfold weight_to. destruct (map_get v adj) as [l|] eqn:E; [|apply finite_Fin].
    destruct (find _ l) as [nb|] eqn:F; [|apply finite_Fin].
    apply find_some in F. destruct F as [F _].
    pose proof (getAdjacency_finite ns ls v l Hfin E) as G.
    rewrite Forall_forall in G. now apply G.
Qed.

Lemma pairwise_dists_finite c1 c2 :
  good_cluster ids method c1 -> good_cluster ids method c2 ->
  pairwise_dists vectors distanceType c1 c2 <> []
  /\ Forall finite (pairwise_dists vectors distanceType c1 c2).
Proof.
  intros [N1 [M1 _]] [N2 [M2 _]]. unfold pairwise_dists. split.
  - destruct (members c1) as [|a m1]; [congruence|].
    destruct (members c2) as [|b m2]; [congruence|]. simpl. discriminate.
  - apply Forall_forall. intros x Hx. apply in_flat_map in Hx.
    destruct Hx as [a [Ha Hx]]. apply in_map_iff in Hx.
    destruct Hx as [b [<- Hb]].
    rewrite Forall_forall in M1, M2.
    destruct (vector_of_node a (M1 a Ha)) as [La Fa].
    destruct (vector_of_node b (M2 b Hb)) as [Lb Fb].
    apply calculateDistance_finite; auto. congruence.
Qed.

Lemma getClusterDist_finite c1 c2 :
  good_cluster ids method c1 -> good_cluster ids method c2 ->
  finite (getClusterDist vectors distanceType method c1 c2).
Proof.
  intros G1 G2. unfold getClusterDist.
  destruct (pairwise_dists_finite c1 c2 G1 G2) as [Hne Hf].
  destruct method eqn:Em.
  - now apply max_list_finite.
  - apply finite_div_nat.
    + apply add_fold_finite; auto. apply finite_Fin.
    + destruct (pairwise_dists _ _ c1 c2); [congruence|simpl; lia].
  - destruct G1 as [_ [_ V1]], G2 as [_ [_ V2]].
    destruct (V1 eq_refl) as [L1 F1]. destruct (V2 eq_refl) as [L2 F2].
    apply calculateDistance_finite; auto. congruence.
Qed.

Lemma member_sum_finite i ms acc :
  i < List.length ids -> Forall (fun m => In m ids) ms -> finite acc ->
  finite (fold_left (fun sum m => add sum (nth i (vector_of vectors m) NaN))
                    ms acc).
Proof.
  intros Hi. revert acc. induction ms as [|m ms IH]; intros acc Hin Ha; simpl; auto.
  inversion Hin as [|? ? Hm Hrest]. subst. apply IH; auto.
  apply finite_add; auto.
  destruct (vector_of_node m Hm) as [L F]. rewrite Forall_forall in F.
  apply F. apply nth_In. lia.
Qed.

Lemma centroid_of_fin ms :
  ms <> [] -> Forall (fun m => In m ids) ms -> method = centroid ->
  fin_vec (List.length ids) (centroid_of vectors ms).
Proof.
  intros Hne Hin Hm. destruct ms as [|m0 ms']; [congruence|].
  unfold centroid_of.
  apply Forall_cons_iff in Hin. destruct Hin as [Hm0 Hrest].
  pose proof (Hids Hm) as Hnz. rewrite Forall_forall in Hnz.
  destruct (String.eqb_spec m0 ""%string) as [E|_]; [now apply Hnz in Hm0|].
  destruct (vector_of_node m0 Hm0) as [L0 _]. split.
  - now rewrite length_map, length_seq.
  - apply Forall_forall. intros x Hx. apply in_map_iff in Hx.
    destruct Hx as [i [<- Hi]]. apply in_seq in Hi.
    apply finite_div_nat; [|simpl; lia].
    apply member_sum_finite.
    + lia.
    + constructor; auto.
    + apply finite_Fin.
Qed.

Lemma list_sum_perm (l l' : list nat) :
  Permutation l l' -> list_sum l = list_sum l'.
Proof. induction 1; simpl; lia. Qed.

Lemma closest_pair_found cs :
  Forall (good_cluster ids method) cs -> 2 <= List.length cs ->
  exists minD i j,
    closest_pair vectors distanceType method cs = (minD, Some (i, j))
    /\ i < j < List.length cs.
Proof.
  intros Hgood Hlen.
  set (d := fun ij : nat * nat =>
              getClusterDist vectors distanceType method
                             (nth (fst ij) cs empty_cluster)
                             (nth (snd ij) cs empty_cluster)).
  destruct (closest_fold_finite d (index_pairs (List.length cs))) as [[i j] E].
  - intros Hnil. assert (H : In (0, 1) (index_pairs (List.length cs)))
      by (apply index_pairs_In; lia).
    rewrite Hnil in H. destruct H.
  - intros [i j] Hij. apply index_pairs_In in Hij. unfold d. simpl.
    rewrite Forall_forall in Hgood.
    apply getClusterDist_finite; apply Hgood, nth_In; lia.
  - pose proof (closest_fold_In d _ (PosInf, None) (i, j) eq_refl E) as Hin.
    apply index_pairs_In in Hin.
    unfold closest_pair. fold d.
    destruct (fold_left _ _ _) as [m o]. simpl in E. subst o.
    exists m, i, j. auto.
Qed.

Lemma merge_step_inv cs :
  tree_inv ids method cs -> 2 <= List.length cs ->
  exists cs', merge_step vectors distanceType method cs = Some cs'
              /\ tree_inv ids method cs'.
Proof.
  intros [Hgood [Hleaves [Hint Hbin]]] Hlen.
  destruct (closest_pair_found cs Hgood Hlen) as [minD [i [j [E [Hi Hj]]]]].
  unfold merge_step. destruct (Nat.ltb_spec 1 (List.length cs)); [|lia].
  rewrite E. eexists. split; [reflexivity|].
  set (c1 := nth i cs empty_cluster). set (c2 := nth j cs empty_cluster).
  pose proof (remove_two_perm cs i j empty_cluster Hi Hj) as P.
  fold c1 c2 in P.
  assert (Hall : Forall (good_cluster ids method) (c1 :: c2 :: remove_two i j cs))
    by (eapply Permutation_Forall; eauto).
  assert (Hb : Forall (fun c => binary (tree c) = true)
                      (c1 :: c2 :: remove_two i j cs))
    by (eapply Permutation_Forall; eauto).
  apply Forall_cons_iff in Hall. destruct Hall as [G1 Hall].
  apply Forall_cons_iff in Hall. destruct Hall as [G2 Hrest].
  apply Forall_cons_iff in Hb. destruct Hb as [B1 Hb].
  apply Forall_cons_iff in Hb. destruct Hb as [B2 Bkeep].
  split; [|split; [|split]].
  - apply Forall_app. split; auto. constructor; [|constructor].
    destruct G1 as [N1 [M1 _]], G2 as [N2 [M2 _]].
    assert (Hne : members c1 ++ members c2 <> [])
      by (destruct (members c1); [congruence|discriminate]).
    unfold good_cluster, merge_clusters. simpl.
    split; [exact Hne|]. split; [apply Forall_app; auto|].
    intros Hm. apply centroid_of_fin; auto. apply Forall_app. auto.
  - rewrite <- Hleaves. unfold all_leaves.
    rewrite (Permutation_flat_map (fun c => leaf_names (tree c)) P).
    rewrite flat_map_app. simpl. rewrite !app_nil_r.
    rewrite (app_assoc (leaf_names (tree c1))).
    apply Permutation_app_comm.
  - rewrite <- Hint. unfold all_internal.
    rewrite (list_sum_perm _ _ (Permutation_map _ P)).
    rewrite (Permutation_length P).
    rewrite map_app, list_sum_app, length_app. simpl. lia.
  - apply Forall_app. split; auto. constructor; [|constructor].
    simpl. now rewrite B1, B2.
Qed.

Lemma agglomerate_inv fuel cs :
  tree_inv ids method cs -> 1 <= List.length cs <= S fuel ->
  tree_inv ids method (agglomerate vectors distanceType method fuel cs)
  /\ List.length (agglomerate vectors distanceType method fuel cs) = 1.
Proof.
  revert cs. induction fuel as [|fuel IH]; intros cs Hinv Hlen; simpl.
  - split; auto. lia.
  - destruct (Nat.eq_dec (List.length cs) 1) as [E1|Hne].
    + unfold merge_step. rewrite E1. simpl. auto.
    + destruct (merge_step_inv cs Hinv) as [cs' [E Hinv']]; [lia|].
      rewrite E. apply merge_step_length in E. apply IH; auto. lia.
Qed.

Lemma initial_inv :
  tree_inv ids method (initial_clusters ns vectors).
Proof.
  unfold tree_inv, initial_clusters. split; [|split; [|split]].
  - apply Forall_forall. intros c Hc. apply in_map_iff in Hc.
    destruct Hc as [n [<- Hn]].
    assert (Hin : In (id n) ids) by (unfold ids, node_ids; now apply in_map).
    unfold good_cluster. simpl. split; [discriminate|]. split.
    + constructor; auto.
    + intros _. now apply vector_of_node.
  - fold (initial_clusters ns vectors). now rewrite initial_leaves.
  - fold (initial_clusters ns vectors).
    rewrite initial_internal, initial_length. unfold ids, node_ids.
    now rewrite length_map.
  - apply Forall_forall. intros c Hc. apply in_map_iff in Hc.
    destruct Hc as [n [<- Hn]]. reflexivity.
Qed.

End HierarchicalFacts.

(** *** C6 *)

(** C6, as the specification words it, fails on the empty node set: the
    clusterer then returns the placeholder [{name: "Root", children: []}],
    an unflagged node with no child, which is neither "n - 1 internal
    nodes" nor binary. *)
Lemma C6_dendrogram_shape_counterexample :
  calculateHierarchicalTree [] [] euclidean complete
  = mkDendro "Root" (Some []) None None
  /\ internal_count (calculateHierarchicalTree [] [] euclidean complete) = 1
  /\ binary (calculateHierarchicalTree [] [] euclidean complete) = false.
Proof. repeat split. Qed.

(** C6, amended: for a non-empty node set whose link weights are finite
    (and, under centroid linkage, whose node ids are non-empty strings),
    the clustering loop runs to a single cluster and the dendrogram has the
    input node ids as its leaf names, one leaf per input node, exactly
    [n - 1] internal nodes, and two children under every internal node;
    distinct ids give distinct leaves. *)
Theorem C6_dendrogram_shape_amended ns ls distanceType method :
  ns <> [] ->
  Forall finite_weight ls ->
  (method = centroid -> Forall (fun x => x <> ""%string) (node_ids ns)) ->
  let t := calculateHierarchicalTree ns ls distanceType method in
  Permutation (leaf_names t) (node_ids ns)
  /\ List.length (leaf_names t) = List.length ns
  /\ internal_count t = List.length ns - 1
  /\ binary t = true
  /\ (NoDup (node_ids ns) -> NoDup (leaf_names t)).
Proof.
  intros Hne Hfin Hids t. unfold t, calculateHierarchicalTree.
  set (vectors := node_vectors ns (getAdjacency ns ls true)).
  pose proof (initial_inv ns ls method Hfin) as Hinit. fold vectors in Hinit.
  destruct (agglomerate_inv ns ls distanceType method Hfin Hids
              (List.length (initial_clusters ns vectors))
              (initial_clusters ns vectors) Hinit) as [Hinv Hone].
  { rewrite initial_length. destruct ns; [congruence|simpl; lia]. }
  fold vectors in Hinv, Hone.
  destruct (agglomerate vectors distanceType method _ _) as [|c [|c' cs]];
    try discriminate.
  destruct Hinv as [_ [Hleaves [Hint Hbin]]].
  unfold all_leaves in Hleaves. simpl in Hleaves. rewrite app_nil_r in Hleaves.
  unfold all_internal in Hint. simpl in Hint.
  unfold node_ids in Hint. rewrite length_map in Hint.
  inversion Hbin. subst.
  repeat split; auto.
  - apply Permutation_length in Hleaves. unfold node_ids in Hleaves.
    now rewrite length_map in Hleaves.
  - lia.
  - intros Hnd. eapply Permutation_NoDup; [symmetry; exact Hleaves|exact Hnd].
Qed.

Lemma C6_dendrogram_shape_amended_witness :
  let ns := [mkNode "a" "g" None None; mkNode "b" "g" None None;
             mkNode "c" "g" None None] in
  let ls := [mkLink (EId "a") (EId "b") "co-occur" (Some (Fin 2)) None] in
  let t := calculateHierarchicalTree ns ls manhattan centroid in
  Permutation (leaf_names t) (node_ids ns)
  /\ List.length (leaf_names t) = 3
  /\ internal_count t = 2
  /\ binary t = true
  /\ (NoDup (node_ids ns) -> NoDup (leaf_names t)).
Proof.
  intros ns ls.
  apply (C6_dendrogram_shape_amended ns ls manhattan centroid).
  - discriminate.
  - repeat constructor; discriminate.
  - intros _. repeat constructor; discriminate.
Defined.

(** ** Vector k-means: the update step *)

Lemma update_nth_length {A : Type} i (f : A -> A) xs :
  List.length (update_nth i f xs) = List.length xs.
Proof.
  revert i. induction xs as [|x xs IH]; intros [|i]; simpl; auto.
Qed.

Lemma nth_update_nth {A : Type} i j (f : A -> A) xs d :
  i < List.length xs ->
  nth j (update_nth i f xs) d = if i =? j then f (nth j xs d) else nth j xs d.
Proof.
  revert i j. induction xs as [|x xs IH]; intros [|i] [|j] H; simpl in *;
    try lia; auto.
  apply IH. lia.
Qed.

Lemma add_into_length row v :
  List.length row = List.length v -> List.length (add_into row v) = List.length v.
Proof.
  revert row. induction v as [|a v IH]; intros [|x row] H; simpl in *;
    try discriminate; auto.
Qed.

Lemma nth_add_into row v i :
  List.length row = List.length v -> i < List.length v ->
  nth i (add_into row v) NaN = add (nth i row NaN) (nth i v NaN).
Proof.
  revert row i. induction v as [|a v IH]; intros [|x row] [|i] H Hi;
    simpl in *; try discriminate; try lia; auto.
  apply IH; lia.
Qed.

Lemma assigned_cons c v vs a asg :
  assigned c (v :: vs) (a :: asg)
  = if a =? c then v :: assigned c vs asg else assigned c vs asg.
Proof. unfold assigned. simpl. now destruct (a =? c). Qed.

Lemma list_eq_nth (dim : nat) (l1 l2 : list number) :
  List.length l1 = dim -> List.length l2 = dim ->
  (forall i, i < dim -> nth i l1 NaN = nth i l2 NaN) -> l1 = l2.
Proof.
  revert l1 l2. induction dim as [|dim IH]; intros [|x l1] [|y l2] H1 H2 H;
    simpl in *; try discriminate; auto.
  f_equal.
  - apply (H 0). lia.
  - apply IH; auto. intros i Hi. apply (H (S i)). lia.
Qed.

Lemma nth_map_seq {A : Type} (f : nat -> A) dim i d :
  i < dim -> nth i (List.map f (seq 0 dim)) d = f i.
Proof.
  intros H. rewrite (nth_indep _ d (f 0)) by now rewrite length_map, length_seq.
  rewrite (map_nth f (seq 0 dim) 0 i). now rewrite seq_nth.
Qed.

Lemma nth_finish sums : forall counts c,
  List.length sums = List.length counts -> c < List.length sums ->
  nth c (finish_centroids sums counts) []
  = if 0 <? nth c counts 0
    then List.map (fun x => div x (of_nat (nth c counts 0))) (nth c sums [])
    else nth c sums [].
Proof.
  unfold finish_centroids.
  induction sums as [|row sums IH]; intros [|n counts] [|c] Hl Hc;
    simpl in *; try lia; auto.
  apply IH; lia.
Qed.

Section UpdateStep.

Variables k dim : nat.

Lemma accumulate_spec vs : forall asg sums counts,
  List.length vs = List.length asg ->
  Forall (fun v => List.length v = dim) vs ->
  Forall (fun a => a < k) asg ->
  List.length sums = k -> List.length counts = k ->
  Forall (fun row => List.length row = dim) sums ->
  exists sums' counts',
    accumulate vs asg (sums, counts) = Some (sums', counts')
    /\ List.length sums' = k /\ List.length counts' = k
    /\ forall c, c < k ->
         nth c counts' 0 = nth c counts 0 + List.length (assigned c vs asg)
         /\ List.length (nth c sums' []) = dim
         /\ forall i, i < dim ->
              nth i (nth c sums' []) NaN
              = column_sum i (assigned c vs asg) (nth i (nth c sums []) NaN).
Proof.
  induction vs as [|v vs IH]; intros [|a asg] sums counts Hlen Hv Ha Hs Hc Hrow;
    simpl in Hlen; try discriminate.
  - exists sums, counts. simpl. split; auto. split; auto. split; auto.
    intros c Hck. unfold assigned. simpl. split; [lia|]. split; auto.
    rewrite Forall_forall in Hrow. apply Hrow, nth_In. lia.
  - inversion Hv as [|? ? Hv0 Hv']. inversion Ha as [|? ? Ha0 Ha']. subst.
    simpl. destruct (Nat.ltb_spec a (List.length sums)); [|lia].
    assert (Hrow' : Forall (fun row => List.length row = List.length v)
                           (update_nth a (fun row => add_into row v) sums)).
    { apply Forall_forall. intros row Hin.
      destruct (In_nth _ _ [] Hin) as [j [Hj E]].
      rewrite update_nth_length in Hj.
      rewrite nth_update_nth in E by assumption.
      rewrite Forall_forall in Hrow.
      assert (Hl : List.length (nth j sums []) = List.length v)
        by (apply Hrow, nth_In; assumption).
      destruct (a =? j); subst row; auto. now apply add_into_length. }
    destruct (IH asg (update_nth a (fun row => add_into row v) sums)
                 (update_nth a S counts)) as [sums' [counts' [E [L1 [L2 Hspec]]]]];
      auto; try (rewrite update_nth_length; auto).
    exists sums', counts'. split; auto. split; auto. split; auto.
    intros c Hck. destruct (Hspec c Hck) as [H1 [H2 H3]].
    rewrite assigned_cons.
    rewrite nth_update_nth in H1 by lia.
    split; [|split; auto].
    + destruct (a =? c); simpl; lia.
    + intros i Hi. rewrite (H3 i Hi).
      rewrite nth_update_nth by lia.
      destruct (Nat.eqb_spec a c) as [->|Hne]; auto.
      unfold column_sum. simpl. f_equal.
      rewrite Forall_forall in Hrow.
      apply nth_add_into; auto. apply Hrow, nth_In. lia.
Qed.

Lemma column_sum_nil i start : column_sum i [] start = start.
Proof. reflexivity. Qed.

(** What the update step computes, cluster by cluster. *)
Lemma update_centroids_spec vs asg :
  List.length vs = List.length asg ->
  Forall (fun v => List.length v = dim) vs ->
  Forall (fun a => a < k) asg ->
  exists cs,
    update_centroids k dim vs asg = Some cs
    /\ List.length cs = k
    /\ forall c, c < k ->
         nth c cs []
         = match assigned c vs asg with
           | [] => repeat (Fin 0) dim
           | _ :: _ => mean_vector dim (assigned c vs asg)
           end.
Proof.
  intros Hlen Hv Ha. unfold update_centroids.
  destruct (accumulate_spec vs asg (repeat (repeat (Fin 0) dim) k) (repeat 0 k))
    as [sums [counts [E [L1 [L2 Hspec]]]]]; auto using repeat_length.
  { apply Forall_forall. intros row Hin. apply repeat_spec in Hin. subst.
    apply repeat_length. }
  rewrite E. eexists. split; [reflexivity|]. split.
  { unfold finish_centroids. rewrite length_map, length_combine. lia. }
  intros c Hc. destruct (Hspec c Hc) as [H1 [H2 H3]].
  rewrite nth_finish by lia.
  rewrite H1, nth_repeat. simpl.
  assert (Hrow : nth c sums []
                 = List.map (fun i => column_sum i (assigned c vs asg) (Fin 0))
                            (seq 0 dim)).
  { apply (list_eq_nth dim); auto.
    - now rewrite length_map, length_seq.
    - intros i Hi. rewrite H3 by assumption.
      rewrite nth_map_seq by assumption.
      f_equal. rewrite (nth_repeat_lt (repeat (Fin 0) dim)) by assumption.
      now apply nth_repeat_lt. }
  destruct (assigned c vs asg) as [|m ms] eqn:Em; simpl.
  - rewrite Hrow. clear. induction dim as [|d IH]; simpl; auto.
    rewrite <- seq_shift, map_map. simpl. f_equal. exact IH.
  - rewrite Hrow, map_map. reflexivity.
Qed.

End UpdateStep.

Lemma nearest_fold_index v (l : list (nat * list number)) st :
  let r := fold_left (fun st ci_c =>
                        let d := distance v (snd ci_c) in
                        if ltb d (fst st) then (d, fst ci_c) else st) l st in
  snd r = snd st \/ In (snd r) (List.map fst l).
Proof.
  revert st. induction l as [|[i c] l IH]; intros st; simpl; auto.
  destruct (ltb (distance v c) (fst st)).
  - destruct (IH (distance v c, i)) as [H|H]; simpl in *; auto.
  - destruct (IH st) as [H|H]; simpl in *; auto.
Qed.

Lemma nearest_lt centroids v :
  centroids <> [] -> nearest centroids v < List.length centroids.
Proof.
  intros Hne. unfold nearest.
  destruct (nearest_fold_index v
              (combine (seq 0 (List.length centroids)) centroids) (PosInf, 0))
    as [H|H]; simpl in H.
  - rewrite H. destruct centroids; [congruence|simpl; lia].
  - apply in_map_iff in H. destruct H as [[i c] [E H]]. simpl in E. subst i.
    apply in_combine_l, in_seq in H. lia.
Qed.

Lemma nearest_nil v : nearest [] v = 0.
Proof. reflexivity. Qed.

Lemma assign_bound k centroids vectors :
  1 <= k -> List.length centroids <= k ->
  Forall (fun a => a < k) (assign centroids vectors).
Proof.
  intros Hk Hlen. apply Forall_forall. intros a Ha.
  unfold assign in Ha. apply in_map_iff in Ha. destruct Ha as [v [<- _]].
  destruct centroids as [|c cs].
  - rewrite nearest_nil. lia.
  - pose proof (nearest_lt (c :: cs) v). simpl in *.
    assert (c :: cs <> []) by discriminate. intuition lia.
Qed.

(** *** C3 *)

(** C3, as the specification words it, fails on its second half.  With the
    two equal vectors [[1]] and [[1]] and [k = 2], both vectors go to
    centroid 0, and centroid 1, which was [[1]] and has no member, comes
    out of the update step as [[0]]. *)
Lemma C3_empty_centroid_counterexample :
  let es := [mkEntity "h" "h1"; mkEntity "h" "h2"; mkEntity "f" "f1"] in
  let rs := [mkRelation "f1" "contains" "h1"; mkRelation "f1" "contains" "h2"] in
  let vectors := kmeans_vectors es rs "h" in
  let centroids := initial_centroids 2 vectors in
  vectors = [[Fin 1]; [Fin 1]]
  /\ centroids = [[Fin 1]; [Fin 1]]
  /\ assign centroids vectors = [0; 0]
  /\ assigned 1 vectors (assign centroids vectors) = []
  /\ exists centroids',
       kmeans_iter 2 1 vectors (centroids, [0; 0]) = Some (centroids', [0; 0])
       /\ nth 1 centroids [] = [Fin 1]
       /\ nth 1 centroids' [] = [Fin 0]
       /\ nth 1 centroids' [] <> nth 1 centroids [].
Proof.
  repeat split; try (vm_compute; reflexivity).
  eexists. split; [vm_compute; reflexivity|].
  repeat split. simpl. discriminate.
Qed.

(** C3, amended: in each turn of the k-means loop the update step returns
    [k] centroids; a centroid with at least one assigned vector is the
    elementwise mean of its assigned vectors, and a centroid with no
    assigned vector becomes the all-zero vector, whatever it was before. *)
Theorem C3_update_step_amended k dim vectors centroids assignments0 :
  1 <= k ->
  List.length centroids <= k ->
  Forall (fun v => List.length v = dim) vectors ->
  exists centroids',
    kmeans_iter k dim vectors (centroids, assignments0)
    = Some (centroids', assign centroids vectors)
    /\ List.length centroids' = k
    /\ forall c, c < k ->
         let mem := assigned c vectors (assign centroids vectors) in
         (mem <> [] -> nth c centroids' [] = mean_vector dim mem)
         /\ (mem = [] -> nth c centroids' [] = repeat (Fin 0) dim).
Proof.
  intros Hk Hlen Hdim.
  destruct (update_centroids_spec k dim vectors (assign centroids vectors))
    as [cs [E [L Hspec]]]; auto.
  - unfold assign. now rewrite length_map.
  - now apply assign_bound.
  - exists cs. unfold kmeans_iter. simpl. rewrite E.
    split; [reflexivity|]. split; [exact L|].
    intros c Hc. specialize (Hspec c Hc). cbv zeta.
    destruct (assigned c vectors (assign centroids vectors));
      split; intros H; congruence.
Qed.

Lemma C3_update_step_amended_witness :
  exists centroids',
    kmeans_iter 2 1 [[Fin 1]; [Fin 0]; [Fin 1]] ([[Fin 1]; [Fin 0]], [0; 0; 0])
    = Some (centroids', assign [[Fin 1]; [Fin 0]] [[Fin 1]; [Fin 0]; [Fin 1]])
    /\ List.length centroids' = 2
    /\ forall c, c < 2 ->
         let mem := assigned c [[Fin 1]; [Fin 0]; [Fin 1]]
                             (assign [[Fin 1]; [Fin 0]] [[Fin 1]; [Fin 0]; [Fin 1]]) in
         (mem <> [] -> nth c centroids' [] = mean_vector 1 mem)
         /\ (mem = [] -> nth c centroids' [] = repeat (Fin 0) 1).
Proof.
  apply (C3_update_step_amended 2 1 [[Fin 1]; [Fin 0]; [Fin 1]]
                                [[Fin 1]; [Fin 0]] [0; 0; 0]).
  - lia.
  - simpl. lia.
  - repeat constructor.
Defined.

(** ** Vector k-means: the assignment step *)

Lemma Qsqrt_zero s : (s == 0)%Q -> (Qsqrt s == 0)%Q.
Proof.
  intros H. unfold Qsqrt. rewrite (Qred_complete _ _ H). reflexivity.
Qed.

Lemma Qsqrt_ge_1 s : (1 <= s)%Q -> (1 <= Qsqrt s)%Q.
Proof.
  intros H. rewrite <- (Qred_correct s) in H. unfold Qsqrt.
  destruct (Qred s) as [a b]. unfold Qle in *. cbn [Qnum Qden] in *.
  rewrite Z.mul_1_l in *. rewrite Z.mul_1_r in H.
  rewrite Pos2Z.inj_mul.
  change (Z.pos (2 ^ 52)) with (2 ^ 52)%Z.
  rewrite Z.mul_1_r.
  rewrite <- (Z.sqrt_square (Z.pos b * 2 ^ 52)) at 1 by lia.
  apply Z.sqrt_le_mono.
  replace (2 ^ 104)%Z with (2 ^ 52 * 2 ^ 52)%Z by reflexivity.
  nia.
Qed.

Lemma ltb_irrefl a : ltb a a = false.
Proof.
  destruct a; simpl; auto. apply Qltb_ge, Qle_refl.
Qed.

Lemma ltb_Fin x y : ltb (Fin x) (Fin y) = Qltb x y.
Proof. reflexivity. Qed.

Lemma ltb_le_lt a b c :
  finite a -> finite b -> finite c ->
  ltb a b = false -> ltb c b = true -> ltb a c = false /\ ltb c a = true.
Proof.
  intros [x ->] [y ->] [z ->]. rewrite !ltb_Fin.
  rewrite !Qltb_ge, !Qltb_lt. intros H1 H2. split.
  - apply Qlt_le_weak. eapply Qlt_le_trans; eauto.
  - eapply Qlt_le_trans; eauto.
Qed.

Lemma combine_seq_snoc {A : Type} (l : list A) (x : A) s :
  combine (seq s (List.length (l ++ [x]))) (l ++ [x])
  = combine (seq s (List.length l)) l ++ [(s + List.length l, x)].
Proof.
  revert s. induction l as [|y l IH]; intros s; simpl.
  - now rewrite Nat.add_0_r.
  - rewrite IH. simpl. now rewrite Nat.add_succ_r.
Qed.

Section Nearest.

Variable v : list number.

Let step (st : number * nat) (ci_c : nat * list number) :=
  let d := distance v (snd ci_c) in
  if ltb d (fst st) then (d, fst ci_c) else st.

Let scan (cs : list (list number)) :=
  fold_left step (combine (seq 0 (List.length cs)) cs) (PosInf, 0).

Lemma scan_snoc cs c :
  scan (cs ++ [c])
  = if ltb (distance v c) (fst (scan cs))
    then (distance v c, List.length cs) else scan cs.
Proof.
  unfold scan. now rewrite combine_seq_snoc, fold_left_app.
Qed.

(** The scan keeps the first centroid at minimal distance. *)
Lemma scan_spec cs :
  Forall (fun c => finite (distance v c)) cs ->
  (cs = [] -> scan cs = (PosInf, 0))
  /\ (cs <> [] ->
      snd (scan cs) < List.length cs
      /\ fst (scan cs) = distance v (nth (snd (scan cs)) cs [])
      /\ (forall l, l < List.length cs ->
            ltb (distance v (nth l cs [])) (fst (scan cs)) = false)
      /\ (forall l, l < snd (scan cs) ->
            ltb (fst (scan cs)) (distance v (nth l cs [])) = true)).
Proof.
  induction cs as [|c cs IH] using rev_ind; intros Hfin.
  - split; [reflexivity|congruence].
  - apply Forall_app in Hfin. destruct Hfin as [Hcs Hc].
    inversion Hc as [|? ? Hdc _]. subst.
    split; [intros H; destruct cs; discriminate|]. intros _.
    destruct (IH Hcs) as [Hnil Hcons].
    rewrite scan_snoc, length_app. simpl List.length.
    destruct cs as [|c0 cs0] eqn:Ecs.
    + rewrite (Hnil eq_refl). destruct Hdc as [q Hq]. rewrite Hq. simpl.
      split; [lia|]. split; [now rewrite Hq|]. split.
      * intros l Hl. replace l with 0 by lia. rewrite Hq. apply ltb_irrefl.
      * intros l Hl. lia.
    + rewrite <- Ecs in *. assert (Hne : cs <> []) by (rewrite Ecs; discriminate).
      destruct (Hcons Hne) as [Hidx [Hfst [Hmin Hfirst]]].
      assert (Hfm : finite (fst (scan cs))).
      { rewrite Hfst. rewrite Forall_forall in Hcs. apply Hcs, nth_In, Hidx. }
      assert (Hall : forall l, l < List.length cs ->
                       finite (distance v (nth l cs []))).
      { intros l Hl. rewrite Forall_forall in Hcs. apply Hcs, nth_In, Hl. }
      destruct (ltb (distance v c) (fst (scan cs))) eqn:E; simpl.
      * split; [lia|]. split; [now rewrite nth_middle|]. split.
        -- intros l Hl. destruct (Nat.eq_dec l (List.length cs)) as [->|Hne'].
           ++ rewrite nth_middle. apply ltb_irrefl.
           ++ rewrite app_nth1 by lia.
              apply (ltb_le_lt _ (fst (scan cs)) _); auto.
              ** apply Hall. lia.
              ** apply Hmin. lia.
        -- intros l Hl. rewrite app_nth1 by lia.
           apply (ltb_le_lt _ (fst (scan cs)) _); auto.
      * split; [lia|]. split; [rewrite app_nth1 by lia; auto|]. split.
        -- intros l Hl. destruct (Nat.eq_dec l (List.length cs)) as [->|Hne'].
           ++ now rewrite nth_middle.
           ++ rewrite app_nth1 by lia. apply Hmin. lia.
        -- intros l Hl. rewrite app_nth1 by lia. now apply Hfirst.
Qed.

Lemma nearest_scan cs : nearest cs v = snd (scan cs).
Proof. reflexivity. Qed.

End Nearest.

(** ** Vector k-means: fewer items than clusters *)

Lemma bit_near x : bit x -> near_bit x.
Proof.
  intros [->| ->]; eexists; split; try reflexivity.
  - left. reflexivity.
  - right. reflexivity.
Qed.

Lemma veq_refl_bits v : Forall bit v -> veq v v.
Proof.
  induction 1 as [|x v Hx Hv IH]; constructor; auto.
  destruct Hx as [->| ->]; eexists _, _; repeat split; reflexivity.
Qed.

Lemma veq_length c v : veq c v -> List.length c = List.length v.
Proof. induction 1; simpl; auto. Qed.

Lemma veq_bits_eq c v1 v2 :
  Forall bit v1 -> Forall bit v2 -> veq c v1 -> veq c v2 -> v1 = v2.
Proof.
  intros H1 H2 E1. revert v2 H2.
  induction E1 as [|y x c v1 Hyx E1 IH]; intros v2 H2 E2.
  - now inversion E2.
  - inversion E2 as [|? x2 ? v2' Hyx2 E2']. subst.
    inversion H1 as [|? ? Hx H1']. inversion H2 as [|? ? Hx2 H2']. subst.
    f_equal; [|now apply IH].
    destruct Hyx as [p [q [-> [-> Hpq]]]].
    destruct Hyx2 as [p' [q' [Ep [-> Hpq']]]]. inversion Ep. subst p'.
    destruct Hx as [Hx|Hx], Hx2 as [Hx2|Hx2];
      inversion Hx; inversion Hx2; subst; auto;
      rewrite Hpq in Hpq'; discriminate.
Qed.

Lemma sq_step a x q :
  add (Fin a) (pow2 (sub (Fin x) (Fin q)))
  = Fin (a + (x + - q) * (x + - q)).
Proof. reflexivity. Qed.

Lemma sq_bits v : forall c a,
  Forall bit v -> Forall near_bit c -> List.length v = List.length c ->
  (0 <= a)%Q ->
  exists s,
    reduce2 (fun sum x y => add sum (pow2 (sub x y))) (Fin a) v c = Fin s
    /\ ((s == a)%Q /\ veq c v \/ (a + 1 <= s)%Q /\ ~ veq c v).
Proof.
  induction v as [|x v IH]; intros [|y c] a Hv Hc Hlen Ha;
    simpl in Hlen; try discriminate.
  - exists a. split; auto. left. split; [reflexivity|constructor].
  - inversion Hv as [|? ? Hx Hv']. inversion Hc as [|? ? Hy Hc']. subst.
    destruct Hy as [q [-> Hq]].
    assert (Hx' : exists b, x = Fin b /\ (b = 0 \/ b = 1)%Q).
    { destruct Hx as [->| ->]; eexists; split; eauto. }
    destruct Hx' as [b [-> Hb]].
    cbn [reduce2 hd tl]. rewrite sq_step.
    set (a' := (a + (b + - q) * (b + - q))%Q).
    assert (Hcase : ((a' == a)%Q /\ (q == b)%Q)
                    \/ ((a' == a + 1)%Q /\ ~ (q == b)%Q)).
    { unfold a'. destruct Hb as [-> | ->], Hq as [Hq|Hq].
      - left. split; [rewrite Hq; ring|exact Hq].
      - right. split; [rewrite Hq; ring|rewrite Hq; discriminate].
      - right. split; [rewrite Hq; ring|rewrite Hq; discriminate].
      - left. split; [rewrite Hq; ring|exact Hq]. }
    assert (Ha' : (0 <= a')%Q).
    { destruct Hcase as [[E _]|[E _]]; rewrite E; auto.
      rewrite <- (Qplus_0_r 0). apply Qplus_le_compat; auto. discriminate. }
    destruct (IH c a' Hv' Hc' (eq_add_S _ _ Hlen) Ha') as [s [Es Hs]].
    exists s. split; auto.
    destruct Hcase as [[E Hqb]|[E Hqb]].
    + destruct Hs as [[Hsa Hveq]|[Hsa Hveq]].
      * left. split; [now rewrite Hsa|].
        constructor; auto. exists q, b. auto.
      * right. split; [now rewrite <- E|].
        intros H. inversion H. auto.
    + right. split.
      * destruct Hs as [[Hsa _]|[Hsa _]].
        -- rewrite Hsa, E. apply Qle_refl.
        -- apply Qle_trans with (a' + 1)%Q; [|exact Hsa].
           rewrite E. rewrite <- (Qplus_0_r (a + 1)) at 1.
           apply Qplus_le_compat; [apply Qle_refl|discriminate].
      * intros H. inversion H as [|? ? ? ? Hyx]. subst.
        destruct Hyx as [p [r [Ep [Er Hpr]]]].
        inversion Ep. inversion Er. subst. auto.
Qed.

Lemma distance_bits v c :
  Forall bit v -> Forall near_bit c -> List.length v = List.length c ->
  exists s,
    distance v c = Fin (Qsqrt s)
    /\ ((s == 0)%Q /\ veq c v \/ (1 <= s)%Q /\ ~ veq c v).
Proof.
  intros Hv Hc Hlen.
  destruct (sq_bits v c 0 Hv Hc Hlen (Qle_refl 0)) as [s [E Hs]].
  exists s. unfold distance. rewrite E. simpl.
  assert (H0 : (0 <= s)%Q).
  { destruct Hs as [[H _]|[H _]].
    - rewrite H. apply Qle_refl.
    - eapply Qle_trans; [|exact H]. discriminate. }
  apply Qltb_ge in H0. rewrite H0. split; auto.
Qed.

Lemma nearest_settled v cs j :
  Forall bit v ->
  Forall (fun c => List.length c = List.length v /\ Forall near_bit c) cs ->
  j < List.length cs -> veq (nth j cs []) v ->
  nearest cs v <= j /\ veq (nth (nearest cs v) cs []) v.
Proof.
  intros Hv Hcs Hj Hveq.
  assert (Hd : forall c, In c cs ->
                 exists s, distance v c = Fin (Qsqrt s)
                           /\ ((s == 0)%Q /\ veq c v \/ (1 <= s)%Q /\ ~ veq c v)).
  { intros c Hc. rewrite Forall_forall in Hcs. destruct (Hcs c Hc) as [L N].
    apply distance_bits; auto. }
  assert (Hfin : Forall (fun c => finite (distance v c)) cs).
  { apply Forall_forall. intros c Hc. destruct (Hd c Hc) as [s [E _]].
    rewrite E. apply finite_Fin. }
  destruct (scan_spec v cs Hfin) as [_ Hcons].
  destruct Hcons as [Hidx [Hfst [Hmin Hfirst]]].
  { intros ->. simpl in Hj. lia. }
  rewrite nearest_scan.
  set (j' := snd (fold_left _ _ _)) in *.
  destruct (Hd (nth j cs []) (nth_In _ _ Hj)) as [sj [Ej Hsj]].
  destruct Hsj as [[Hsj0 _]|[_ Hn]]; [|contradiction].
  destruct (Hd (nth j' cs []) (nth_In _ _ Hidx)) as [s' [E' Hs']].
  pose proof (Qsqrt_zero sj Hsj0) as Zj.
  split.
  - destruct (le_lt_dec j' j) as [Hle|Hlt]; auto.
    specialize (Hfirst j Hlt). rewrite Hfst, E', Ej, ltb_Fin in Hfirst.
    apply Qltb_lt in Hfirst.
    destruct Hs' as [[Hs0 _]|[Hs1 _]].
    + rewrite (Qsqrt_zero s' Hs0), Zj in Hfirst. discriminate.
    + apply Qsqrt_ge_1 in Hs1. rewrite Zj in Hfirst.
      exfalso. apply (Qlt_irrefl 0). eapply Qlt_trans; [|exact Hfirst].
      eapply Qlt_le_trans; [|exact Hs1]. reflexivity.
  - destruct Hs' as [[_ Hv']|[Hs1 _]]; auto.
    specialize (Hmin j Hj). rewrite Hfst, E', Ej, ltb_Fin in Hmin.
    apply Qltb_ge in Hmin. apply Qsqrt_ge_1 in Hs1. rewrite Zj in Hmin.
    exfalso. apply (Qlt_irrefl 0). eapply Qlt_le_trans; [|exact Hmin].
    eapply Qlt_le_trans; [|exact Hs1]. reflexivity.
Qed.

Lemma assigned_assign c cs vs :
  assigned c vs (assign cs vs) = filter (fun v => nearest cs v =? c) vs.
Proof.
  unfold assign. induction vs as [|v vs IH]; simpl; auto.
  rewrite assigned_cons, IH. reflexivity.
Qed.

Lemma veq_near c m : veq c m -> Forall bit m -> Forall near_bit c.
Proof.
  induction 1 as [|y x c m Hyx E IH]; intros Hm; constructor.
  - inversion Hm as [|? ? Hx _]. subst.
    destruct Hyx as [p [q [-> [-> Hpq]]]]. exists p. split; auto.
    destruct Hx as [Hx|Hx]; inversion Hx; subst; auto.
  - inversion Hm. auto.
Qed.

Lemma Forall2_map_seq {A : Type} (R : A -> number -> Prop) (m : list number) :
  forall f : nat -> A,
    (forall i, i < List.length m -> R (f i) (nth i m NaN)) ->
    Forall2 R (List.map f (seq 0 (List.length m))) m.
Proof.
  induction m as [|x m IH]; intros f H; simpl; constructor.
  - apply (H 0). simpl. lia.
  - rewrite <- seq_shift, map_map. apply IH.
    intros i Hi. apply (H (S i)). simpl. lia.
Qed.

Lemma column_sum_same i m b ms : forall a,
  Forall (fun x => x = m) ms -> nth i m NaN = Fin b ->
  exists s, column_sum i ms (Fin a) = Fin s
            /\ (s == a + inject_Z (Z.of_nat (List.length ms)) * b)%Q.
Proof.
  induction ms as [|x ms IH]; intros a Hall Hb.
  - exists a. split; auto. simpl. ring.
  - inversion Hall. subst. unfold column_sum. simpl fold_left. rewrite Hb.
    simpl add. destruct (IH (a + b)%Q) as [s [E Hs]]; auto.
    exists s. split; auto. rewrite Hs.
    change (List.length (m :: ms)) with (S (List.length ms)).
    rewrite Nat2Z.inj_succ. unfold Z.succ. rewrite inject_Z_plus. ring.
Qed.

Lemma mean_same dim m ms :
  List.length m = dim -> Forall bit m -> Forall (fun x => x = m) ms ->
  veq (mean_vector dim (m :: ms)) m.
Proof.
  intros L Hm Hall. unfold mean_vector, veq. rewrite <- L.
  apply Forall2_map_seq. intros i Hi.
  assert (Hb : bit (nth i m NaN)).
  { rewrite Forall_forall in Hm. apply Hm, nth_In, Hi. }
  assert (Hb' : exists b, nth i m NaN = Fin b).
  { destruct Hb as [->| ->]; eauto. }
  destruct Hb' as [b Eb].
  destruct (column_sum_same i m b (m :: ms) 0) as [s [E Hs]]; auto.
  rewrite E, Eb. unfold div, of_nat.
  rewrite Qeqb_of_nat_pos by (simpl; lia).
  eexists _, b. split; [reflexivity|]. split; [reflexivity|].
  rewrite Hs.
  assert (Hnz : ~ (inject_Z (Z.of_nat (List.length (m :: ms))) == 0)%Q).
  { intros H. apply Qeqb_eq in H.
    rewrite Qeqb_of_nat_pos in H by (simpl; lia). discriminate. }
  field. exact Hnz.
Qed.

Section FewItems.

Variables k dim : nat.
Variable vs : list (list number).

Hypothesis Hk : 1 <= k.
Hypothesis Hn : List.length vs <= k.
Hypothesis Hvs : Forall (fun v => List.length v = dim /\ Forall bit v) vs.

Lemma settled_assign cs v :
  settled dim vs cs -> In v vs ->
  nearest cs v < List.length vs
  /\ nearest cs v < List.length cs
  /\ veq (nth (nearest cs v) cs []) v.
Proof.
  intros [Hcs Hsel] Hv.
  rewrite Forall_forall in Hvs, Hsel.
  destruct (Hvs v Hv) as [Lv Bv].
  destruct (Hsel v Hv) as [j [Hj1 [Hj2 Hveq]]].
  destruct (nearest_settled v cs j) as [Hle Hv']; auto.
  - eapply Forall_impl; [|exact Hcs]. simpl. intros c [Lc Nc]. split; auto.
    congruence.
  - repeat split; auto; lia.
Qed.

Lemma settled_step cs :
  List.length cs <= k -> settled dim vs cs ->
  exists cs',
    update_centroids k dim vs (assign cs vs) = Some cs'
    /\ List.length cs' = k
    /\ settled dim vs cs'
    /\ Forall (fun a => a < List.length vs) (assign cs vs).
Proof.
  intros Hlen Hset.
  assert (Hasg : Forall (fun a => a < List.length vs) (assign cs vs)).
  { apply Forall_forall. intros a Ha. unfold assign in Ha.
    apply in_map_iff in Ha. destruct Ha as [v [<- Hv]].
    now destruct (settled_assign cs v Hset Hv). }
  destruct (update_centroids_spec k dim vs (assign cs vs)) as [cs' [E [L Hspec]]].
  { unfold assign. now rewrite length_map. }
  { eapply Forall_impl; [|exact Hvs]. simpl. tauto. }
  { eapply Forall_impl; [|exact Hasg]. simpl. intros. lia. }
  exists cs'. split; auto. split; auto. split; auto.
  assert (Hmem : forall c m ms,
             assigned c vs (assign cs vs) = m :: ms ->
             In m vs /\ nearest cs m = c
             /\ Forall (fun x => x = m) (m :: ms)).
  { intros c m ms Em. rewrite assigned_assign in Em.
    assert (Hin : forall x, In x (m :: ms) -> In x vs /\ nearest cs x = c).
    { intros x Hx. rewrite <- Em in Hx. apply filter_In in Hx.
      destruct Hx as [Hx1 Hx2]. apply Nat.eqb_eq in Hx2. auto. }
    destruct (Hin m (or_introl eq_refl)) as [Hm1 Hm2].
    repeat split; auto.
    apply Forall_forall. intros x Hx. destruct (Hin x Hx) as [Hx1 Hx2].
    destruct (settled_assign cs m Hset Hm1) as [_ [_ Vm]].
    destruct (settled_assign cs x Hset Hx1) as [_ [_ Vx]].
    rewrite Hm2 in Vm. rewrite Hx2 in Vx.
    rewrite Forall_forall in Hvs.
    eapply veq_bits_eq; eauto; apply Hvs; auto. }
  assert (Hmean : forall c m ms,
             c < k -> assigned c vs (assign cs vs) = m :: ms ->
             veq (nth c cs' []) m).
  { intros c m ms Hc Em. rewrite (Hspec c Hc), Em.
    destruct (Hmem c m ms Em) as [Hm1 [_ Hall]].
    rewrite Forall_forall in Hvs. destruct (Hvs m Hm1) as [Lm Bm].
    apply mean_same; auto. now inversion Hall. }
  split.
  - apply Forall_forall. intros c' Hc'.
    destruct (In_nth _ _ [] Hc') as [c [Hc Ec]]. rewrite L in Hc.
    destruct (assigned c vs (assign cs vs)) as [|m ms] eqn:Em.
    + rewrite (Hspec c Hc), Em in Ec. subst c'. split.
      * apply repeat_length.
      * apply Forall_forall. intros x Hx. apply repeat_spec in Hx. subst.
        apply bit_near. now left.
    + pose proof (Hmean c m ms Hc Em) as Hv. rewrite Ec in Hv.
      destruct (Hmem c m ms Em) as [Hm1 _].
      rewrite Forall_forall in Hvs. destruct (Hvs m Hm1) as [Lm Bm].
      split.
      * rewrite (veq_length _ _ Hv). exact Lm.
      * eapply veq_near; eauto.
  - apply Forall_forall. intros v Hv.
    destruct (settled_assign cs v Hset Hv) as [H1 [H2 _]].
    exists (nearest cs v). split; auto. split; [lia|].
    assert (Hin : In v (assigned (nearest cs v) vs (assign cs vs))).
    { rewrite assigned_assign. apply filter_In. split; auto.
      apply Nat.eqb_refl. }
    destruct (assigned (nearest cs v) vs (assign cs vs)) as [|m ms] eqn:Em;
      [destruct Hin|].
    destruct (Hmem _ m ms Em) as [_ [_ Hall]].
    rewrite Forall_forall in Hall. pose proof (Hall v Hin) as Evm. subst v.
    apply (Hmean _ m ms); auto. lia.
Qed.

Lemma settled_loop iters : forall cs asg,
  List.length cs <= k -> settled dim vs cs ->
  Forall (fun a => a < List.length vs) asg ->
  exists cs' asg',
    kmeans_loop iters k dim vs (cs, asg) = Some (cs', asg')
    /\ Forall (fun a => a < List.length vs) asg'.
Proof.
  induction iters as [|iters IH]; intros cs asg Hlen Hset Hasg; simpl.
  - eauto.
  - unfold kmeans_iter. simpl.
    destruct (settled_step cs Hlen Hset) as [cs' [E [L [Hset' Hasg']]]].
    rewrite E. apply IH; auto. lia.
Qed.

Lemma settled_initial : settled dim vs vs.
Proof.
  split.
  - eapply Forall_impl; [|exact Hvs]. simpl. intros v [L B]. split; auto.
    eapply Forall_impl; [|exact B]. apply bit_near.
  - apply Forall_forall. intros v Hv.
    destruct (In_nth _ _ [] Hv) as [j [Hj Ej]].
    exists j. split; auto. split; auto. rewrite Ej.
    rewrite Forall_forall in Hvs. apply veq_refl_bits, Hvs, Hv.
Qed.

End FewItems.

(** ** Vector k-means: the whole run *)

Lemma kmeans_loop_bound k dim vs :
  1 <= k -> Forall (fun v => List.length v = dim) vs ->
  forall iters cs asg,
    List.length cs <= k -> Forall (fun a => a < k) asg ->
    List.length asg = List.length vs ->
    exists cs' asg',
      kmeans_loop iters k dim vs (cs, asg) = Some (cs', asg')
      /\ Forall (fun a => a < k) asg'
      /\ List.length asg' = List.length vs.
Proof.
  intros Hk Hdim. induction iters as [|iters IH]; intros cs asg Hlen Hasg Hl; simpl.
  - eauto.
  - unfold kmeans_iter. simpl.
    destruct (update_centroids_spec k dim vs (assign cs vs)) as [cs' [E [L _]]];
      auto.
    + unfold assign. now rewrite length_map.
    + now apply assign_bound.
    + rewrite E. apply IH.
      * lia.
      * now apply assign_bound.
      * unfold assign. now rewrite length_map.
Qed.

Lemma kmeans_vectors_bits es rs targetType :
  Forall (fun v => List.length v
                   = List.length (sort_strings
                                    (fst (kmeans_features es rs targetType)))
                   /\ Forall bit v)
         (kmeans_vectors es rs targetType)
  /\ List.length (kmeans_vectors es rs targetType)
     = List.length (targetNodes es targetType).
Proof.
  unfold kmeans_vectors. destruct (kmeans_features es rs targetType) as [cf nc].
  simpl. split; [|apply length_map].
  apply Forall_forall. intros v Hv. apply in_map_iff in Hv.
  destruct Hv as [n [<- _]]. unfold vectorize. split.
  - apply length_map.
  - apply Forall_forall. intros x Hx. apply in_map_iff in Hx.
    destruct Hx as [f [<- _]]. destruct (set_has f _); [right|left]; reflexivity.
Qed.

Lemma result_get (l : list (RawEntity * nat)) key :
  In key (List.map (fun na => e_name (fst na)) l) ->
  exists c,
    map_get key (fold_left (fun res na => map_set (e_name (fst na)) (snd na) res)
                           l [])
    = Some c
    /\ In c (List.map snd l).
Proof.
  induction l as [|[e a] l IH] using rev_ind; intros Hin; [destruct Hin|].
  rewrite fold_left_app. simpl. rewrite map_get_set.
  rewrite map_app, in_app_iff in Hin. simpl in Hin.
  destruct (String.eqb (e_name e) key) eqn:E.
  - exists a. split; auto. rewrite map_app. apply in_or_app. right. now left.
  - apply String.eqb_neq in E. destruct Hin as [Hin|[Hin|[]]]; [|contradiction].
    destruct (IH Hin) as [c [Hc1 Hc2]]. exists c. split; auto.
    rewrite map_app. apply in_or_app. now left.
Qed.

Lemma in_combine_fst {A B : Type} (l : list A) (l' : list B) x :
  List.length l = List.length l' -> In x l -> exists y, In (x, y) (combine l l').
Proof.
  revert l'. induction l as [|a l IH]; intros [|b l'] Hlen Hin;
    simpl in *; try discriminate; [destruct Hin|].
  destruct Hin as [->|Hin].
  - exists b. now left.
  - destruct (IH l' (eq_add_S _ _ Hlen) Hin) as [y Hy]. exists y. now right.
Qed.

(** *** C4 *)

(** C4: for [k >= 1] the k-means run returns a result in which every entity
    of the target type has exactly one cluster index, the value of the
    result map at its name; the index is below [k], and below the number
    [n] of target entities when [n < k], that is below [min k n]; with
    [k = 1] it is 0.  The returned nodes are the target entities, each
    annotated with its index. *)
Theorem C4_kmeans_cluster_index es rs targetType k :
  1 <= k ->
  exists res,
    calculateVectorKMeans es rs targetType k = Some res
    /\ (forall e, In e es -> e_type e = targetType ->
          exists c,
            map_get (e_name e) (km_result res) = Some c
            /\ c < k
            /\ c < Nat.min k (List.length (targetNodes es targetType))
            /\ (k = 1 -> c = 0))
    /\ List.map id (km_nodes res)
       = List.map e_name (targetNodes es targetType)
    /\ (forall nd, In nd (km_nodes res) ->
          clusters_kmeans nd = map_get (id nd) (km_result res)).
Proof.
  intros Hk. unfold calculateVectorKMeans.
  destruct (targetNodes es targetType) as [|e0 tn'] eqn:Etn.
  - eexists. split; [reflexivity|]. simpl. repeat split; auto.
    + intros e He Ht. assert (Hin : In e (targetNodes es targetType)).
      { unfold targetNodes. apply filter_In. split; auto.
        rewrite Ht. apply String.eqb_refl. }
      rewrite Etn in Hin. destruct Hin.
    + intros nd [].
  - set (tn := e0 :: tn') in *.
    set (vs := kmeans_vectors es rs targetType).
    set (dim := List.length (sort_strings (fst (kmeans_features es rs targetType)))).
    destruct (kmeans_vectors_bits es rs targetType) as [Hbits Hlen].
    fold vs dim in Hbits, Hlen. rewrite Etn in Hlen. fold tn in Hlen.
    assert (Hdim : Forall (fun v => List.length v = dim) vs).
    { eapply Forall_impl; [|exact Hbits]. simpl. tauto. }
    assert (Hc0 : List.length (initial_centroids k vs) <= k).
    { unfold initial_centroids. destruct (Nat.ltb_spec (List.length vs) k).
      - lia.
      - rewrite length_firstn. lia. }
    destruct (kmeans_loop_bound k dim vs Hk Hdim 10 (initial_centroids k vs)
                (repeat 0 (List.length vs)) Hc0)
      as [cs' [asg' [E [Hasg Hlasg]]]].
    { apply Forall_forall. intros a Ha. apply repeat_spec in Ha. lia. }
    { apply repeat_length. }
    rewrite E.
    assert (Hmin : Forall (fun a => a < Nat.min k (List.length tn)) asg').
    { destruct (Nat.ltb_spec (List.length vs) k) as [Hlt|Hge].
      - destruct (settled_loop k dim vs Hk (Nat.lt_le_incl _ _ Hlt) Hbits 10 vs
                    (repeat 0 (List.length vs)))
          as [cs'' [asg'' [E' Hasg'']]].
        + lia.
        + now apply settled_initial.
        + apply Forall_forall. intros a Ha. apply repeat_spec in Ha.
          rewrite Hlen. subst a. unfold tn. simpl. lia.
        + unfold initial_centroids in E.
          destruct (Nat.ltb_spec (List.length vs) k); [|lia].
          rewrite E in E'. inversion E'. subst.
          eapply Forall_impl; [|exact Hasg'']. cbv beta. intros a Ha. lia.
      - eapply Forall_impl; [|exact Hasg]. cbv beta. intros a Ha. lia. }
    eexists. split; [reflexivity|]. cbn [km_result km_nodes].
    split; [|split].
    + intros e He Ht.
      assert (Hin : In e tn).
      { rewrite <- Etn. unfold targetNodes. apply filter_In.
        split; auto. rewrite Ht. apply String.eqb_refl. }
      destruct (in_combine_fst tn asg' e) as [a Ha]; auto; [congruence|].
      destruct (result_get (combine tn asg') (e_name e)) as [c [Hc1 Hc2]].
      { apply in_map_iff. exists (e, a). auto. }
      exists c. split; auto.
      apply in_map_iff in Hc2. destruct Hc2 as [[e' c'] [Ec Hc2]].
      simpl in Ec. subst c'. apply in_combine_r in Hc2.
      rewrite Forall_forall in Hmin, Hasg.
      pose proof (Hmin c Hc2). pose proof (Hasg c Hc2).
      repeat split; auto. lia.
    + rewrite map_map. reflexivity.
    + intros nd Hnd. apply in_map_iff in Hnd. destruct Hnd as [n [<- _]].
      reflexivity.
Qed.

Lemma C4_kmeans_cluster_index_witness :
  let es := [mkEntity "h" "h1"; mkEntity "h" "h2"; mkEntity "h" "h3";
             mkEntity "f" "f1"; mkEntity "f" "f2"] in
  let rs := [mkRelation "f1" "c" "h1"; mkRelation "f1" "c" "h2";
             mkRelation "f2" "c" "h3"] in
  exists res,
    calculateVectorKMeans es rs "h" 5 = Some res
    /\ (forall e, In e es -> e_type e = "h"%string ->
          exists c,
            map_get (e_name e) (km_result res) = Some c
            /\ c < 5
            /\ c < Nat.min 5 (List.length (targetNodes es "h"))
            /\ (5 = 1 -> c = 0))
    /\ List.map id (km_nodes res) = List.map e_name (targetNodes es "h")
    /\ (forall nd, In nd (km_nodes res) ->
          clusters_kmeans nd = map_get (id nd) (km_result res)).
Proof.
  intros es rs. apply (C4_kmeans_cluster_index es rs "h" 5). lia.
Defined.

(** ** Bipartite community detection *)

Lemma getAdjacency_neighbor ns ls w v l nb :
  map_get v (getAdjacency ns ls w) = Some l -> In nb l ->
  exists e, In e ls
            /\ ((endpoint_id (l_source e) = v /\ endpoint_id (l_target e) = nb_id nb)
                \/ (endpoint_id (l_target e) = v
                    /\ endpoint_id (l_source e) = nb_id nb)).
Proof.
  revert l. induction ls as [|e ls IH] using rev_ind; intros l Hget Hin.
  - unfold getAdjacency in Hget. simpl in Hget.
    rewrite getAdjacency_get_init in Hget.
    destruct (in_dec string_dec v (node_ids ns)); inversion Hget. subst.
    destruct Hin.
  - rewrite getAdjacency_snoc, add_link_get in Hget.
    destruct (map_get v (getAdjacency ns ls w)) as [old|] eqn:E; [|discriminate].
    simpl in Hget. inversion Hget. subst. clear Hget.
    apply in_app_or in Hin. destruct Hin as [Hin|Hin].
    + destruct (IH old eq_refl Hin) as [e' [He' H]].
      exists e'. split; auto. apply in_or_app. now left.
    + exists e. split; [apply in_or_app; right; now left|].
      apply in_app_or in Hin. destruct Hin as [Hin|Hin].
      * destruct (String.eqb_spec (endpoint_id (l_source e)) v); [|destruct Hin].
        destruct Hin as [<-|[]]. simpl. auto.
      * destruct (String.eqb_spec (endpoint_id (l_target e)) v); [|destruct Hin].
        destruct Hin as [<-|[]]. simpl. auto.
Qed.

Lemma count_label_keys l counts x :
  In x (List.map fst (count_label l counts)) <-> x = l \/ In x (List.map fst counts).
Proof.
  induction counts as [|[l' c] counts IH]; simpl.
  - intuition auto.
  - destruct (Nat.eqb_spec l l') as [->|Hne]; simpl; [intuition auto|].
    destruct (l <? l'); simpl; [intuition auto|].
    rewrite IH. intuition auto.
Qed.

Lemma neighbor_counts_keys labels nbs b :
  In b (List.map fst (neighbor_counts labels nbs)) ->
  exists nb, In nb nbs /\ map_get (nb_id nb) labels = Some b.
Proof.
  unfold neighbor_counts.
  assert (G : forall counts,
             In b (List.map fst
                     (fold_left (fun counts nb =>
                                   match map_get (nb_id nb) labels with
                                   | Some l => count_label l counts
                                   | None => counts
                                   end) nbs counts)) ->
             In b (List.map fst counts)
             \/ exists nb, In nb nbs /\ map_get (nb_id nb) labels = Some b).
  { induction nbs as [|nb nbs IH]; intros counts H; simpl in *; auto.
    destruct (IH _ H) as [H1|[nb' [H1 H2]]].
    - destruct (map_get (nb_id nb) labels) as [l|] eqn:E; auto.
      apply count_label_keys in H1. destruct H1 as [->|H1]; auto.
      right. exists nb. auto.
    - right. exists nb'. auto. }
  intros H. destruct (G [] H) as [[]|H']; auto.
Qed.

Lemma best_label_In counts b :
  best_label counts = Some b -> In b (List.map fst counts).
Proof.
  unfold best_label.
  assert (G : forall st,
             fst (fold_left (fun st lc =>
                               if (snd st <? Z.of_nat (snd lc))%Z
                               then (Some (fst lc), Z.of_nat (snd lc)) else st)
                            counts st) = Some b ->
             fst st = Some b \/ In b (List.map fst counts)).
  { induction counts as [|[l c] counts IH]; intros st H; simpl in *; auto.
    destruct (IH _ H) as [H1|H1]; auto.
    destruct (snd st <? Z.of_nat c)%Z; auto.
    simpl in H1. inversion H1. auto. }
  intros H. destruct (G _ H) as [H1|H1]; auto. discriminate.
Qed.

Section Propagation.

Variable es : list RawEntity.
Variable rs : list RawRelation.
Variables frontType backType : string.
Variable side : string -> bool.

Let ns := bipartite_nodes es frontType backType.
Let adj := getAdjacency ns (bipartite_links es rs frontType backType) false.

Hypothesis no_cross :
  forall r, In r (validLinks es rs frontType backType) ->
            side (r_source r) = side (r_target r).

Lemma neighbor_same_side v l nb :
  map_get v adj = Some l -> In nb l -> side (nb_id nb) = side v.
Proof.
  intros Hget Hin.
  destruct (getAdjacency_neighbor _ _ _ _ _ _ Hget Hin) as [e [He H]].
  unfold bipartite_links in He. apply in_map_iff in He.
  destruct He as [r [<- Hr]]. simpl in H. specialize (no_cross r Hr).
  destruct H as [[<- <-]|[<- <-]]; congruence.
Qed.

(** A node only adopts a label that one of its neighbours holds. *)
Lemma visit_adopts labels change n labels' change' :
  visit adj (labels, change) n = (labels', change') ->
  labels' = labels
  \/ exists l nb b,
       map_get (id n) adj = Some l /\ In nb l
       /\ map_get (nb_id nb) labels = Some b
       /\ labels' = map_set (id n) b labels.
Proof.
  unfold visit. simpl.
  destruct (map_get (id n) adj) as [l|] eqn:E; [|intros H; inversion H; auto].
  destruct l as [|nb0 l0] eqn:El; [intros H; inversion H; auto|].
  rewrite <- El in *.
  destruct (best_label (neighbor_counts labels l)) as [b|] eqn:Eb;
    [|intros H; inversion H; auto].
  destruct (match map_get (id n) labels with
            | Some l1 => negb (l1 =? b) | None => true end);
    intros H; inversion H; auto.
  right. apply best_label_In, neighbor_counts_keys in Eb.
  destruct Eb as [nb [Hnb Hl]]. exists l, nb, b. auto.
Qed.

Lemma visit_inv st n :
  labels_inv side ns (fst st) -> labels_inv side ns (fst (visit adj st n)).
Proof.
  destruct st as [labels change]. simpl. intros Hinv.
  destruct (visit adj (labels, change) n) as [labels' change'] eqn:E.
  destruct (visit_adopts _ _ _ _ _ E) as [->|[l [nb [b [Hl [Hnb [Hb ->]]]]]]];
    auto.
  simpl. intros v x. rewrite map_get_set.
  destruct (String.eqb_spec (id n) v) as [<-|Hne]; [|apply Hinv].
  intros H. inversion H. subst x.
  destruct (Hinv _ _ Hb) as [H1 H2]. split; auto.
  rewrite H2. eapply neighbor_same_side; eauto.
Qed.

Lemma visit_keys st n v :
  map_has v (fst st) = true -> map_has v (fst (visit adj st n)) = true.
Proof.
  destruct st as [labels change]. simpl. intros H.
  destruct (visit adj (labels, change) n) as [labels' change'] eqn:E.
  destruct (visit_adopts _ _ _ _ _ E) as [->|[l [nb [b [_ [_ [_ ->]]]]]]]; auto.
  simpl. apply map_has_In, map_keys_set_In. right. now apply map_has_In.
Qed.

Lemma pass_inv order st :
  labels_inv side ns (fst st) ->
  labels_inv side ns (fst (fold_left (visit adj) order st)).
Proof.
  revert st. induction order as [|n order IH]; intros st H; simpl; auto.
  apply IH, visit_inv, H.
Qed.

Lemma pass_keys order st v :
  map_has v (fst st) = true ->
  map_has v (fst (fold_left (visit adj) order st)) = true.
Proof.
  revert st. induction order as [|n order IH]; intros st H; simpl; auto.
  apply IH, visit_keys, H.
Qed.

Lemma propagate_inv shuffled passes : forall i labels,
  labels_inv side ns labels ->
  labels_inv side ns (propagate passes i shuffled adj labels).
Proof.
  induction passes as [|passes IH]; intros i labels H; simpl; auto.
  pose proof (pass_inv (shuffled i) (labels, false) H) as H'.
  destruct (fold_left (visit adj) (shuffled i) (labels, false)) as [l' c].
  simpl in H'. destruct c; auto.
Qed.

Lemma propagate_keys shuffled passes v : forall i labels,
  map_has v labels = true ->
  map_has v (propagate passes i shuffled adj labels) = true.
Proof.
  induction passes as [|passes IH]; intros i labels H; simpl; auto.
  pose proof (pass_keys (shuffled i) (labels, false) v H) as H'.
  destruct (fold_left (visit adj) (shuffled i) (labels, false)) as [l' c].
  simpl in H'. destruct c; auto.
Qed.

End Propagation.

Lemma in_combine_seq {A : Type} (l : list A) d : forall s i x,
  In (i, x) (combine (seq s (List.length l)) l) ->
  s <= i < s + List.length l /\ nth (i - s) l d = x.
Proof.
  induction l as [|y l IH]; intros s i x H; simpl in *; [destruct H|].
  destruct H as [H|H].
  - inversion H. subst. rewrite Nat.sub_diag. split; [lia|reflexivity].
  - destruct (IH _ _ _ H) as [H1 H2]. split; [lia|].
    replace (i - s) with (S (i - S s)) by lia. exact H2.
Qed.

Lemma initial_labels_spec ns v l :
  map_get v (initial_labels ns) = Some l ->
  l < List.length ns /\ id (nth l ns (mkNode "" "" None None)) = v.
Proof.
  unfold initial_labels.
  assert (G : forall pairs (m : jsmap nat),
             (forall i n, In (i, n) pairs ->
                i < List.length ns /\ nth i ns (mkNode "" "" None None) = n) ->
             (forall k x, map_get k m = Some x ->
                x < List.length ns /\ id (nth x ns (mkNode "" "" None None)) = k) ->
             forall k x,
               map_get k (fold_left (fun labels ni =>
                                       map_set (id (snd ni)) (fst ni) labels)
                                    pairs m) = Some x ->
               x < List.length ns /\ id (nth x ns (mkNode "" "" None None)) = k).
  { induction pairs as [|[i n] pairs IH]; intros m Hp Hm k x; simpl; [apply Hm|].
    apply IH.
    - intros i' n' H. apply Hp. now right.
    - intros k' x'. rewrite map_get_set.
      destruct (String.eqb_spec (id n) k') as [<-|Hne]; [|apply Hm].
      intros H. inversion H. subst x'.
      destruct (Hp i n (or_introl eq_refl)) as [H1 H2]. now rewrite H2. }
  apply G.
  - intros i n H. apply (in_combine_seq ns (mkNode "" "" None None)) in H.
    rewrite Nat.sub_0_r in H. intuition lia.
  - simpl. discriminate.
Qed.

Lemma initial_labels_keys ns v :
  In v (node_ids ns) -> map_has v (initial_labels ns) = true.
Proof.
  unfold initial_labels. intros Hin.
  assert (G : forall (pairs : list (nat * GraphNode)) (m : jsmap nat),
             In v (List.map (fun p => id (snd p)) pairs) \/ map_has v m = true ->
             map_has v (fold_left (fun labels ni =>
                                     map_set (id (snd ni)) (fst ni) labels)
                                  pairs m) = true).
  { induction pairs as [|[i n] pairs IH]; intros m H; simpl in *.
    - destruct H as [[]|H]; auto.
    - apply IH. destruct H as [[H|H]|H]; auto; right;
        apply map_has_In, map_keys_set_In; auto.
      right. now apply map_has_In. }
  apply G. left. unfold node_ids in Hin. apply in_map_iff in Hin.
  destruct Hin as [n [<- Hn]].
  destruct (in_combine_fst ns (seq 0 (List.length ns)) n) as [i Hi]; auto.
  { now rewrite length_seq. }
  apply in_map_iff. exists (i, n). split; auto.
  clear - Hi. revert Hi. generalize (seq 0 (List.length ns)).
  induction ns as [|x ns IH]; intros [|j l] H; simpl in *; try tauto.
  destruct H as [H|H]; [inversion H; auto|right; eauto].
Qed.

Lemma object_values_In {V : Type} (m : jsmap V) k x :
  In (k, x) m -> In x (object_values m).
Proof.
  intros H. unfold object_values. apply in_or_app.
  destruct (array_index k) as [n|] eqn:E.
  - left. apply in_map_iff. exists (n, x). split; auto.
    apply js_sort_In. unfold index_entries. apply in_flat_map.
    exists (k, x). split; auto. simpl. rewrite E. now left.
  - right. apply in_map_iff. exists (k, x). split; auto.
    apply filter_In. split; auto. simpl. now rewrite E.
Qed.

Lemma unique_nats_In xs x : In x xs -> In x (unique_nats xs).
Proof.
  unfold unique_nats.
  assert (G : forall acc, In x acc \/ In x xs ->
                In x (fold_left (fun s y => if existsb (Nat.eqb y) s then s
                                            else s ++ [y]) xs acc)).
  { induction xs as [|y xs IH]; intros acc H; simpl.
    - destruct H as [H|[]]; auto.
    - apply IH. destruct H as [H|[->|H]]; auto.
      + left. destruct (existsb (Nat.eqb y) acc); auto. apply in_or_app. auto.
      + left. destruct (existsb (Nat.eqb x) acc) eqn:E.
        * apply existsb_exists in E. destruct E as [z [Hz E]].
          apply Nat.eqb_eq in E. now subst.
        * apply in_or_app. right. now left. }
  intros H. apply G. auto.
Qed.

Lemma index_of_In l xs : In l xs -> exists i, index_of l xs = Some i.
Proof.
  induction xs as [|x xs IH]; intros H; simpl in *; [destruct H|].
  destruct (Nat.eqb_spec x l); eauto.
  destruct H as [H|H]; [contradiction|].
  destruct (IH H) as [i ->]. simpl. eauto.
Qed.

Lemma index_of_nth l xs : forall i,
  index_of l xs = Some i -> nth_error xs i = Some l.
Proof.
  induction xs as [|x xs IH]; intros i H; simpl in *; [discriminate|].
  destruct (Nat.eqb_spec x l) as [->|Hne].
  - inversion H. reflexivity.
  - destruct (index_of l xs) as [j|]; [|discriminate].
    simpl in H. inversion H. simpl. auto.
Qed.

Lemma of_nat_inj a b : of_nat a = of_nat b -> a = b.
Proof.
  unfold of_nat, inject_Z. intros H. inversion H. lia.
Qed.

(** *** C9 *)

(** C9: when the ids of the two-type subgraph split into two non-empty
    sides with no kept relation from one side to the other, the detector
    returns, for every family of visiting orders, two nodes with different
    community numbers: a node only ever adopts a label held by a neighbour,
    so a label never leaves the side it started on. *)
Theorem C9_disconnected_communities es rs frontType backType
    (side : string -> bool) (shuffled : nat -> list GraphNode) a b :
  In a (node_ids (bipartite_nodes es frontType backType)) ->
  In b (node_ids (bipartite_nodes es frontType backType)) ->
  side a = true -> side b = false ->
  (forall r, In r (validLinks es rs frontType backType) ->
             side (r_source r) = side (r_target r)) ->
  let g := calculateBipartiteCommunity es rs frontType backType shuffled in
  exists na nb ca cb,
    In na (nodes g) /\ In nb (nodes g)
    /\ id na = a /\ id nb = b
    /\ community na = Some ca /\ community nb = Some cb
    /\ ca <> cb.
Proof.
  intros Ha Hb Sa Sb Hcross g.
  set (ns := bipartite_nodes es frontType backType) in *.
  set (labels := final_labels es rs frontType backType shuffled).
  assert (Hinv : labels_inv side ns labels).
  { unfold labels, final_labels. apply propagate_inv; auto.
    intros v l H. destruct (initial_labels_spec _ _ _ H) as [H1 H2].
    split; auto. unfold ns. now rewrite H2. }
  assert (Hkeys : forall v, In v (node_ids ns) ->
                    exists l, map_get v labels = Some l).
  { intros v Hv.
    assert (H : map_has v labels = true).
    { unfold labels, final_labels. apply propagate_keys.
      now apply initial_labels_keys. }
    unfold map_has in H. destruct (map_get v labels); eauto. discriminate. }
  destruct (Hkeys a Ha) as [la Hla]. destruct (Hkeys b Hb) as [lb Hlb].
  set (uniq := unique_nats (object_values labels)).
  assert (Hu : forall v l, map_get v labels = Some l ->
                 exists i, index_of l uniq = Some i).
  { intros v l H. apply index_of_In, unique_nats_In.
    eapply object_values_In, map_get_In, H. }
  destruct (Hu a la Hla) as [ia Hia]. destruct (Hu b lb Hlb) as [ib Hib].
  assert (Hne : ia <> ib).
  { intros ->. apply index_of_nth in Hia, Hib. rewrite Hia in Hib.
    inversion Hib. subst lb.
    destruct (Hinv _ _ Hla) as [_ H1]. destruct (Hinv _ _ Hlb) as [_ H2].
    congruence. }
  assert (Hnode : forall v l i,
             In v (node_ids ns) -> map_get v labels = Some l ->
             index_of l uniq = Some i ->
             exists n, In n (nodes g) /\ id n = v
                       /\ community n = Some (of_nat i)).
  { intros v l i Hv Hl Hi. unfold node_ids in Hv. apply in_map_iff in Hv.
    destruct Hv as [n [<- Hn]].
    exists (set_community (community_of labels uniq (id n)) n).
    split; [|split].
    - unfold g, calculateBipartiteCommunity. simpl. fold ns labels uniq.
      apply in_map_iff. exists n. auto.
    - unfold set_community. destruct (metrics n); reflexivity.
    - unfold ns, bipartite_nodes in Hn. apply in_map_iff in Hn.
      destruct Hn as [e [<- _]]. unfold set_community, community. simpl.
      unfold community_of. simpl in Hl. now rewrite Hl, Hi. }
  destruct (Hnode a la ia Ha Hla Hia) as [na [H1 [H2 H3]]].
  destruct (Hnode b lb ib Hb Hlb Hib) as [nb [H4 [H5 H6]]].
  exists na, nb, (of_nat ia), (of_nat ib). repeat split; auto.
  intros H. apply of_nat_inj in H. contradiction.
Qed.

Lemma C9_disconnected_communities_witness :
  let es := [mkEntity "f" "f1"; mkEntity "f" "f2";
             mkEntity "h" "h1"; mkEntity "h" "h2"] in
  let rs := [mkRelation "f1" "uses" "h1"; mkRelation "f2" "uses" "h2"] in
  let g := calculateBipartiteCommunity es rs "f" "h"
             (fun _ => bipartite_nodes es "f" "h") in
  exists na nb ca cb,
    In na (nodes g) /\ In nb (nodes g)
    /\ id na = "f1"%string /\ id nb = "f2"%string
    /\ community na = Some ca /\ community nb = Some cb
    /\ ca <> cb.
Proof.
  intros es rs.
  apply (C9_disconnected_communities es rs "f" "h"
           (fun s => String.eqb s "f1" || String.eqb s "h1")
           (fun _ => bipartite_nodes es "f" "h") "f1" "f2").
  - simpl. auto.
  - simpl. auto.
  - reflexivity.
  - reflexivity.
  - intros r Hr. vm_compute in Hr.
    destruct Hr as [<-|[<-|[]]]; reflexivity.
Defined.

(** ** Association rules *)

Lemma geb_trans a b c : geb a b = true -> geb b c = true -> geb a c = true.
Proof.
  destruct a, b, c; simpl; auto; try discriminate.
  rewrite !Qle_bool_iff. intros H1 H2. eapply Qle_trans; eauto.
Qed.

Lemma Qltb_sub_pos a b : Qltb 0 (b + - a) = negb (Qle_bool b a).
Proof.
  destruct (Qle_bool b a) eqn:E; simpl.
  - apply Qle_bool_iff in E. apply Qltb_ge.
    apply Qnot_lt_le. intros H. apply (proj2 (Qlt_minus_iff a b)) in H.
    exact (Qle_not_lt _ _ E H).
  - apply Qltb_lt. apply (proj1 (Qlt_minus_iff a b)).
    apply Qnot_le_lt. intros H.
    apply Qle_bool_iff in H. congruence.
Qed.

(** The comparator [(x, y) => y - x] on numbers that are not NaN. *)
Lemma desc_after x y :
  x <> NaN -> y <> NaN -> gtb (sub y x) (Fin 0) = negb (geb x y).
Proof.
  intros Hx Hy. destruct x, y; try congruence; try reflexivity.
  unfold gtb, sub. simpl. apply Qltb_sub_pos.
Qed.

Lemma geb_total x y : x <> NaN -> y <> NaN -> geb x y = false -> geb y x = true.
Proof.
  intros Hx Hy. destruct x, y; simpl; try congruence.
  intros H. apply Qle_bool_iff. apply Qlt_le_weak, Qnot_le_lt.
  intros H'. apply Qle_bool_iff in H'. congruence.
Qed.

Lemma pos_num_not_NaN x : pos_num x -> x <> NaN.
Proof. intros [->|[q [-> _]]]; discriminate. Qed.

Lemma of_nat_div_nonneg c t :
  exists q, div (of_nat c) (of_nat (S t)) = Fin q /\ (0 <= q)%Q
            /\ (0 < c -> (0 < q)%Q).
Proof.
  unfold div, of_nat. rewrite Qeqb_of_nat_pos by lia.
  eexists. split; [reflexivity|].
  assert (Ht : (0 < inject_Z (Z.of_nat (S t)))%Q).
  { unfold Qlt, inject_Z. simpl. lia. }
  split.
  - apply Qle_shift_div_l; auto. rewrite Qmult_0_l.
    unfold Qle, inject_Z. simpl. lia.
  - intros Hc. apply Qlt_shift_div_l; auto. rewrite Qmult_0_l.
    unfold Qlt, inject_Z. simpl. lia.
Qed.

Lemma div_pos a t :
  pos_num a -> (0 <= t)%Q -> pos_num (div a (Fin t)).
Proof.
  intros [->|[q [-> Hq]]] Ht.
  - simpl. apply Qltb_ge in Ht. rewrite Ht. now left.
  - unfold div. destruct (Qeqb t 0) eqn:E.
    + left. apply Qgt_alt in Hq. now rewrite Hq.
    + right. eexists. split; [reflexivity|].
      assert (Hpos : (0 < t)%Q).
      { apply Qle_lt_or_eq in Ht. destruct Ht as [Ht|Ht]; auto.
        symmetry in Ht. apply Qeqb_eq in Ht. congruence. }
      apply Qlt_shift_div_l; auto. now rewrite Qmult_0_l.
Qed.

Lemma bump_get k m x :
  getd (bump k m) x = getd m x + (if String.eqb k x then 1 else 0).
Proof.
  unfold getd, bump. rewrite map_get_set.
  destruct (String.eqb_spec k x) as [->|Hne]; lia.
Qed.

Lemma map_set_Forall {V : Type} (P : string * V -> Prop) k v (m : jsmap V) :
  (forall k', P (k', v)) -> Forall P m -> Forall P (map_set k v m).
Proof.
  intros Hv Hm. induction Hm as [|[k' v'] m Hkv Hm IH]; simpl.
  - repeat constructor. auto.
  - destruct (String.eqb k' k); constructor; auto.
Qed.

Lemma bump_values k (m : jsmap nat) :
  Forall (fun kv => 1 <= snd kv) m -> Forall (fun kv => 1 <= snd kv) (bump k m).
Proof.
  intros H. unfold bump. apply map_set_Forall; auto. simpl. intros _. lia.
Qed.

Lemma set_of_list_NoDup xs : NoDup (set_of_list xs).
Proof.
  unfold set_of_list.
  assert (G : forall s, NoDup s -> NoDup (fold_left (fun s x => set_add x s) xs s)).
  { induction xs as [|x xs IH]; intros s Hs; simpl; auto.
    apply IH, set_add_NoDup, Hs. }
  apply G. constructor.
Qed.

Lemma transactions_NoDup es rs frontType backType :
  Forall (fun kv => NoDup (snd kv)) (transactions es rs frontType backType).
Proof.
  unfold transactions, connector_transactions, direct_transactions.
  set (P := fun kv : string * jsset => NoDup (snd kv)).
  assert (G1 : forall (l : list (nat * RawRelation)) (tr : jsmap jsset),
             Forall P tr ->
             Forall P
               (fold_left
                  (fun tr ir =>
                     let r := snd ir in
                     if has_type es (r_source r) frontType
                        && has_type es (r_target r) backType
                     then map_set (direct_key (fst ir))
                                  (set_of_list [r_source r; r_target r]) tr
                     else tr) l tr)).
  { induction l as [|ir l IH]; intros tr H; simpl; auto.
    apply IH. cbv zeta. destruct (_ && _); auto.
    apply map_set_Forall; auto. intros k'. apply set_of_list_NoDup. }
  assert (G2 : forall (cm : jsmap jsset) (tr : jsmap jsset),
             Forall P tr ->
             Forall P
               (fold_left
                  (fun tr ci =>
                     let fronts := filter (fun i => has_type es i frontType) (snd ci) in
                     let backs := filter (fun i => has_type es i backType) (snd ci) in
                     match fronts, backs with
                     | _ :: _, _ :: _ =>
                         map_set (fst ci) (set_of_list (fronts ++ backs)) tr
                     | _, _ => tr
                     end) cm tr)).
  { induction cm as [|ci cm IH]; intros tr H; simpl; auto.
    apply IH. cbv zeta.
    repeat match goal with
           | |- context [match ?x with [] => _ | _ :: _ => _ end] =>
               destruct x; auto
           end.
    apply map_set_Forall; auto. intros k'. apply set_of_list_NoDup. }
  apply G2, G1. constructor.
Qed.

Lemma fold_bump_get arr : forall m x,
  NoDup arr ->
  getd (fold_left (fun m i => bump i m) arr m) x
  = getd m x + (if set_has x arr then 1 else 0).
Proof.
  induction arr as [|a arr IH]; intros m x Hnd; simpl.
  - lia.
  - inversion Hnd as [|? ? Ha Hnd']. subst.
    rewrite IH by assumption. rewrite bump_get.
    rewrite (String.eqb_sym x a).
    destruct (String.eqb_spec a x) as [->|Hne]; simpl; [|lia].
    destruct (set_has x arr) eqn:E; [|lia].
    apply set_has_In in E. contradiction.
Qed.

Lemma count_all_items es frontType backType (tr : jsmap jsset) x :
  Forall (fun kv => NoDup (snd kv)) tr ->
  getd (fst (count_all es frontType backType tr)) x = tx_count x tr.
Proof.
  unfold count_all, tx_count. intros Hnd.
  assert (G : forall sets st,
             Forall (fun s => NoDup s) sets ->
             getd (fst (fold_left (count_step es frontType backType) sets st)) x
             = getd (fst st) x + List.length (filter (set_has x) sets)).
  { induction sets as [|s sets IH]; intros st H; simpl; [lia|].
    inversion H. subst. rewrite IH by assumption.
    unfold count_step. cbn [fst]. rewrite fold_bump_get by assumption.
    destruct (set_has x s); simpl; lia. }
  rewrite G.
  - reflexivity.
  - unfold map_values. apply Forall_forall. intros s Hs.
    apply in_map_iff in Hs. destruct Hs as [kv [<- Hkv]].
    rewrite Forall_forall in Hnd. now apply Hnd.
Qed.

Lemma count_all_pairs_pos es frontType backType (tr : jsmap jsset) :
  Forall (fun kv => 1 <= snd kv) (snd (count_all es frontType backType tr)).
Proof.
  unfold count_all.
  assert (G : forall sets st,
             Forall (fun kv : string * nat => 1 <= snd kv) (snd st) ->
             Forall (fun kv : string * nat => 1 <= snd kv)
                    (snd (fold_left (count_step es frontType backType) sets st))).
  { induction sets as [|s sets IH]; intros [ic pc] H; simpl; auto.
    apply IH. unfold count_step. simpl in *.
    generalize (filter (fun i => has_type es i backType) s). intros backs.
    generalize (filter (fun i => has_type es i frontType) s). intros fronts.
    revert H. generalize pc. clear.
    induction fronts as [|f fronts IHf]; intros m H; cbn [fold_left].
    { exact H. }
    apply IHf. clear IHf. revert m H.
    induction backs as [|b backs IHb]; intros m H; cbn [fold_left].
    { exact H. }
    apply IHb. now apply bump_values. }
  apply G. constructor.
Qed.

Lemma rule_of_spec itemCounts totalTrans minSupport minConfidence kc r :
  rule_of itemCounts totalTrans minSupport minConfidence kc = Some r ->
  geb (support r) minSupport = true
  /\ geb (confidence r) minConfidence = true
  /\ cooccur r = snd kc
  /\ support r = div (of_nat (cooccur r)) (of_nat totalTrans)
  /\ confidence r
     = div (support r) (item_support itemCounts totalTrans (source r))
  /\ lift r
     = div (confidence r) (item_support itemCounts totalTrans (target r)).
Proof.
  unfold rule_of. destruct (key_parts (fst kc)) as [src tgt].
  destruct (geb _ minSupport) eqn:E1; [|discriminate].
  destruct (geb _ minConfidence) eqn:E2; [|discriminate].
  intros H. inversion H. subst. simpl. repeat split; auto.
Qed.

Lemma rule_lift_pos itemCounts t minSupport minConfidence kc r :
  1 <= snd kc ->
  rule_of itemCounts (S t) minSupport minConfidence kc = Some r ->
  pos_num (lift r).
Proof.
  intros Hc H. apply rule_of_spec in H.
  destruct H as [_ [_ [Hco [Hs [Hcf Hl]]]]].
  rewrite Hl, Hcf, Hs. unfold item_support.
  destruct (of_nat_div_nonneg (cooccur r) t) as [q [-> [_ Hq]]].
  destruct (of_nat_div_nonneg
              (match map_get (source r) itemCounts with
               | Some n => n | None => 0 end) t) as [s [-> [Hs0 _]]].
  destruct (of_nat_div_nonneg
              (match map_get (target r) itemCounts with
               | Some n => n | None => 0 end) t) as [u [-> [Hu0 _]]].
  apply div_pos; auto. apply div_pos; auto.
  right. exists q. split; auto. apply Hq. lia.
Qed.

(** *** C7 *)

(** C7: every rule the miner returns passes both thresholds, its support is
    its co-occurrence count over the number of transactions, its
    confidence is that support over the support of its front item, its
    lift is the confidence over the support of its back item, and the
    rules come in non-increasing order of lift.  The support of an item is
    the share of transactions that contain it. *)
Theorem C7_association_rules es rs frontType backType minSupport minConfidence :
  let tr := transactions es rs frontType backType in
  let res := calculateAssociationRules es rs frontType backType
                                       minSupport minConfidence in
  (forall r, In r (rules res) ->
     geb (support r) minSupport = true
     /\ geb (confidence r) minConfidence = true
     /\ support r = div (of_nat (cooccur r)) (of_nat (List.length tr))
     /\ confidence r = div (support r) (support_of tr (source r))
     /\ lift r = div (confidence r) (support_of tr (target r)))
  /\ StronglySorted (fun a b => geb (lift a) (lift b) = true) (rules res).
Proof.
  intros tr res. unfold res, calculateAssociationRules. fold tr.
  destruct (List.length tr) as [|t] eqn:Et; simpl Nat.eqb; cbv iota.
  { simpl. split; [intros r []|constructor]. }
  pose proof (count_all_items es frontType backType tr) as Hitems.
  pose proof (count_all_pairs_pos es frontType backType tr) as Hpairs.
  destruct (count_all es frontType backType tr) as [itemCounts pairCounts].
  simpl in Hitems, Hpairs. cbn [rules].
  set (found := unsorted_rules itemCounts pairCounts (S t)
                               minSupport minConfidence).
  assert (Hfound : forall r, In r found ->
            exists kc, In kc pairCounts
                       /\ rule_of itemCounts (S t) minSupport minConfidence kc
                          = Some r).
  { intros r Hr. unfold found, unsorted_rules in Hr. apply in_flat_map in Hr.
    destruct Hr as [kc [Hkc Hr]]. exists kc. split; auto.
    destruct (rule_of _ _ _ _ kc); simpl in Hr; [|destruct Hr].
    destruct Hr as [->|[]]. reflexivity. }
  assert (Hsup : forall x, item_support itemCounts (S t) x = support_of tr x).
  { intros x. unfold item_support, support_of. rewrite Et.
    rewrite <- Hitems by apply transactions_NoDup. reflexivity. }
  split.
  - intros r Hr. apply js_sort_In in Hr.
    destruct (Hfound r Hr) as [kc [_ Hrule]].
    apply rule_of_spec in Hrule.
    destruct Hrule as [H1 [H2 [_ [H3 [H4 H5]]]]].
    rewrite Hsup in H4, H5. auto.
  - apply Sorted_StronglySorted.
    { intros a b c. apply geb_trans. }
    apply (js_sort_Sorted lift_after (fun r => lift r <> NaN)).
    + intros x y Hx Hy H. unfold lift_after in H.
      rewrite desc_after in H by assumption.
      now apply negb_false_iff in H.
    + intros x y Hx Hy H. unfold lift_after in H.
      rewrite desc_after in H by assumption.
      apply negb_true_iff in H. now apply geb_total.
    + apply Forall_forall. intros r Hr.
      destruct (Hfound r Hr) as [kc [Hkc Hrule]].
      apply pos_num_not_NaN. eapply rule_lift_pos; eauto.
      rewrite Forall_forall in Hpairs. now apply Hpairs.
Qed.

(** ** Co-occurrence builder *)

Lemma split_bar_free b : bar_free b = true -> split_bar b = [b].
Proof.
  induction b as [|c b IH]; simpl; auto.
  intros H. apply andb_prop in H. destruct H as [H1 H2].
  apply negb_true_iff in H1. rewrite H1, (IH H2). reflexivity.
Qed.

Lemma split_pair_key a b :
  bar_free a = true -> split_bar (pair_key a b) = a :: split_bar b.
Proof.
  unfold pair_key. induction a as [|c a IH]; simpl.
  - intros _. reflexivity.
  - intros H. apply andb_prop in H. destruct H as [H1 H2].
    apply negb_true_iff in H1. rewrite H1, (IH H2). reflexivity.
Qed.

Lemma key_parts_pair a b :
  bar_free a = true -> bar_free b = true -> key_parts (pair_key a b) = (a, b).
Proof.
  intros Ha Hb. unfold key_parts.
  rewrite split_pair_key, split_bar_free by assumption. reflexivity.
Qed.

Lemma pair_key_inj a b a' b' :
  bar_free a = true -> bar_free b = true ->
  bar_free a' = true -> bar_free b' = true ->
  pair_key a b = pair_key a' b' -> a = a' /\ b = b'.
Proof.
  intros Ha Hb Ha' Hb' E.
  pose proof (key_parts_pair a b Ha Hb) as H1.
  pose proof (key_parts_pair a' b' Ha' Hb') as H2.
  rewrite E in H1. rewrite H1 in H2. inversion H2. auto.
Qed.

Lemma str_ltb_asym a b : str_ltb a b = true -> str_ltb b a = false.
Proof.
  unfold str_ltb, String.ltb. rewrite (String.compare_antisym a b).
  destruct (String.compare b a); simpl; congruence.
Qed.

Lemma str_ltb_total a b : a <> b -> str_ltb a b = false -> str_ltb b a = true.
Proof.
  unfold str_ltb, String.ltb. intros Hne.
  rewrite (String.compare_antisym a b).
  destruct (String.compare b a) eqn:E; simpl; try congruence.
  apply String.compare_eq_iff in E. congruence.
Qed.

Lemma str_ltb_irrefl a : str_ltb a a = false.
Proof.
  unfold str_ltb, String.ltb.
  pose proof (String.compare_antisym a a) as H.
  destruct (String.compare a a); simpl in H; congruence.
Qed.

(** The key of an unordered pair of distinct bar-free names equals the
    ordered key of [s < t] exactly when the pair is [{s, t}]. *)
Lemma edge_key_eq a b s t :
  bar_free a = true -> bar_free b = true ->
  bar_free s = true -> bar_free t = true ->
  a <> b -> str_ltb s t = true ->
  (edge_key a b = pair_key s t <-> (a = s /\ b = t) \/ (a = t /\ b = s)).
Proof.
  intros Ha Hb Hs Ht Hab Hst. unfold edge_key.
  destruct (str_ltb a b) eqn:E; split.
  - intros H. apply pair_key_inj in H; auto.
  - intros [[-> ->]|[-> ->]]; auto.
    apply str_ltb_asym in Hst. congruence.
  - intros H. apply pair_key_inj in H; auto. destruct H as [-> ->]. auto.
  - intros [[-> ->]|[-> ->]]; auto. congruence.
Qed.

Lemma edge_key_form a b :
  a <> b ->
  exists s t, edge_key a b = pair_key s t /\ str_ltb s t = true
              /\ ((s = a /\ t = b) \/ (s = b /\ t = a)).
Proof.
  intros Hab. unfold edge_key. destruct (str_ltb a b) eqn:E.
  - exists a, b. auto.
  - exists b, a. split; auto. split; auto. now apply str_ltb_total.
Qed.

Lemma map_set_keys_NoDup {V : Type} k (v : V) (m : jsmap V) :
  NoDup (map_keys m) -> NoDup (map_keys (map_set k v m)).
Proof.
  intros H. rewrite map_keys_set. destruct (map_has k m) eqn:E; auto.
  apply NoDup_app; auto.
  - repeat constructor. intros [].
  - intros x Hx [<-|[]]. apply map_has_In in Hx. congruence.
Qed.

Lemma bump_keys_NoDup k (m : jsmap nat) :
  NoDup (map_keys m) -> NoDup (map_keys (bump k m)).
Proof. apply map_set_keys_NoDup. Qed.

Lemma register_get c i (m : jsmap jsset) c' :
  map_get c' (register c i m)
  = if String.eqb c c'
    then Some (set_add i (match map_get c m with Some s => s | None => [] end))
    else map_get c' m.
Proof.
  unfold register, map_has.
  destruct (map_get c m) as [s|] eqn:E.
  - rewrite E, map_get_set. destruct (String.eqb c c'); reflexivity.
  - rewrite map_get_set_same, !map_get_set.
    destruct (String.eqb_spec c c'); reflexivity.
Qed.

Lemma register_keys_NoDup c i (m : jsmap jsset) :
  NoDup (map_keys m) -> NoDup (map_keys (register c i m)).
Proof.
  intros H. unfold register.
  destruct (map_has c m);
    destruct (map_get c _); auto using map_set_keys_NoDup.
Qed.

Lemma map_get_of_In {V : Type} (m : jsmap V) k v :
  NoDup (map_keys m) -> In (k, v) m -> map_get k m = Some v.
Proof.
  induction m as [|[k' v'] m IH]; simpl; intros Hnd Hin; [destruct Hin|].
  inversion Hnd as [|? ? Hk Hnd']. subst.
  destruct Hin as [H|H].
  - inversion H. subst. now rewrite String.eqb_refl.
  - destruct (String.eqb_spec k' k) as [->|Hne]; auto.
    exfalso. apply Hk. unfold map_keys. apply in_map_iff. exists (k, v). auto.
Qed.

Lemma items_of_register c i m c' :
  items_of (register c i m) c'
  = if String.eqb c c' then set_add i (items_of m c) else items_of m c'.
Proof.
  unfold items_of. rewrite register_get. now destruct (String.eqb c c').
Qed.

Section CoocFacts.

Variable es : list RawEntity.
Variables containerType itemType : string.

Let typed (c i : string) : bool :=
  has_entity es c containerType && has_entity es i itemType.

Let joins (r : RawRelation) (c i : string) : bool :=
  (String.eqb (r_source r) c && String.eqb (r_target r) i)
  || (String.eqb (r_target r) c && String.eqb (r_source r) i).

Lemma holds_snoc rs r c i :
  holds es (rs ++ [r]) containerType itemType c i
  = holds es rs containerType itemType c i || (joins r c i && typed c i).
Proof.
  unfold holds, typed, joins. rewrite existsb_app. simpl.
  rewrite orb_false_r.
  destruct (existsb _ rs), (has_entity es c containerType),
           (has_entity es i itemType); simpl;
    rewrite ?andb_true_r, ?andb_false_r, ?orb_false_r; reflexivity.
Qed.

Lemma containerToItems_snoc rs r :
  containerToItems es (rs ++ [r]) containerType itemType
  = cooc_step es containerType itemType
              (containerToItems es rs containerType itemType) r.
Proof. unfold containerToItems. now rewrite fold_left_app. Qed.

(** What the first pass computes: under each container exactly the items
    some relation joins to it, and the set of all such items. *)
Lemma containerToItems_spec rs :
  let st := containerToItems es rs containerType itemType in
  NoDup (map_keys (fst st))
  /\ (forall c, NoDup (items_of (fst st) c))
  /\ (forall c i, In i (items_of (fst st) c)
                  <-> holds es rs containerType itemType c i = true)
  /\ NoDup (snd st)
  /\ (forall i, In i (snd st)
                <-> exists c, holds es rs containerType itemType c i = true).
Proof.
  induction rs as [|r rs IH] using rev_ind.
  - simpl. split; [constructor|]. split; [intros c; constructor|].
    split; [|split; [constructor|]].
    + intros c i. unfold items_of, holds. simpl. split; [tauto|discriminate].
    + intros i. unfold holds. simpl. split; [tauto|].
      intros [c H]. discriminate.
  - rewrite containerToItems_snoc.
    destruct (containerToItems es rs containerType itemType) as [c2i all].
    simpl in IH. destruct IH as [K [N [M [NA MA]]]].
    unfold cooc_step.
    set (c1 := has_entity es (r_source r) containerType
               && has_entity es (r_target r) itemType).
    set (c2 := has_entity es (r_target r) containerType
               && has_entity es (r_source r) itemType).
    assert (Hj : forall c i,
               joins r c i && typed c i = true
               <-> (c = r_source r /\ i = r_target r /\ c1 = true)
                   \/ (c = r_target r /\ i = r_source r /\ c2 = true)).
    { intros c i. unfold joins, typed, c1, c2. split.
      - intros H. apply andb_prop in H. destruct H as [H1 H2].
        apply orb_prop in H1. destruct H1 as [H1|H1];
          apply andb_prop in H1; destruct H1 as [Ha Hb];
          apply String.eqb_eq in Ha, Hb; subst c i;
          [left|right]; repeat split; assumption.
      - intros [[Hc [Hi H]]|[Hc [Hi H]]]; subst c i;
          rewrite H, !String.eqb_refl; simpl; rewrite ?orb_true_r;
          reflexivity. }
    assert (Hmem : forall (m : jsmap jsset) (cond : bool) a b c i,
               In i (items_of (if cond then register a b m else m) c)
               <-> In i (items_of m c) \/ (c = a /\ i = b /\ cond = true)).
    { intros m cond a b c i. destruct cond; [|intuition congruence].
      rewrite items_of_register.
      destruct (String.eqb_spec a c) as [->|Hne].
      - rewrite set_add_In. intuition auto.
      - intuition congruence. }
    assert (Hnd : forall (m : jsmap jsset) (cond : bool) a b,
               (forall c, NoDup (items_of m c)) ->
               forall c, NoDup (items_of (if cond then register a b m else m) c)).
    { intros m cond a b Hm c. destruct cond; auto.
      rewrite items_of_register. destruct (String.eqb a c); auto.
      apply set_add_NoDup, Hm. }
    assert (Hk : forall (m : jsmap jsset) (cond : bool) a b,
               NoDup (map_keys m) ->
               NoDup (map_keys (if cond then register a b m else m))).
    { intros m cond a b Hm. destruct cond; auto using register_keys_NoDup. }
    assert (Hall : forall (s : jsset) (cond : bool) b i,
               In i (if cond then set_add b s else s)
               <-> In i s \/ (i = b /\ cond = true)).
    { intros s cond b i. destruct cond; [|intuition congruence].
      rewrite set_add_In. intuition auto. }
    assert (Halln : forall (s : jsset) (cond : bool) b,
               NoDup s -> NoDup (if cond then set_add b s else s)).
    { intros s cond b Hs. destruct cond; auto using set_add_NoDup. }
    replace (let '(c2i0, all0) :=
               if c1 then (register (r_source r) (r_target r) c2i,
                           set_add (r_target r) all)
               else (c2i, all) in
             if c2 then (register (r_target r) (r_source r) c2i0,
                         set_add (r_source r) all0)
             else (c2i0, all0))
      with (let m1 := if c1 then register (r_source r) (r_target r) c2i else c2i in
            let a1 := if c1 then set_add (r_target r) all else all in
            (if c2 then register (r_target r) (r_source r) m1 else m1,
             if c2 then set_add (r_source r) a1 else a1))
      by (destruct c1, c2; reflexivity).
    cbv zeta. cbn [fst snd].
    split; [auto|]. split; [auto|]. split; [|split; [auto|]].
    + intros c i. rewrite holds_snoc, orb_true_iff, Hj, !Hmem, M. tauto.
    + intros i. rewrite !Hall, MA. split.
      * intros [[[c H]|[-> H]]|[-> H]].
        -- exists c. rewrite holds_snoc, H. reflexivity.
        -- exists (r_source r). rewrite holds_snoc, orb_true_iff, Hj. auto.
        -- exists (r_target r). rewrite holds_snoc, orb_true_iff, Hj. auto.
      * intros [c H]. rewrite holds_snoc, orb_true_iff, Hj in H.
        destruct H as [H|[[-> [-> H]]|[-> [-> H]]]]; eauto.
Qed.

End CoocFacts.

Lemma bump_fold_get ks : forall (m : jsmap nat) key,
  getd (fold_left (fun m k => bump k m) ks m) key
  = getd m key + count_occ string_dec ks key.
Proof.
  induction ks as [|k ks IH]; intros m key; simpl; [lia|].
  rewrite IH, bump_get.
  destruct (string_dec k key) as [->|Hne].
  - rewrite String.eqb_refl. lia.
  - apply String.eqb_neq in Hne. rewrite Hne. lia.
Qed.

Lemma bump_fold_keys ks : forall (m : jsmap nat) k,
  In k (map_keys (fold_left (fun m k => bump k m) ks m))
  <-> In k ks \/ In k (map_keys m).
Proof.
  induction ks as [|k0 ks IH]; intros m k; simpl; [tauto|].
  rewrite IH. unfold bump. rewrite map_keys_set_In. intuition auto.
Qed.

Lemma bump_fold_NoDup ks : forall (m : jsmap nat),
  NoDup (map_keys m) ->
  NoDup (map_keys (fold_left (fun m k => bump k m) ks m)).
Proof.
  induction ks as [|k ks IH]; intros m H; simpl; auto.
  apply IH, bump_keys_NoDup, H.
Qed.

Lemma bump_fold_pos ks : forall (m : jsmap nat),
  Forall (fun kv => 1 <= snd kv) m ->
  Forall (fun kv => 1 <= snd kv) (fold_left (fun m k => bump k m) ks m).
Proof.
  induction ks as [|k ks IH]; intros m H; simpl; auto.
  apply IH, bump_values, H.
Qed.

Lemma pair_loop_fold arr : forall m,
  pair_loop arr m = fold_left (fun m k => bump k m) (pair_keys arr) m.
Proof.
  induction arr as [|a rest IH]; intros m; simpl; auto.
  rewrite fold_left_app, IH. f_equal.
  clear. revert m. induction rest as [|b rest IH]; intros m; simpl; auto.
Qed.

Lemma edgesMap_fold (c2i : jsmap jsset) :
  edgesMap c2i
  = fold_left (fun m k => bump k m) (flat_map pair_keys (map_values c2i)) [].
Proof.
  unfold edgesMap. generalize (@nil (string * nat)).
  induction (map_values c2i) as [|items l IH]; intros m; simpl; auto.
  rewrite fold_left_app, IH, pair_loop_fold. reflexivity.
Qed.

Lemma count_occ_flat_map {A : Type} (f : A -> list string) l x :
  count_occ string_dec (flat_map f l) x
  = list_sum (List.map (fun y => count_occ string_dec (f y) x) l).
Proof.
  induction l as [|y l IH]; simpl; auto.
  now rewrite count_occ_app, IH.
Qed.

Lemma edge_key_sym a b : a <> b -> edge_key a b = edge_key b a.
Proof.
  intros Hab. unfold edge_key. destruct (str_ltb a b) eqn:E.
  - now rewrite (str_ltb_asym _ _ E).
  - now rewrite (str_ltb_total _ _ Hab E).
Qed.

Lemma edge_key_pairs a b a' b' :
  bar_free a = true -> bar_free b = true ->
  bar_free a' = true -> bar_free b' = true ->
  a <> b -> a' <> b' ->
  edge_key a b = edge_key a' b' ->
  (a = a' /\ b = b') \/ (a = b' /\ b = a').
Proof.
  intros Ha Hb Ha' Hb' Hab Hab' E.
  destruct (edge_key_form a' b' Hab') as [s [t [Est [Hst Hcase]]]].
  rewrite Est in E.
  assert (Hs : bar_free s = true /\ bar_free t = true).
  { destruct Hcase as [[-> ->]|[-> ->]]; auto. }
  destruct Hs as [Hs Ht].
  apply (edge_key_eq a b s t) in E; auto.
  destruct Hcase as [[-> ->]|[-> ->]]; tauto.
Qed.

Lemma pair_keys_In arr k :
  NoDup arr ->
  (In k (pair_keys arr)
   <-> exists a b, In a arr /\ In b arr /\ a <> b /\ k = edge_key a b).
Proof.
  induction arr as [|x rest IH]; intros Hnd; simpl.
  - split; [tauto|]. intros [a [b [[] _]]].
  - inversion Hnd as [|? ? Hx Hnd']. subst.
    rewrite in_app_iff, in_map_iff, (IH Hnd'). split.
    + intros [[b [<- Hb]]|[a [b [Ha [Hb [Hab ->]]]]]].
      * exists x, b. repeat split; auto. intros ->. contradiction.
      * exists a, b. auto.
    + intros [a [b [Ha [Hb [Hab ->]]]]].
      destruct Ha as [<-|Ha], Hb as [<-|Hb].
      * congruence.
      * left. exists b. auto.
      * left. exists a. split; auto. apply edge_key_sym. congruence.
      * right. exists a, b. auto.
Qed.

Lemma edge_key_map_NoDup x rest :
  ~ In x rest -> NoDup rest -> bar_free x = true ->
  (forall y, In y rest -> bar_free y = true) ->
  NoDup (List.map (edge_key x) rest).
Proof.
  intros Hx Hnd Bx Brest.
  induction rest as [|b rest IHr]; simpl; [constructor|].
  inversion Hnd as [|? ? Hb Hnd']. subst.
  assert (Hxb : x <> b) by (intros ->; apply Hx; now left).
  assert (Hx' : ~ In x rest) by (intros H; apply Hx; now right).
  assert (Bb : bar_free b = true) by (apply Brest; now left).
  constructor.
  - rewrite in_map_iff. intros [b' [E Hb']].
    assert (Bb' : bar_free b' = true) by (apply Brest; now right).
    assert (Hxb' : x <> b') by (intros ->; contradiction).
    apply (edge_key_pairs x b' x b Bx Bb' Bx Bb Hxb' Hxb) in E.
    destruct E as [[_ E]|[E _]]; [subst b'; contradiction|contradiction].
  - apply IHr; auto. intros y Hy. apply Brest. now right.
Qed.

Lemma pair_keys_NoDup arr :
  NoDup arr -> Forall (fun x => bar_free x = true) arr ->
  NoDup (pair_keys arr).
Proof.
  induction arr as [|x rest IH]; intros Hnd Hbf; simpl; [constructor|].
  inversion Hnd as [|? ? Hx Hnd']. inversion Hbf as [|? ? Bx Brest]. subst.
  pose proof Brest as Brest'. rewrite Forall_forall in Brest'.
  apply NoDup_app.
  - now apply edge_key_map_NoDup.
  - now apply IH.
  - intros k Hk1 Hk2. apply in_map_iff in Hk1. destruct Hk1 as [b [E1 Hb]].
    subst k.
    apply (pair_keys_In rest _ Hnd') in Hk2.
    destruct Hk2 as [a' [b' [Ha' [Hb' [Hab' E]]]]].
    assert (Hxb : x <> b) by (intros ->; contradiction).
    apply (edge_key_pairs x b a' b' Bx (Brest' b Hb) (Brest' a' Ha')
                          (Brest' b' Hb') Hxb Hab') in E.
    destruct E as [[E _]|[E _]]; subst x; contradiction.
Qed.

Lemma pair_keys_count arr s t :
  NoDup arr -> Forall (fun x => bar_free x = true) arr ->
  bar_free s = true -> bar_free t = true -> str_ltb s t = true ->
  count_occ string_dec (pair_keys arr) (pair_key s t)
  = if set_has s arr && set_has t arr then 1 else 0.
Proof.
  intros Hnd Hbf Hs Ht Hst.
  pose proof (pair_keys_NoDup arr Hnd Hbf) as Hk.
  rewrite (NoDup_count_occ string_dec) in Hk. specialize (Hk (pair_key s t)).
  assert (Hin : In (pair_key s t) (pair_keys arr)
                <-> set_has s arr && set_has t arr = true).
  { rewrite pair_keys_In by assumption. rewrite andb_true_iff, !set_has_In.
    rewrite Forall_forall in Hbf. split.
    - intros [a [b [Ha [Hb [Hab E]]]]]. symmetry in E.
      apply edge_key_eq in E; auto.
      destruct E as [[-> ->]|[-> ->]]; auto.
    - intros [H1 H2]. exists s, t. repeat split; auto.
      + intros ->. rewrite str_ltb_irrefl in Hst. discriminate.
      + unfold edge_key. now rewrite Hst. }
  destruct (set_has s arr && set_has t arr).
  - assert (H : In (pair_key s t) (pair_keys arr)) by now apply Hin.
    apply (count_occ_In string_dec) in H. lia.
  - apply (count_occ_not_In string_dec). intros H. apply Hin in H. discriminate.
Qed.

Lemma has_entity_In es x ty :
  has_entity es x ty = true
  <-> exists e, In e es /\ e_name e = x /\ e_type e = ty.
Proof.
  unfold has_entity. rewrite existsb_exists. split.
  - intros [e [He H]]. apply andb_prop in H. destruct H as [H1 H2].
    apply String.eqb_eq in H1, H2. eauto.
  - intros [e [He [H1 H2]]]. exists e. split; auto.
    rewrite H1, H2, !String.eqb_refl. reflexivity.
Qed.

Lemma holds_typed es rs ct it c i :
  holds es rs ct it c i = true ->
  has_entity es c ct = true /\ has_entity es i it = true.
Proof.
  unfold holds. intros H. apply andb_prop in H. destruct H as [H H2].
  apply andb_prop in H. tauto.
Qed.

Lemma NoDup_map_eq {A B : Type} (f : A -> B) l x y :
  NoDup (List.map f l) -> In x l -> In y l -> f x = f y -> x = y.
Proof.
  induction l as [|a l IH]; simpl; intros Hnd Hx Hy E; [destruct Hx|].
  inversion Hnd as [|? ? Ha Hnd']. subst.
  destruct Hx as [->|Hx], Hy as [->|Hy]; auto.
  - exfalso. apply Ha. rewrite E. now apply in_map.
  - exfalso. apply Ha. rewrite <- E. now apply in_map.
Qed.

Lemma NoDup_map_filter {A B : Type} (f : A -> B) (p : A -> bool) l :
  NoDup (List.map f l) -> NoDup (List.map f (filter p l)).
Proof.
  induction l as [|a l IH]; simpl; intros Hnd; auto.
  inversion Hnd as [|? ? Ha Hnd']. subst.
  destruct (p a); simpl; auto. constructor; auto.
  intros H. apply Ha. apply in_map_iff in H. destruct H as [x [E Hx]].
  apply filter_In in Hx. apply in_map_iff. exists x. tauto.
Qed.

Lemma NoDup_map_inj_on {A B : Type} (f : A -> B) l :
  NoDup l -> (forall x y, In x l -> In y l -> f x = f y -> x = y) ->
  NoDup (List.map f l).
Proof.
  induction l as [|a l IH]; simpl; intros Hnd Hinj; constructor.
  - inversion Hnd as [|? ? Ha _]. subst. intros H.
    apply in_map_iff in H. destruct H as [x [E Hx]].
    assert (x = a) by (apply Hinj; auto). subst. contradiction.
  - inversion Hnd. subst. apply IH; auto.
Qed.

Lemma list_sum_indicator {A : Type} (p : A -> bool) l :
  list_sum (List.map (fun x => if p x then 1 else 0) l)
  = List.length (filter p l).
Proof.
  induction l as [|a l IH]; simpl; auto. destruct (p a); simpl; lia.
Qed.

Lemma NoDup_keys_entries {V : Type} (m : jsmap V) :
  NoDup (map_keys m) -> NoDup m.
Proof. apply NoDup_map_inv. Qed.

Section CoocEdges.

Variable es : list RawEntity.
Variable rs : list RawRelation.
Variables containerType itemType : string.

Hypothesis names_unique : NoDup (List.map e_name es).
Hypothesis items_bar_free :
  forall e, In e es -> e_type e = itemType -> bar_free (e_name e) = true.

Let c2i := fst (containerToItems es rs containerType itemType).
Let H := holds es rs containerType itemType.

Lemma item_bar_free c i : H c i = true -> bar_free i = true.
Proof.
  intros Hh. apply holds_typed in Hh. destruct Hh as [_ Hi].
  apply has_entity_In in Hi. destruct Hi as [e [He [<- Ht]]]. auto.
Qed.

Lemma c2i_entry c items :
  In (c, items) c2i ->
  NoDup items /\ (forall i, In i items <-> H c i = true).
Proof.
  intros Hin.
  destruct (containerToItems_spec es containerType itemType rs)
    as [K [N [M _]]]. fold c2i in K, N, M.
  pose proof (map_get_of_In c2i c items K Hin) as Hget.
  specialize (N c). specialize (M c). unfold items_of in N, M.
  rewrite Hget in N, M. auto.
Qed.

Lemma c2i_has c i : H c i = true -> exists items, In (c, items) c2i.
Proof.
  intros Hh.
  destruct (containerToItems_spec es containerType itemType rs)
    as [_ [_ [M _]]]. fold c2i in M.
  apply M in Hh. unfold items_of in Hh.
  destruct (map_get c c2i) as [items|] eqn:E; [|destruct Hh].
  exists items. now apply map_get_In.
Qed.

(** The weight stored under the key of [s < t] is the number of containers
    that hold both. *)
Lemma edges_get s t :
  bar_free s = true -> bar_free t = true -> str_ltb s t = true ->
  getd (edgesMap c2i) (pair_key s t)
  = cooccurrences es rs containerType itemType s t.
Proof.
  intros Bs Bt Hst. rewrite edgesMap_fold, bump_fold_get.
  unfold getd at 1. simpl. rewrite count_occ_flat_map.
  unfold map_values. rewrite map_map.
  rewrite (map_ext_in _ (fun kv : string * jsset =>
                           if set_has s (snd kv) && set_has t (snd kv)
                           then 1 else 0)).
  2:{ intros [c items] Hin. simpl.
      destruct (c2i_entry c items Hin) as [Hnd Hmem].
      apply pair_keys_count; auto.
      apply Forall_forall. intros i Hi. apply (item_bar_free c), Hmem, Hi. }
  rewrite list_sum_indicator.
  rewrite <- (length_map fst).
  unfold cooccurrences. apply Permutation_length, NoDup_Permutation.
  - apply NoDup_map_filter.
    destruct (containerToItems_spec es containerType itemType rs) as [K _].
    exact K.
  - apply NoDup_filter. unfold container_names.
    apply NoDup_map_filter, names_unique.
  - intros c. rewrite in_map_iff, filter_In. fold H. split.
    + intros [[c' items] [E Hin]]. simpl in E. subst c'.
      apply filter_In in Hin. destruct Hin as [Hin Hp]. simpl in Hp.
      destruct (c2i_entry c items Hin) as [_ Hmem].
      apply andb_prop in Hp. destruct Hp as [Hs Ht].
      apply set_has_In, Hmem in Hs. apply set_has_In, Hmem in Ht.
      split; [|now rewrite Hs, Ht].
      apply holds_typed in Hs. destruct Hs as [Hc _].
      apply has_entity_In in Hc. destruct Hc as [e [He [<- Hty]]].
      unfold container_names. apply in_map, filter_In. split; auto.
      rewrite Hty. apply String.eqb_refl.
    + intros [_ Hp]. apply andb_prop in Hp. destruct Hp as [Hs Ht].
      destruct (c2i_has c s Hs) as [items Hin].
      exists (c, items). split; auto. apply filter_In. split; auto. simpl.
      destruct (c2i_entry c items Hin) as [_ Hmem].
      apply Hmem, set_has_In in Hs. apply Hmem, set_has_In in Ht.
      now rewrite Hs, Ht.
Qed.

Lemma edges_keys_NoDup : NoDup (map_keys (edgesMap c2i)).
Proof. rewrite edgesMap_fold. apply bump_fold_NoDup. constructor. Qed.

(** Every stored key is the ordered key of two items of one container. *)
Lemma edges_key_form k w :
  In (k, w) (edgesMap c2i) ->
  exists s t,
    k = pair_key s t /\ str_ltb s t = true
    /\ bar_free s = true /\ bar_free t = true
    /\ w = cooccurrences es rs containerType itemType s t /\ 1 <= w.
Proof.
  intros Hin.
  assert (Hk : In k (map_keys (edgesMap c2i))).
  { unfold map_keys. apply in_map_iff. exists (k, w). auto. }
  assert (Hw : 1 <= w).
  { pose proof (bump_fold_pos (flat_map pair_keys (map_values c2i)) []
                              (Forall_nil _)) as Hp.
    rewrite <- edgesMap_fold in Hp. rewrite Forall_forall in Hp.
    apply (Hp (k, w) Hin). }
  rewrite edgesMap_fold in Hk. apply bump_fold_keys in Hk.
  destruct Hk as [Hk|[]]. apply in_flat_map in Hk.
  destruct Hk as [items [Hitems Hk]].
  unfold map_values in Hitems. apply in_map_iff in Hitems.
  destruct Hitems as [[c items'] [E Hentry]]. simpl in E. subst items'.
  destruct (c2i_entry c items Hentry) as [Hnd Hmem].
  apply (pair_keys_In items k Hnd) in Hk.
  destruct Hk as [a [b [Ha [Hb [Hab ->]]]]].
  destruct (edge_key_form a b Hab) as [s [t [Est [Hst Hcase]]]].
  assert (Ba : bar_free a = true) by (apply (item_bar_free c), Hmem, Ha).
  assert (Bb : bar_free b = true) by (apply (item_bar_free c), Hmem, Hb).
  assert (Bst : bar_free s = true /\ bar_free t = true).
  { destruct Hcase as [[-> ->]|[-> ->]]; auto. }
  destruct Bst as [Bs Bt].
  exists s, t. repeat split; auto.
  rewrite <- (edges_get s t Bs Bt Hst). rewrite <- Est.
  pose proof (map_get_of_In _ _ _ edges_keys_NoDup Hin) as Hget.
  unfold getd. now rewrite Hget.
Qed.

End CoocEdges.

(** *** C8 *)

(** C8, as the specification words it, fails when the container type and
    the item type are the same: a relation [a -> b] between two entities
    of that type registers each under the other, and both of them, which
    are container entities, come out as nodes. *)
Lemma C8_cooccurrence_counterexample :
  let es := [mkEntity "T" "a"; mkEntity "T" "b"] in
  let rs := [mkRelation "a" "r" "b"] in
  let g := generateCooccurrenceGraph es rs "T" "T" in
  node_ids (nodes g) = ["b"%string; "a"%string]
  /\ has_entity es "a" "T" = true
  /\ has_entity es "b" "T" = true.
Proof. repeat split. Qed.

(** C8, amended: when the container type differs from the item type,
    entity names are unique and no item name contains the key separator
    ['|'], the builder emits exactly one edge per pair of items [s < t]
    that co-occur under at least one container, weighted by the number of
    containers that hold both, and no other edge; its nodes are the items
    some container holds, all of the item type, and none of them is a
    container entity.  On the example [X: a, b] and [Y: b, c] the edges are
    exactly [(a, b)] and [(b, c)], each of weight 1. *)
Theorem C8_cooccurrence_amended es rs containerType itemType :
  containerType <> itemType ->
  NoDup (List.map e_name es) ->
  (forall e, In e es -> e_type e = itemType -> bar_free (e_name e) = true) ->
  let g := generateCooccurrenceGraph es rs containerType itemType in
  let cooc := cooccurrences es rs containerType itemType in
  (forall l, In l (links g)
             <-> exists s t, str_ltb s t = true /\ 1 <= cooc s t
                             /\ l = cooc_edge s t (cooc s t))
  /\ NoDup (links g)
  /\ (forall n, In n (nodes g) ->
        group n = itemType
        /\ has_entity es (id n) itemType = true
        /\ has_entity es (id n) containerType = false)
  /\ (forall i, In i (node_ids (nodes g))
                <-> exists c, holds es rs containerType itemType c i = true)
  /\ links (generateCooccurrenceGraph example_entities example_relations
                                      "container" "item")
     = [cooc_edge "a" "b" 1; cooc_edge "b" "c" 1].
Proof.
  intros Htypes Hnames Hbar g cooc.
  pose proof (containerToItems_spec es containerType itemType rs) as Hspec.
  pose proof (edges_get es rs containerType itemType Hnames Hbar) as Hget.
  pose proof (edges_key_form es rs containerType itemType Hnames Hbar) as Hform.
  pose proof (edges_keys_NoDup es rs containerType itemType) as Hkeys.
  unfold g, generateCooccurrenceGraph.
  destruct (containerToItems es rs containerType itemType) as [c2i all].
  simpl in Hspec, Hget, Hform, Hkeys. cbn [links nodes].
  destruct Hspec as [_ [_ [_ [NA MA]]]].
  assert (Hlink : forall k w s t,
             k = pair_key s t -> bar_free s = true -> bar_free t = true ->
             cooc_link (k, w) = cooc_edge s t w).
  { intros k w s t -> Bs Bt. unfold cooc_link. cbn [fst snd].
    now rewrite key_parts_pair. }
  split; [|split; [|split; [|split]]].
  - intros l. rewrite in_map_iff. split.
    + intros [[k w] [<- Hin]].
      destruct (Hform k w Hin) as [s [t [Ek [Hst [Bs [Bt [Ew Hw]]]]]]].
      exists s, t. fold cooc in Ew. subst w. repeat split; auto.
    + intros [s [t [Hst [Hw ->]]]].
      assert (Hboth : exists c, holds es rs containerType itemType c s = true
                                /\ holds es rs containerType itemType c t = true).
      { unfold cooc, cooccurrences in Hw.
        destruct (filter _ (container_names es containerType)) as [|c l'] eqn:E;
          [simpl in Hw; lia|].
        assert (Hc : In c (c :: l')) by now left.
        rewrite <- E in Hc. apply filter_In in Hc. destruct Hc as [_ Hc].
        apply andb_prop in Hc. eauto. }
      destruct Hboth as [c [Hs Ht]].
      pose proof (item_bar_free es rs containerType itemType Hbar c s Hs) as Bs.
      pose proof (item_bar_free es rs containerType itemType Hbar c t Ht) as Bt.
      specialize (Hget s t Bs Bt Hst). fold cooc in Hget.
      unfold getd in Hget.
      destruct (map_get (pair_key s t) (edgesMap c2i)) as [w|] eqn:E; [|lia].
      subst w. exists (pair_key s t, cooc s t). split.
      * now apply Hlink.
      * now apply map_get_In.
  - apply NoDup_map_inj_on.
    + now apply NoDup_keys_entries.
    + intros [k w] [k' w'] Hin Hin' E.
      destruct (Hform k w Hin) as [s [t [Ek [_ [Bs [Bt _]]]]]].
      destruct (Hform k' w' Hin') as [s' [t' [Ek' [_ [Bs' [Bt' _]]]]]].
      rewrite (Hlink k w s t Ek Bs Bt), (Hlink k' w' s' t' Ek' Bs' Bt') in E.
      unfold cooc_edge in E. inversion E as [[E1 E2 E3]].
      apply Nat2Z.inj in E3. subst. reflexivity.
  - intros n Hn. apply in_map_iff in Hn. destruct Hn as [i [<- Hi]]. simpl.
    apply MA in Hi. destruct Hi as [c Hc]. apply holds_typed in Hc.
    destruct Hc as [_ Hi]. split; auto. split; auto.
    destruct (has_entity es i containerType) eqn:E; auto.
    apply has_entity_In in Hi, E.
    destruct Hi as [e1 [H1 [N1 T1]]]. destruct E as [e2 [H2 [N2 T2]]].
    assert (e1 = e2) by (apply (NoDup_map_eq e_name es); auto; congruence).
    subst e2. congruence.
  - intros i. unfold node_ids. rewrite map_map. simpl. rewrite map_id.
    apply MA.
  - reflexivity.
Qed.

Lemma C8_cooccurrence_amended_witness :
  let g := generateCooccurrenceGraph example_entities example_relations
                                     "container" "item" in
  let cooc := cooccurrences example_entities example_relations
                            "container" "item" in
  (forall l, In l (links g)
             <-> exists s t, str_ltb s t = true /\ 1 <= cooc s t
                             /\ l = cooc_edge s t (cooc s t))
  /\ NoDup (links g)
  /\ (forall n, In n (nodes g) ->
        group n = "item"%string
        /\ has_entity example_entities (id n) "item" = true
        /\ has_entity example_entities (id n) "container" = false)
  /\ (forall i, In i (node_ids (nodes g))
                <-> exists c, holds example_entities example_relations
                                    "container" "item" c i = true)
  /\ links (generateCooccurrenceGraph example_entities example_relations
                                      "container" "item")
     = [cooc_edge "a" "b" 1; cooc_edge "b" "c" 1].
Proof.
  apply (C8_cooccurrence_amended example_entities example_relations
                                 "container" "item").
  - discriminate.
  - repeat constructor; simpl; intuition discriminate.
  - intros e He Ht. simpl in He.
    repeat (destruct He as [<-|He]; [reflexivity|]). destruct He.
Defined.

(** ** Centrality *)

Lemma nn_not_NaN x : nn x -> x <> NaN.
Proof. intros [->|[q [-> _]]]; discriminate. Qed.

Lemma nn_add a b : nn a -> nn b -> nn (add a b).
Proof.
  intros [->|[x [-> Hx]]] [->|[y [-> Hy]]]; simpl; try (now left).
  right. eexists. split; [reflexivity|].
  rewrite <- (Qplus_0_r 0). now apply Qplus_le_compat.
Qed.

Lemma pos_nn a : pos_num a -> nn a.
Proof.
  intros [->|[q [-> Hq]]]; [now left|]. right. exists q. split; auto.
  now apply Qlt_le_weak.
Qed.

Lemma pos_one_plus a : nn a -> pos_num (add (Fin 1) a).
Proof.
  intros [->|[q [-> Hq]]]; simpl; [now left|].
  right. eexists. split; [reflexivity|].
  apply Qlt_le_trans with 1%Q; [reflexivity|].
  rewrite <- (Qplus_0_r 1) at 1. apply Qplus_le_compat; auto. apply Qle_refl.
Qed.

Lemma pos_mul a b : pos_num a -> pos_num b -> pos_num (mul a b).
Proof.
  intros [->|[x [-> Hx]]] [->|[y [-> Hy]]]; simpl.
  - now left.
  - apply Qgt_alt in Hy. rewrite Hy. now left.
  - apply Qgt_alt in Hx. rewrite Hx. now left.
  - right. eexists. split; [reflexivity|].
    rewrite <- (Qmult_0_l y). apply Qmult_lt_compat_r; auto.
Qed.

Lemma pos_div_nat a b : 1 <= a -> pos_num (div (of_nat a) (of_nat b)).
Proof.
  intros Ha. unfold div, of_nat.
  assert (Hpa : (0 < inject_Z (Z.of_nat a))%Q).
  { unfold Qlt, inject_Z. simpl. lia. }
  destruct (Qeqb (inject_Z (Z.of_nat b)) 0) eqn:E.
  - left. apply Qgt_alt in Hpa. now rewrite Hpa.
  - right. eexists. split; [reflexivity|].
    assert (Hpb : (0 < inject_Z (Z.of_nat b))%Q).
    { destruct b.
      - exfalso. assert (Qeqb (inject_Z (Z.of_nat 0)) 0 = true) by reflexivity.
        congruence.
      - unfold Qlt, inject_Z. simpl. lia. }
    apply Qlt_shift_div_l; auto.
Qed.

Lemma sigma_pos_set (sigma : jsmap nat) w b x :
  sigma_pos sigma x ->
  sigma_pos (map_set w (match map_get w sigma with
                        | Some a => a | None => 0 end + b) sigma) x.
Proof.
  intros [n [Hn H1]]. unfold sigma_pos. rewrite map_get_set.
  destruct (String.eqb_spec w x) as [->|Hne].
  - rewrite Hn. eexists. split; [reflexivity|]. lia.
  - exists n. auto.
Qed.

Lemma reached_set (d : jsmap Z) w dw x :
  (0 <= dw)%Z -> reached d x -> reached (map_set w dw d) x.
Proof.
  intros Hw [dx [Hx H0]]. unfold reached. rewrite map_get_set.
  destruct (String.eqb w x); eauto.
Qed.

Lemma map_has_set {V : Type} (m : jsmap V) k v x :
  map_has x (map_set k v m) = true -> x = k \/ map_has x m = true.
Proof.
  intros H. apply map_has_In, map_keys_set_In in H.
  destruct H as [H|H]; auto. right. now apply map_has_In.
Qed.

Lemma map_has_get {V : Type} (m : jsmap V) k v :
  map_get k m = Some v -> map_has k m = true.
Proof. unfold map_has. now intros ->. Qed.

(** One edge of the search keeps the invariant, and keeps the node being
    expanded reached and counted. *)
Lemma brandes_edge_inv ids v st e :
  brandes_inv ids st ->
  reached (b_d st) v -> sigma_pos (b_sigma st) v ->
  brandes_inv ids (brandes_edge v st e)
  /\ reached (b_d (brandes_edge v st e)) v
  /\ sigma_pos (b_sigma (brandes_edge v st e)) v.
Proof.
  intros [HK [HQ [HS HP]]] [dv [Edv Hdv]] Hsv.
  unfold brandes_edge. set (w := nb_id e). rewrite Edv.
  (* first test: discover [w] *)
  set (st1 := match map_get w (b_d st) with
              | Some dw =>
                  if (dw <? 0)%Z
                  then mkBrandes (b_Q st ++ [w]) (b_S st) (b_P st) (b_sigma st)
                                 (map_set w (dv + 1)%Z (b_d st))
                  else st
              | None => st
              end).
  assert (H1 : (forall x, map_has x (b_d st1) = true -> In x ids)
               /\ (forall x, reached (b_d st) x -> reached (b_d st1) x)
               /\ b_sigma st1 = b_sigma st /\ b_P st1 = b_P st
               /\ b_S st1 = b_S st
               /\ (forall x, In x (b_Q st1) ->
                     (In x (b_Q st) \/
                      (x = w /\ map_get w (b_d st1) = Some (dv + 1)%Z
                       /\ w <> v)))
               /\ map_get v (b_d st1) = Some dv).
  { unfold st1. destruct (map_get w (b_d st)) as [dw|] eqn:Edw.
    - destruct (Z.ltb_spec dw 0) as [Hneg|Hpos]; simpl.
      + assert (Hwv : w <> v) by (intros E; rewrite E in Edw; rewrite Edv in Edw;
                                  inversion Edw; lia).
        repeat split; auto.
        * intros x Hx. apply map_has_set in Hx. destruct Hx as [->|Hx]; auto.
          apply HK. eapply map_has_get; eauto.
        * intros x Hx. apply reached_set; auto. lia.
        * intros x Hx. apply in_app_or in Hx. destruct Hx as [Hx|[<-|[]]]; auto.
          right. repeat split; auto. apply map_get_set_same.
        * rewrite map_get_set_other; auto.
      + repeat split; auto.
    - repeat split; auto. }
  clearbody st1. destruct H1 as [HK1 [HR1 [Es1 [EP1 [ES1 [HQ1 Edv1]]]]]].
  rewrite Edv1.
  assert (Hsv1 : sigma_pos (b_sigma st1) v) by now rewrite Es1.
  destruct (map_get w (b_d st1)) as [dw|] eqn:Edw1.
  - destruct (Z.eqb_spec dw (dv + 1)) as [->|Hne]; simpl.
    + (* [w] is one step further: count the paths through [v] *)
      destruct Hsv1 as [sv [Esv Hsv1]]. rewrite Esv.
      assert (Hmono : forall x, sigma_pos (b_sigma st1) x ->
                        sigma_pos (map_set w
                                     (match map_get w (b_sigma st1) with
                                      | Some a => a | None => 0 end + sv)
                                     (b_sigma st1)) x)
        by (intros x; apply sigma_pos_set).
      assert (Hw : sigma_pos (map_set w
                                (match map_get w (b_sigma st1) with
                                 | Some a => a | None => 0 end + sv)
                                (b_sigma st1)) w).
      { unfold sigma_pos. rewrite map_get_set_same. eexists.
        split; [reflexivity|]. lia. }
      split; [|split].
      * unfold brandes_inv. simpl. split; [exact HK1|]. split; [|split].
        -- intros x Hx. destruct (HQ1 x Hx) as [Hq|[-> [Eq _]]].
           ++ destruct (HQ x Hq) as [R S0]. split; auto.
              apply Hmono. now rewrite Es1.
           ++ split; auto. exists (dv + 1)%Z. split; auto. lia.
        -- intros x Hx. rewrite ES1 in Hx. destruct (HS x Hx) as [R S0].
           split; auto. apply Hmono. now rewrite Es1.
        -- intros w' l v'. rewrite map_get_set.
           destruct (String.eqb_spec w w') as [<-|Hne'].
           ++ intros E Hin. inversion E. subst l. clear E.
              apply in_app_or in Hin. destruct Hin as [Hin|[<-|[]]].
              ** rewrite EP1 in Hin.
                 destruct (map_get w (b_P st)) as [p|] eqn:Ep; [|destruct Hin].
                 destruct (HP w p v' Ep Hin) as [R S0]. split; auto.
                 apply Hmono. now rewrite Es1.
              ** split.
                 --- exists dv. auto.
                 --- apply Hmono. exists sv. auto.
           ++ intros E Hin. rewrite EP1 in E.
              destruct (HP w' l v' E Hin) as [R S0]. split; auto.
              apply Hmono. now rewrite Es1.
      * exists dv. auto.
      * apply Hmono. exists sv. auto.
    + split; [|split]; auto; [|exists dv; auto].
      unfold brandes_inv. split; [exact HK1|]. split; [|split].
      * intros x Hx. destruct (HQ1 x Hx) as [Hq|[-> [Eq _]]].
        -- destruct (HQ x Hq) as [R S0]. rewrite Es1. auto.
        -- rewrite Eq in Edw1. inversion Edw1. congruence.
      * intros x Hx. rewrite ES1 in Hx. destruct (HS x Hx) as [R S0].
        rewrite Es1. auto.
      * intros w' l v' E Hin. rewrite EP1 in E.
        destruct (HP w' l v' E Hin) as [R S0]. rewrite Es1. auto.
  - split; [|split]; auto; [|exists dv; auto].
    unfold brandes_inv. split; [exact HK1|]. split; [|split].
    + intros x Hx. destruct (HQ1 x Hx) as [Hq|[-> [Eq _]]].
      * destruct (HQ x Hq) as [R S0]. rewrite Es1. auto.
      * congruence.
    + intros x Hx. rewrite ES1 in Hx. destruct (HS x Hx) as [R S0].
      rewrite Es1. auto.
    + intros w' l v' E Hin. rewrite EP1 in E.
      destruct (HP w' l v' E Hin) as [R S0]. rewrite Es1. auto.
Qed.

Lemma brandes_edges_inv ids v es : forall st,
  brandes_inv ids st ->
  reached (b_d st) v -> sigma_pos (b_sigma st) v ->
  brandes_inv ids (fold_left (brandes_edge v) es st).
Proof.
  induction es as [|e es IH]; simpl; auto.
  intros st Hi Hr Hs.
  destruct (brandes_edge_inv ids v st e Hi Hr Hs) as [Hi' [Hr' Hs']].
  now apply IH.
Qed.

Lemma brandes_bfs_inv ids adj fuel : forall st,
  brandes_inv ids st -> brandes_inv ids (brandes_bfs fuel adj st).
Proof.
  induction fuel as [|fuel IH]; simpl; auto.
  intros st Hi. destruct (b_Q st) as [|v q] eqn:EQ; auto.
  apply IH. destruct Hi as [HK [HQ [HS HP]]].
  destruct (HQ v) as [Rv Sv]; [rewrite EQ; now left|].
  apply brandes_edges_inv; auto.
  unfold brandes_inv. simpl. split; [exact HK|]. split; [|split].
  - intros x Hx. apply HQ. rewrite EQ. now right.
  - intros x Hx. apply in_app_or in Hx. destruct Hx as [Hx|[<-|[]]]; auto.
  - exact HP.
Qed.

Lemma brandes_init_inv ns s :
  In s (node_ids ns) -> brandes_inv (node_ids ns) (brandes_init ns s).
Proof.
  intros Hs. unfold brandes_inv, brandes_init. simpl.
  split; [|split; [|split]].
  - intros x Hx. apply map_has_set in Hx. destruct Hx as [->|Hx]; auto.
    unfold map_has in Hx.
    rewrite (init_get (fun _ => (-1)%Z)) in Hx.
    destruct (in_dec string_dec x (node_ids ns)); auto. discriminate.
  - intros x [<-|[]]. split.
    + exists 0%Z. split; [apply map_get_set_same|lia].
    + exists 1. split; [apply map_get_set_same|lia].
  - intros x [].
  - intros w l v E Hin.
    rewrite (init_get (fun _ => @nil string)) in E.
    destruct (in_dec string_dec w (node_ids ns)); inversion E.
    subst l. destruct Hin.
Qed.

(** Values of a numeric record at the node ids. *)
Lemma nn_set (m : jsmap number) k v (ids : list string) :
  nn v -> (forall x, In x ids -> nn (get_num m x)) ->
  forall x, In x ids -> nn (get_num (map_set k v m) x).
Proof.
  intros Hv Hm x Hx. unfold get_num. rewrite map_get_set.
  destruct (String.eqb k x); auto. now apply Hm.
Qed.

Lemma back_edge_nn ids sigma w delta v :
  In v ids -> In w ids -> sigma_pos sigma v -> sigma_pos sigma w ->
  (forall x, In x ids -> nn (get_num delta x)) ->
  forall x, In x ids -> nn (get_num (back_edge sigma w delta v) x).
Proof.
  intros Hv Hw [a [Ea Ha]] [b [Eb Hb]] Hd. unfold back_edge.
  apply nn_set; auto.
  apply nn_add; auto. apply pos_nn. apply pos_mul.
  - rewrite Ea, Eb. now apply pos_div_nat.
  - apply pos_one_plus. auto.
Qed.

Lemma reached_In ids st v :
  brandes_inv ids st -> reached (b_d st) v -> In v ids.
Proof.
  intros [HK _] [dv [E _]]. apply HK. eapply map_has_get; eauto.
Qed.

Lemma back_edges_nn ids sigma w vs : forall delta,
  In w ids -> sigma_pos sigma w ->
  (forall v, In v vs -> In v ids /\ sigma_pos sigma v) ->
  (forall x, In x ids -> nn (get_num delta x)) ->
  forall x, In x ids ->
    nn (get_num (fold_left (back_edge sigma w) vs delta) x).
Proof.
  induction vs as [|v vs IH]; simpl; auto.
  intros delta Hw Sw Hvs Hd. apply IH; auto.
  destruct (Hvs v (or_introl eq_refl)) as [Hv Sv].
  now apply (back_edge_nn ids).
Qed.

Lemma back_step_nn ids s st acc w :
  brandes_inv ids st -> In w (b_S st) ->
  (forall x, In x ids -> nn (get_num (fst acc) x)) ->
  (forall x, In x ids -> nn (get_num (snd acc) x)) ->
  (forall x, In x ids -> nn (get_num (fst (back_step s st acc w)) x))
  /\ (forall x, In x ids -> nn (get_num (snd (back_step s st acc w)) x)).
Proof.
  intros Hi Hw Hd Hc. pose proof Hi as [HK [HQ [HS HP]]].
  destruct (HS w Hw) as [Rw Sw].
  assert (Iw : In w ids) by (eapply reached_In; eauto).
  assert (Hdelta : forall x, In x ids ->
            nn (get_num (fold_left (back_edge (b_sigma st) w)
                           (match map_get w (b_P st) with
                            | Some p => p | None => [] end) (fst acc)) x)).
  { apply back_edges_nn; auto. intros v Hv.
    destruct (map_get w (b_P st)) as [p|] eqn:Ep; [|destruct Hv].
    destruct (HP w p v Ep Hv) as [Rv Sv]. split; auto.
    eapply reached_In; eauto. }
  unfold back_step. cbn [fst snd]. split; auto.
  destruct (String.eqb w s); auto.
  apply nn_set; auto. apply nn_add; auto.
Qed.

Lemma back_steps_nn ids s st ws : forall acc,
  brandes_inv ids st -> (forall w, In w ws -> In w (b_S st)) ->
  (forall x, In x ids -> nn (get_num (fst acc) x)) ->
  (forall x, In x ids -> nn (get_num (snd acc) x)) ->
  forall x, In x ids ->
    nn (get_num (snd (fold_left (back_step s st) ws acc)) x).
Proof.
  induction ws as [|w ws IH]; simpl; auto.
  intros acc Hi Hws Hd Hc.
  destruct (back_step_nn ids s st acc w Hi (Hws w (or_introl eq_refl)) Hd Hc)
    as [Hd' Hc'].
  apply IH; auto.
Qed.

Lemma zero_init_nn ns x :
  In x (node_ids ns) ->
  nn (get_num (fold_left (fun m v => map_set (id v) (Fin 0) m) ns []) x).
Proof.
  intros Hx. unfold get_num. rewrite (init_get (fun _ => Fin 0)).
  destruct (in_dec string_dec x (node_ids ns)) as [_|n]; [|contradiction].
  right. exists 0%Q. split; [reflexivity|apply Qle_refl].
Qed.

Lemma brandes_source_nn ns adj CB s :
  In s ns ->
  (forall x, In x (node_ids ns) -> nn (get_num CB x)) ->
  forall x, In x (node_ids ns) -> nn (get_num (brandes_source ns adj CB s) x).
Proof.
  intros Hs Hc. unfold brandes_source.
  apply back_steps_nn; auto.
  - apply brandes_bfs_inv, brandes_init_inv. unfold node_ids. now apply in_map.
  - intros w Hw. now apply in_rev.
  - intros x Hx. cbn [fst]. now apply zero_init_nn.
Qed.

(** Every betweenness score is a non-negative number or [+Infinity]. *)
Lemma calculateBetweenness_nn ns adj x :
  In x (node_ids ns) -> nn (get_num (calculateBetweenness ns adj) x).
Proof.
  unfold calculateBetweenness.
  assert (H : forall srcs CB,
            (forall s, In s srcs -> In s ns) ->
            (forall y, In y (node_ids ns) -> nn (get_num CB y)) ->
            forall y, In y (node_ids ns) ->
              nn (get_num (fold_left (brandes_source ns adj) srcs CB) y)).
  { induction srcs as [|s srcs IH]; simpl; auto.
    intros CB Hs Hc. apply IH; auto.
    apply brandes_source_nn; auto. }
  intros Hx. apply H; auto. intros y Hy. now apply zero_init_nn.
Qed.

Lemma closeness_of_nn adj x : nn (closeness_of adj x).
Proof.
  unfold closeness_of.
  destruct (Nat.ltb_spec 0 (c_count (closeness_bfs (closeness_fuel adj) adj
                                       (mkCloseness [(x, 0)] [x] 0 0)))).
  - apply pos_nn, pos_div_nat. lia.
  - right. exists 0%Q. split; [reflexivity|apply Qle_refl].
Qed.

Lemma calculateCloseness_get ns adj x :
  In x (node_ids ns) ->
  get_num (calculateCloseness ns adj) x = closeness_of adj x.
Proof.
  intros Hx. unfold get_num, calculateCloseness.
  rewrite (init_get (closeness_of adj)).
  destruct (in_dec string_dec x (node_ids ns)); [reflexivity|contradiction].
Qed.

(** Sorting by [(a, b) => b.val - a.val] puts entries without NaN in
    non-increasing order of value. *)
Lemma ranking_sorted l :
  Forall (fun r => val r <> NaN) l ->
  StronglySorted (fun a b => geb (val a) (val b) = true) (js_sort val_after l).
Proof.
  intros Hl. apply Sorted_StronglySorted.
  { intros a b c. apply geb_trans. }
  apply (js_sort_Sorted val_after (fun r => val r <> NaN)); auto.
  - intros x y Hx Hy H. unfold val_after in H.
    rewrite desc_after in H by assumption.
    now apply negb_false_iff in H.
  - intros x y Hx Hy H. unfold val_after in H.
    rewrite desc_after in H by assumption.
    apply negb_true_iff in H. now apply geb_total.
Qed.

Lemma ranking_ids (f : string -> number) ns :
  Permutation
    (List.map rk_id (js_sort val_after
                       (List.map (fun n => mkRanked (id n) (f (id n))) ns)))
    (node_ids ns).
Proof.
  eapply perm_trans.
  - apply Permutation_map, js_sort_perm.
  - rewrite map_map. simpl. apply Permutation_refl.
Qed.

Lemma top5_intro (f : string -> number) ns :
  (forall x, In x (node_ids ns) -> f x <> NaN) ->
  let full := js_sort val_after
                (List.map (fun n => mkRanked (id n) (f (id n))) ns) in
  top5_of ns (firstn 5 full) full.
Proof.
  intros Hf full. unfold top5_of. split; [reflexivity|]. split; [|split].
  - rewrite length_firstn. unfold full. rewrite js_sort_length, length_map.
    reflexivity.
  - apply ranking_ids.
  - apply ranking_sorted. apply Forall_forall. intros r Hr.
    apply in_map_iff in Hr. destruct Hr as [n [<- Hn]]. simpl.
    apply Hf. unfold node_ids. now apply in_map.
Qed.

(** *** C1 *)

(** C1 fails as stated: on six nodes without links each returned list has
    five entries, and node ["f"] is in none of them. *)
Lemma C1_full_ranking_counterexample :
  let res := calculateCentralityRankings six_nodes [] in
  List.length six_nodes = 6
  /\ List.length (degree res) = 5
  /\ List.length (betweenness res) = 5
  /\ List.length (closeness_ranking res) = 5
  /\ ~ In "f"%string (List.map rk_id (degree res)).
Proof.
  vm_compute. repeat split; try reflexivity.
  intros H. repeat (destruct H as [H|H]; [discriminate H|]). exact H.
Qed.

(** C1, amended: each of the three returned lists (degree, betweenness,
    closeness) is the first five entries of a ranking that has one
    [{id, val}] entry per input node and is sorted descending by [val];
    a returned list therefore has [min 5 n] entries for [n] nodes and is
    the full ranking only when there are at most five nodes. *)
Theorem C1_top_five_of_full_ranking ns ls :
  let res := calculateCentralityRankings ns ls in
  top5_of ns (degree res) (degree_ranking ns ls)
  /\ top5_of ns (betweenness res) (betweenness_ranking ns ls)
  /\ top5_of ns (closeness_ranking res) (closeness_full_ranking ns ls).
Proof.
  intros res. unfold res, calculateCentralityRankings.
  cbn [degree betweenness closeness_ranking]. split; [|split].
  - apply (top5_intro (degree_of (getAdjacency ns ls false))).
    intros x _. unfold degree_of, of_nat. discriminate.
  - apply (top5_intro
             (get_num (calculateBetweenness ns (getAdjacency ns ls false)))).
    intros x Hx. now apply nn_not_NaN, calculateBetweenness_nn.
  - apply (top5_intro
             (get_num (calculateCloseness ns (getAdjacency ns ls false)))).
    intros x Hx. rewrite calculateCloseness_get by assumption.
    apply nn_not_NaN, closeness_of_nn.
Qed.

(* ================================================================== *)
(** * Further properties of the analysis code *)
(* ================================================================== *)

(** ** The searches of the centrality calculator end *)

Lemma unseen_set d w dw val :
  map_get w d = Some dw -> (dw < 0)%Z -> (0 <= val)%Z ->
  S (unseen (map_set w val d)) = unseen d.
Proof.
  unfold unseen. induction d as [|[k x] d IH]; simpl; [discriminate|].
  intros E Hn Hv. destruct (String.eqb k w) eqn:Ek.
  - inversion E. subst x. simpl.
    destruct (Z.ltb_spec dw 0); [|lia]. destruct (Z.ltb_spec val 0); [lia|].
    reflexivity.
  - simpl. destruct (x <? 0)%Z; simpl; rewrite <- (IH E Hn Hv); reflexivity.
Qed.

Lemma brandes_edge_measure v st e :
  reached (b_d st) v ->
  brandes_measure (brandes_edge v st e) = brandes_measure st
  /\ reached (b_d (brandes_edge v st e)) v.
Proof.
  intros [dv [Edv Hdv]]. unfold brandes_edge. set (w := nb_id e).
  rewrite Edv.
  set (st1 := match map_get w (b_d st) with
              | Some dw =>
                  if (dw <? 0)%Z
                  then mkBrandes (b_Q st ++ [w]) (b_S st) (b_P st) (b_sigma st)
                                 (map_set w (dv + 1)%Z (b_d st))
                  else st
              | None => st
              end).
  assert (H1 : brandes_measure st1 = brandes_measure st
               /\ map_get v (b_d st1) = Some dv).
  { unfold st1. destruct (map_get w (b_d st)) as [dw|] eqn:Edw; auto.
    destruct (Z.ltb_spec dw 0) as [Hneg|Hpos]; auto.
    unfold brandes_measure. simpl. split.
    - rewrite length_app. simpl.
      rewrite <- (unseen_set (b_d st) w dw (dv + 1)%Z Edw Hneg) by lia. lia.
    - rewrite map_get_set_other; auto.
      intros E. rewrite E in Edw. rewrite Edv in Edw. inversion Edw. lia. }
  clearbody st1. destruct H1 as [Hm Ev]. rewrite Ev.
  assert (Hr : reached (b_d st1) v) by (exists dv; auto).
  destruct (map_get w (b_d st1)) as [dw|]; auto.
  destruct (dw =? dv + 1)%Z; auto.
Qed.

Lemma brandes_edges_measure v es : forall st,
  reached (b_d st) v ->
  brandes_measure (fold_left (brandes_edge v) es st) = brandes_measure st.
Proof.
  induction es as [|e es IH]; simpl; auto.
  intros st Hr. destruct (brandes_edge_measure v st e Hr) as [Hm Hr'].
  rewrite IH; auto.
Qed.

Lemma brandes_bfs_empty ids adj fuel : forall st,
  brandes_inv ids st -> brandes_measure st <= fuel ->
  b_Q (brandes_bfs fuel adj st) = [].
Proof.
  induction fuel as [|fuel IH]; intros st Hi Hm.
  - simpl. unfold brandes_measure in Hm. destruct (b_Q st); auto.
    simpl in Hm. lia.
  - simpl. destruct (b_Q st) as [|v q] eqn:EQ; auto.
    pose proof Hi as [HK [HQ [HS HP]]].
    destruct (HQ v) as [Rv Sv]; [rewrite EQ; now left|].
    set (st1 := mkBrandes q (b_S st ++ [v]) (b_P st) (b_sigma st) (b_d st)).
    assert (Hi1 : brandes_inv ids st1).
    { unfold brandes_inv. simpl. split; [exact HK|]. split; [|split]; auto.
      - intros x Hx. apply HQ. rewrite EQ. now right.
      - intros x Hx. apply in_app_or in Hx.
        destruct Hx as [Hx|[<-|[]]]; auto. }
    apply IH.
    + apply brandes_edges_inv; auto.
    + rewrite brandes_edges_measure by exact Rv.
      unfold brandes_measure in *. rewrite EQ in Hm. simpl in *. lia.
Qed.

Lemma brandes_bfs_more adj extra fuel : forall st,
  b_Q (brandes_bfs fuel adj st) = [] ->
  brandes_bfs (fuel + extra) adj st = brandes_bfs fuel adj st.
Proof.
  induction fuel as [|fuel IH]; intros st H; simpl in *.
  - destruct extra; simpl; auto. now rewrite H.
  - destruct (b_Q st); auto.
Qed.

Lemma map_set_length {V : Type} k (v : V) m :
  List.length (map_set k v m) <= S (List.length m).
Proof.
  induction m as [|[k' v'] m IH]; simpl; auto.
  destruct (String.eqb k' k); simpl; lia.
Qed.

Lemma init_length {V : Type} (f : GraphNode -> V) ns :
  List.length (fold_left (fun m t => map_set (id t) (f t) m) ns [])
  <= List.length ns.
Proof.
  assert (H : forall m, List.length
                (fold_left (fun m t => map_set (id t) (f t) m) ns m)
              <= List.length ns + List.length m).
  { induction ns as [|n ns IH]; intros m; simpl; auto.
    specialize (IH (map_set (id n) (f n) m)).
    pose proof (map_set_length (id n) (f n) m). lia. }
  specialize (H []). simpl in H. lia.
Qed.

Lemma unseen_le d : unseen d <= List.length d.
Proof. unfold unseen. apply filter_length_le. Qed.

Lemma brandes_init_measure ns s :
  In s (node_ids ns) -> brandes_measure (brandes_init ns s) <= List.length ns.
Proof.
  intros Hs. unfold brandes_measure, brandes_init. simpl.
  set (d0 := fold_left (fun m t => map_set (id t) (-1)%Z m) ns []).
  assert (E : map_get s d0 = Some (-1)%Z).
  { unfold d0. rewrite (init_get (fun _ => (-1)%Z)).
    destruct (in_dec string_dec s (node_ids ns)); [reflexivity|contradiction]. }
  pose proof (unseen_set d0 s (-1) 0 E ltac:(lia) ltac:(lia)) as Hu.
  pose proof (unseen_le d0).
  pose proof (init_length (fun _ => (-1)%Z) ns) as HL. cbv beta in HL.
  fold d0 in HL. lia.
Qed.

(** X1: the search of [calculateBetweenness] from a node empties its queue
    within one turn per node, and more turns change nothing. *)
Theorem brandes_bfs_done ns adj s extra :
  In s (node_ids ns) ->
  let st := brandes_bfs (List.length ns) adj (brandes_init ns s) in
  b_Q st = []
  /\ brandes_bfs (List.length ns + extra) adj (brandes_init ns s) = st.
Proof.
  intros Hs st.
  assert (HQ : b_Q st = []).
  { unfold st. apply (brandes_bfs_empty (node_ids ns)).
    - now apply brandes_init_inv.
    - now apply brandes_init_measure. }
  split; auto. now apply brandes_bfs_more.
Qed.

Lemma brandes_bfs_done_witness :
  let ns := [mkNode "a" "g" None None; mkNode "b" "g" None None] in
  let adj := getAdjacency ns [mkLink (EId "a") (EId "b") "t" None None] false in
  let st := brandes_bfs (List.length ns) adj (brandes_init ns "a") in
  b_Q st = []
  /\ brandes_bfs (List.length ns + 3) adj (brandes_init ns "a") = st.
Proof.
  apply (brandes_bfs_done
           [mkNode "a" "g" None None; mkNode "b" "g" None None]
           (getAdjacency [mkNode "a" "g" None None; mkNode "b" "g" None None]
                         [mkLink (EId "a") (EId "b") "t" None None] false)
           "a" 3).
  simpl. left. reflexivity.
Defined.

Lemma set_has_add x y s :
  set_has y (set_add x s) = String.eqb y x || set_has y s.
Proof.
  destruct (set_has y (set_add x s)) eqn:E.
  - apply set_has_In, set_add_In in E. destruct E as [->|E].
    + now rewrite String.eqb_refl.
    + apply set_has_In in E. rewrite E. now rewrite orb_true_r.
  - destruct (String.eqb_spec y x) as [->|Hne]; simpl.
    + assert (H : set_has x (set_add x s) = true)
        by (apply set_has_In, set_add_In; now left).
      congruence.
    + destruct (set_has y s) eqn:E'; auto.
      assert (H : set_has y (set_add x s) = true)
        by (apply set_has_In, set_add_In; right; now apply set_has_In).
      congruence.
Qed.

Lemma unvisited_add x vis U :
  NoDup U -> In x U -> set_has x vis = false ->
  S (List.length (filter (fun y => negb (set_has y (set_add x vis))) U))
  = List.length (filter (fun y => negb (set_has y vis)) U).
Proof.
  intros Hnd. induction Hnd as [|u U Hu Hnd IH]; simpl; [intros []|].
  intros Hin Hx. rewrite set_has_add.
  destruct (String.eqb_spec u x) as [->|Hne]; simpl.
  - rewrite Hx. simpl. f_equal. f_equal.
    apply filter_ext_in. intros y Hy. rewrite set_has_add.
    destruct (String.eqb_spec y x) as [->|_]; [contradiction|reflexivity].
  - destruct Hin as [E|Hin]; [congruence|].
    destruct (set_has u vis); simpl; rewrite <- (IH Hin Hx); reflexivity.
Qed.

Lemma neighbor_ids_In adj x l n :
  map_get x adj = Some l -> In n l -> In (nb_id n) (neighbor_ids adj).
Proof.
  intros E Hn. unfold neighbor_ids. apply nodup_In, in_map, in_flat_map.
  exists (x, l). split; auto. now apply map_get_In.
Qed.

Lemma closeness_edge_measure adj d st n :
  In (nb_id n) (neighbor_ids adj) ->
  closeness_measure adj (closeness_edge d st n) = closeness_measure adj st
  /\ c_total (closeness_edge d st n) = c_total st
  /\ c_count (closeness_edge d st n) = c_count st.
Proof.
  intros Hn. unfold closeness_edge.
  destruct (set_has (nb_id n) (c_visited st)) eqn:E; auto.
  unfold closeness_measure. simpl. repeat split.
  rewrite length_app. simpl.
  rewrite <- (unvisited_add (nb_id n) (c_visited st) (neighbor_ids adj));
    auto; [lia|]. apply NoDup_nodup.
Qed.

Lemma closeness_edges_measure adj d l : forall st,
  (forall n, In n l -> In (nb_id n) (neighbor_ids adj)) ->
  closeness_measure adj (fold_left (closeness_edge d) l st)
  = closeness_measure adj st
  /\ c_total (fold_left (closeness_edge d) l st) = c_total st
  /\ c_count (fold_left (closeness_edge d) l st) = c_count st.
Proof.
  induction l as [|n l IH]; simpl; auto.
  intros st Hl.
  destruct (closeness_edge_measure adj d st n (Hl n (or_introl eq_refl)))
    as [Hm [Ht Hc]].
  destruct (IH (closeness_edge d st n)) as [Hm' [Ht' Hc']]; auto.
  repeat split; congruence.
Qed.

Lemma adj_list_ids adj x :
  forall n, In n (match map_get x adj with Some l => l | None => [] end) ->
            In (nb_id n) (neighbor_ids adj).
Proof.
  intros n Hn. destruct (map_get x adj) as [l|] eqn:E; [|destruct Hn].
  eapply neighbor_ids_In; eauto.
Qed.

Lemma closeness_bfs_spec adj fuel : forall st,
  closeness_measure adj st <= fuel ->
  c_count st <= c_total st ->
  c_q (closeness_bfs fuel adj st) = []
  /\ c_count (closeness_bfs fuel adj st) <= c_total (closeness_bfs fuel adj st).
Proof.
  induction fuel as [|fuel IH]; intros st Hm Hc.
  - simpl. split; auto. unfold closeness_measure in Hm.
    destruct (c_q st); auto. simpl in Hm. lia.
  - simpl. destruct (c_q st) as [|[x d] q] eqn:EQ; auto.
    set (st1 := if 0 <? d
                then mkCloseness q (c_visited st) (c_total st + d) (c_count st + 1)
                else mkCloseness q (c_visited st) (c_total st) (c_count st)).
    destruct (closeness_edges_measure adj d
                (match map_get x adj with Some l => l | None => [] end) st1
                (adj_list_ids adj x)) as [Hm' [Ht' Hc']].
    assert (H1 : S (closeness_measure adj st1) = closeness_measure adj st
                 /\ c_count st1 <= c_total st1).
    { unfold st1, closeness_measure. rewrite EQ.
      destruct (Nat.ltb_spec 0 d); simpl; split; lia. }
    apply IH; lia.
Qed.

Lemma closeness_bfs_more adj extra fuel : forall st,
  c_q (closeness_bfs fuel adj st) = [] ->
  closeness_bfs (fuel + extra) adj st = closeness_bfs fuel adj st.
Proof.
  induction fuel as [|fuel IH]; intros st H; simpl in *.
  - destruct extra; simpl; auto. now rewrite H.
  - destruct (c_q st) as [|[x d] q]; auto.
Qed.

Lemma closeness_init_measure adj x :
  closeness_measure adj (mkCloseness [(x, 0)] [x] 0 0) <= closeness_fuel adj.
Proof.
  unfold closeness_measure, closeness_fuel, neighbor_ids. simpl.
  apply le_n_S. eapply Nat.le_trans; [apply filter_length_le|].
  eapply Nat.le_trans.
  - apply NoDup_incl_length; [apply NoDup_nodup|].
    intros y Hy. apply nodup_In in Hy. exact Hy.
  - now rewrite length_map.
Qed.

(** X2: the search of [calculateCloseness] empties its queue within the turns
    the model gives it, and more turns change nothing. *)
Theorem closeness_bfs_done adj x extra :
  let st := closeness_bfs (closeness_fuel adj) adj
                          (mkCloseness [(x, 0)] [x] 0 0) in
  c_q st = []
  /\ closeness_bfs (closeness_fuel adj + extra) adj
                   (mkCloseness [(x, 0)] [x] 0 0) = st.
Proof.
  intros st.
  assert (HQ : c_q st = []).
  { unfold st. apply closeness_bfs_spec; [apply closeness_init_measure|].
    simpl. lia. }
  split; auto. now apply closeness_bfs_more.
Qed.

(** X3: closeness is a number between 0 and 1: the count of reached nodes over
    the sum of their distances, each at least 1. *)
Theorem closeness_between_0_and_1 ns adj x :
  In x (node_ids ns) ->
  exists q, get_num (calculateCloseness ns adj) x = Fin q
            /\ (0 <= q)%Q /\ (q <= 1)%Q.
Proof.
  intros Hx. rewrite calculateCloseness_get by assumption.
  unfold closeness_of.
  destruct (closeness_bfs_spec adj (closeness_fuel adj)
              (mkCloseness [(x, 0)] [x] 0 0)
              (closeness_init_measure adj x)) as [_ Hc]; [simpl; lia|].
  set (st := closeness_bfs (closeness_fuel adj) adj
                           (mkCloseness [(x, 0)] [x] 0 0)) in *.
  destruct (Nat.ltb_spec 0 (c_count st)) as [Hpos|Hz].
  - unfold div, of_nat. rewrite Qeqb_of_nat_pos by lia.
    eexists. split; [reflexivity|].
    assert (Ht : (0 < inject_Z (Z.of_nat (c_total st)))%Q).
    { unfold Qlt, inject_Z. simpl. lia. }
    split.
    + apply Qle_shift_div_l; auto. rewrite Qmult_0_l.
      unfold Qle, inject_Z. simpl. lia.
    + apply Qle_shift_div_r; auto. rewrite Qmult_1_l.
      unfold Qle, inject_Z. simpl. lia.
  - exists 0%Q. split; [reflexivity|]. split; [apply Qle_refl|].
    unfold Qle. simpl. lia.
Qed.

Lemma closeness_between_0_and_1_witness :
  exists q,
    get_num (calculateCloseness
               [mkNode "a" "g" None None; mkNode "b" "g" None None]
               (getAdjacency [mkNode "a" "g" None None; mkNode "b" "g" None None]
                             [mkLink (EId "a") (EId "b") "t" None None] false))
            "a"
    = Fin q /\ (0 <= q)%Q /\ (q <= 1)%Q.
Proof.
  apply closeness_between_0_and_1. simpl. left. reflexivity.
Defined.

(** ** Betweenness scores *)

Lemma fnn_add a b : fnn a -> fnn b -> fnn (add a b).
Proof.
  intros [x [-> Hx]] [y [-> Hy]]. simpl. eexists. split; [reflexivity|].
  rewrite <- (Qplus_0_r 0). now apply Qplus_le_compat.
Qed.

Lemma fnn_mul a b : fnn a -> fnn b -> fnn (mul a b).
Proof.
  intros [x [-> Hx]] [y [-> Hy]]. simpl. eexists. split; [reflexivity|].
  now apply Qmult_le_0_compat.
Qed.

Lemma fnn_div_nat a b : 1 <= b -> fnn (div (of_nat a) (of_nat b)).
Proof.
  intros Hb. unfold div, of_nat. rewrite Qeqb_of_nat_pos by lia.
  eexists. split; [reflexivity|].
  apply Qle_shift_div_l.
  - unfold Qlt, inject_Z. simpl. lia.
  - rewrite Qmult_0_l. unfold Qle, inject_Z. simpl. lia.
Qed.

Lemma fnn_zero : fnn (Fin 0).
Proof. exists 0%Q. split; [reflexivity|apply Qle_refl]. Qed.

Lemma fnn_set (m : jsmap number) k v (ids : list string) :
  fnn v -> (forall x, In x ids -> fnn (get_num m x)) ->
  forall x, In x ids -> fnn (get_num (map_set k v m) x).
Proof.
  intros Hv Hm x Hx. unfold get_num. rewrite map_get_set.
  destruct (String.eqb k x); auto. now apply Hm.
Qed.

Lemma back_edge_fnn ids sigma w delta v :
  In v ids -> In w ids -> sigma_pos sigma v -> sigma_pos sigma w ->
  (forall x, In x ids -> fnn (get_num delta x)) ->
  forall x, In x ids -> fnn (get_num (back_edge sigma w delta v) x).
Proof.
  intros Hv Hw [a [Ea Ha]] [b [Eb Hb]] Hd. unfold back_edge.
  apply fnn_set; auto.
  apply fnn_add; auto. apply fnn_mul.
  - rewrite Ea, Eb. now apply fnn_div_nat.
  - apply fnn_add; auto. exists 1%Q. split; [reflexivity|].
    unfold Qle. simpl. lia.
Qed.

Lemma back_edges_fnn ids sigma w vs : forall delta,
  In w ids -> sigma_pos sigma w ->
  (forall v, In v vs -> In v ids /\ sigma_pos sigma v) ->
  (forall x, In x ids -> fnn (get_num delta x)) ->
  forall x, In x ids ->
    fnn (get_num (fold_left (back_edge sigma w) vs delta) x).
Proof.
  induction vs as [|v vs IH]; simpl; auto.
  intros delta Hw Sw Hvs Hd. apply IH; auto.
  destruct (Hvs v (or_introl eq_refl)) as [Hv Sv].
  now apply (back_edge_fnn ids).
Qed.

Lemma back_step_fnn ids s st acc w :
  brandes_inv ids st -> In w (b_S st) ->
  (forall x, In x ids -> fnn (get_num (fst acc) x)) ->
  (forall x, In x ids -> fnn (get_num (snd acc) x)) ->
  (forall x, In x ids -> fnn (get_num (fst (back_step s st acc w)) x))
  /\ (forall x, In x ids -> fnn (get_num (snd (back_step s st acc w)) x)).
Proof.
  intros Hi Hw Hd Hc. pose proof Hi as [HK [HQ [HS HP]]].
  destruct (HS w Hw) as [Rw Sw].
  assert (Iw : In w ids) by (eapply reached_In; eauto).
  assert (Hdelta : forall x, In x ids ->
            fnn (get_num (fold_left (back_edge (b_sigma st) w)
                            (match map_get w (b_P st) with
                             | Some p => p | None => [] end) (fst acc)) x)).
  { apply back_edges_fnn; auto. intros v Hv.
    destruct (map_get w (b_P st)) as [p|] eqn:Ep; [|destruct Hv].
    destruct (HP w p v Ep Hv) as [Rv Sv]. split; auto.
    eapply reached_In; eauto. }
  unfold back_step. cbn [fst snd]. split; auto.
  destruct (String.eqb w s); auto.
  apply fnn_set; auto. apply fnn_add; auto.
Qed.

Lemma back_steps_fnn ids s st ws : forall acc,
  brandes_inv ids st -> (forall w, In w ws -> In w (b_S st)) ->
  (forall x, In x ids -> fnn (get_num (fst acc) x)) ->
  (forall x, In x ids -> fnn (get_num (snd acc) x)) ->
  forall x, In x ids ->
    fnn (get_num (snd (fold_left (back_step s st) ws acc)) x).
Proof.
  induction ws as [|w ws IH]; simpl; auto.
  intros acc Hi Hws Hd Hc.
  destruct (back_step_fnn ids s st acc w Hi (Hws w (or_introl eq_refl)) Hd Hc)
    as [Hd' Hc'].
  apply IH; auto.
Qed.

Lemma zero_init_fnn ns x :
  In x (node_ids ns) ->
  fnn (get_num (fold_left (fun m v => map_set (id v) (Fin 0) m) ns []) x).
Proof.
  intros Hx. unfold get_num. rewrite (init_get (fun _ => Fin 0)).
  destruct (in_dec string_dec x (node_ids ns)) as [_|n]; [|contradiction].
  apply fnn_zero.
Qed.

Lemma brandes_source_fnn ns adj CB s :
  In s ns ->
  (forall x, In x (node_ids ns) -> fnn (get_num CB x)) ->
  forall x, In x (node_ids ns) -> fnn (get_num (brandes_source ns adj CB s) x).
Proof.
  intros Hs Hc. unfold brandes_source.
  apply back_steps_fnn; auto.
  - apply brandes_bfs_inv, brandes_init_inv. unfold node_ids. now apply in_map.
  - intros w Hw. now apply in_rev.
  - intros x Hx. cbn [fst]. now apply zero_init_fnn.
Qed.

(** X4: every node gets a betweenness score, and the score is a finite number
    that is not negative: the path counts the back-propagation divides by
    are at least 1. *)
Theorem betweenness_finite_nonneg ns adj x :
  In x (node_ids ns) ->
  exists q, map_get x (calculateBetweenness ns adj) = Some (Fin q)
            /\ (0 <= q)%Q.
Proof.
  unfold calculateBetweenness.
  assert (H : forall srcs CB,
            (forall s, In s srcs -> In s ns) ->
            (forall y, In y (node_ids ns) -> fnn (get_num CB y)) ->
            forall y, In y (node_ids ns) ->
              fnn (get_num (fold_left (brandes_source ns adj) srcs CB) y)).
  { induction srcs as [|s srcs IH]; simpl; auto.
    intros CB Hs Hc. apply IH; auto.
    apply brandes_source_fnn; auto. }
  intros Hx.
  destruct (H ns (fold_left (fun m n => map_set (id n) (Fin 0) m) ns [])
              (fun s Hs => Hs) (zero_init_fnn ns) x Hx) as [q [E Hq]].
  exists q. split; auto. unfold get_num in E.
  destruct (map_get x _) as [y|]; [now subst|discriminate].
Qed.

Lemma betweenness_finite_nonneg_witness :
  exists q,
    map_get "b"%string
      (calculateBetweenness
         [mkNode "a" "g" None None; mkNode "b" "g" None None;
          mkNode "c" "g" None None]
         (getAdjacency
            [mkNode "a" "g" None None; mkNode "b" "g" None None;
             mkNode "c" "g" None None]
            [mkLink (EId "a") (EId "b") "t" None None;
             mkLink (EId "b") (EId "c") "t" None None] false))
    = Some (Fin q) /\ (0 <= q)%Q.
Proof.
  apply betweenness_finite_nonneg. simpl. right. left. reflexivity.
Defined.

(** ** Ranking order *)

Lemma sort_insert_filter {A : Type} (after : A -> A -> bool) (P : A -> bool)
    x l :
  (forall y, In y l -> P x = true -> P y = true -> after x y = false) ->
  filter P (sort_insert after x l) = filter P (x :: l).
Proof.
  induction l as [|y l IH]; intros H; simpl; auto.
  destruct (after x y) eqn:E.
  - simpl. rewrite IH by (intros z Hz; apply H; now right). simpl.
    destruct (P x) eqn:Px; auto. destruct (P y) eqn:Py; auto.
    rewrite (H y (or_introl eq_refl) eq_refl Py) in E. discriminate.
  - reflexivity.
Qed.

Lemma js_sort_filter {A : Type} (after : A -> A -> bool) (P : A -> bool) l :
  (forall x y, P x = true -> P y = true -> after x y = false) ->
  filter P (js_sort after l) = filter P l.
Proof.
  intros H. induction l as [|x l IH]; simpl; auto.
  rewrite sort_insert_filter by (intros y _; apply H).
  simpl. now rewrite IH.
Qed.

Lemma val_after_tie a b :
  same_value (val a) (val b) = true -> val_after a b = false.
Proof.
  unfold val_after. destruct (val a) as [| |x|], (val b) as [| |y|];
    simpl; try discriminate; auto.
  intros E. apply Qeqb_eq in E. apply Qltb_ge. rewrite E.
  unfold Qminus. rewrite Qplus_opp_r. apply Qle_refl.
Qed.

Lemma same_value_trans a b c :
  same_value a c = true -> same_value b c = true -> same_value a b = true.
Proof.
  destruct a as [| |x|], b as [| |y|], c as [| |z|]; simpl;
    try discriminate; auto.
  intros H1 H2. apply Qeqb_eq in H1, H2. apply Qeqb_eq.
  now rewrite H1, H2.
Qed.

(** X5: the ranking sort is stable: the entries that share a value [v] keep the
    order they have in the node list. *)
Theorem ranking_ties_keep_order v l :
  filter (fun r => same_value (val r) v) (js_sort val_after l)
  = filter (fun r => same_value (val r) v) l.
Proof.
  apply js_sort_filter. intros x y Px Py.
  apply val_after_tie. eapply same_value_trans; eauto.
Qed.

(** ** A graph without links *)

Lemma js_sort_ties {A : Type} (after : A -> A -> bool) l :
  (forall x y, In x l -> In y l -> after x y = false) -> js_sort after l = l.
Proof.
  induction l as [|x l IH]; intros H; simpl; auto.
  rewrite IH by (intros a b Ha Hb; apply H; now right).
  destruct l as [|y l]; simpl; auto.
  rewrite H; auto; [now left|right; now left].
Qed.

Lemma no_links_adj ns x :
  match map_get x (getAdjacency ns [] false) with
  | Some l => l | None => [] end = [].
Proof.
  unfold getAdjacency. simpl.
  rewrite (init_get (fun _ => @nil neighbor)).
  destruct (in_dec string_dec x (node_ids ns)); reflexivity.
Qed.

Lemma no_links_closeness ns x :
  closeness_of (getAdjacency ns [] false) x = Fin 0.
Proof.
  unfold closeness_of, closeness_fuel. simpl.
  rewrite no_links_adj. simpl.
  destruct (List.length _); reflexivity.
Qed.

Lemma no_links_source ns CB s :
  In s ns -> brandes_source ns (getAdjacency ns [] false) CB s = CB.
Proof.
  intros Hs. unfold brandes_source.
  destruct ns as [|n0 ns0] eqn:En; [destruct Hs|]. rewrite <- En in *.
  assert (El : List.length ns = S (List.length ns0)) by (subst; reflexivity).
  rewrite El. cbn [brandes_bfs brandes_init b_Q b_S b_P b_sigma b_d].
  rewrite no_links_adj. cbn [fold_left].
  assert (Eb : forall st, b_Q st = [] ->
             brandes_bfs (List.length ns0) (getAdjacency ns [] false) st = st).
  { intros st E. destruct (List.length ns0); simpl; auto. now rewrite E. }
  rewrite Eb by reflexivity. cbn [b_S app rev fold_left].
  unfold back_step. cbn [fst snd b_P b_sigma].
  rewrite String.eqb_refl. reflexivity.
Qed.

Lemma no_links_betweenness ns x :
  In x (node_ids ns) ->
  get_num (calculateBetweenness ns (getAdjacency ns [] false)) x = Fin 0.
Proof.
  intros Hx. unfold calculateBetweenness.
  assert (H : forall srcs CB, (forall s, In s srcs -> In s ns) ->
            fold_left (brandes_source ns (getAdjacency ns [] false)) srcs CB
            = CB).
  { induction srcs as [|s srcs IH]; simpl; auto.
    intros CB Hs. rewrite no_links_source by auto. apply IH; auto. }
  rewrite H by auto. unfold get_num. rewrite (init_get (fun _ => Fin 0)).
  destruct (in_dec string_dec x (node_ids ns)); [reflexivity|contradiction].
Qed.

Lemma zero_ranking (f : string -> number) ns :
  (forall x, In x (node_ids ns) -> f x = Fin 0) ->
  js_sort val_after (List.map (fun n => mkRanked (id n) (f (id n))) ns)
  = List.map (fun n => mkRanked (id n) (Fin 0)) ns.
Proof.
  intros Hf.
  assert (E : List.map (fun n => mkRanked (id n) (f (id n))) ns
              = List.map (fun n => mkRanked (id n) (Fin 0)) ns).
  { apply map_ext_in. intros n Hn. rewrite Hf; auto.
    unfold node_ids. now apply in_map. }
  rewrite E. apply js_sort_ties. intros a b Ha Hb.
  apply in_map_iff in Ha, Hb. destruct Ha as [n [<- _]], Hb as [m [<- _]].
  reflexivity.
Qed.

(** X6: without links every node has degree, betweenness and closeness 0, and
    each returned list holds the first five nodes in the order of the node
    list. *)
Theorem centrality_without_links ns :
  let top := firstn 5 (List.map (fun n => mkRanked (id n) (Fin 0)) ns) in
  calculateCentralityRankings ns [] = mkRankings top top top.
Proof.
  intros top. unfold calculateCentralityRankings, degree_ranking,
    betweenness_ranking, closeness_full_ranking. cbv zeta.
  rewrite (zero_ranking (degree_of (getAdjacency ns [] false))).
  rewrite (zero_ranking
             (get_num (calculateBetweenness ns (getAdjacency ns [] false)))).
  rewrite (zero_ranking
             (get_num (calculateCloseness ns (getAdjacency ns [] false)))).
  - reflexivity.
  - intros x Hx. rewrite calculateCloseness_get by assumption.
    apply no_links_closeness.
  - intros x Hx. now apply no_links_betweenness.
  - intros x Hx. unfold degree_of.
    pose proof (no_links_adj ns x) as E.
    destruct (map_get x (getAdjacency ns [] false)); [subst|]; reflexivity.
Qed.

(** ** Distance module *)

Lemma Qltb_comp a a' b b' :
  (a == a')%Q -> (b == b')%Q -> Qltb a b = Qltb a' b'.
Proof. intros Ha Hb. unfold Qltb. now rewrite Ha, Hb. Qed.

Lemma Qeqb_comp a a' b b' :
  (a == a')%Q -> (b == b')%Q -> Qeqb a b = Qeqb a' b'.
Proof. intros Ha Hb. unfold Qeqb. now rewrite Ha, Hb. Qed.

Lemma Qsqrt_comp a b : (a == b)%Q -> Qsqrt a = Qsqrt b.
Proof. intros H. unfold Qsqrt. now rewrite (Qred_complete _ _ H). Qed.

Lemma Qsqrt_nonneg q : (0 <= Qsqrt q)%Q.
Proof.
  unfold Qsqrt, Qle. cbn [Qnum Qden]. rewrite Z.mul_0_l, Z.mul_1_r.
  apply Z.sqrt_nonneg.
Qed.

Lemma abs_sub_Fin x y : abs (sub (Fin x) (Fin y)) = Fin (Qabs (x - y)).
Proof. reflexivity. Qed.

Lemma add_Fin x y : add (Fin x) (Fin y) = Fin (x + y).
Proof. reflexivity. Qed.

Lemma pow2_sub_Fin x y :
  pow2 (sub (Fin x) (Fin y)) = Fin ((x - y) * (x - y)).
Proof. reflexivity. Qed.

Lemma max_Fin x y : max (Fin x) (Fin y) = if Qltb x y then Fin y else Fin x.
Proof. reflexivity. Qed.

Lemma lance_Fin x y :
  (if is_zero (add (abs (Fin x)) (abs (Fin y))) then Fin 0
   else div (abs (sub (Fin x) (Fin y))) (add (abs (Fin x)) (abs (Fin y))))
  = if Qeqb (Qabs x + Qabs y) 0 then Fin 0
    else Fin (Qabs (x - y) / (Qabs x + Qabs y)).
Proof.
  change (add (abs (Fin x)) (abs (Fin y))) with (Fin (Qabs x + Qabs y)).
  rewrite abs_sub_Fin. unfold is_zero, div.
  destruct (Qeqb (Qabs x + Qabs y) 0); reflexivity.
Qed.

Lemma sqrt_Fin q : Qltb q 0 = false -> sqrt (Fin q) = Fin (Qsqrt q).
Proof. intros H. unfold sqrt. now rewrite H. Qed.

Lemma fnn_abs_sub x y : fnn (abs (sub (Fin x) (Fin y))).
Proof.
  rewrite abs_sub_Fin. eexists. split; [reflexivity|apply Qabs_nonneg].
Qed.

Lemma fnn_max a b : fnn a -> fnn b -> fnn (max a b).
Proof.
  intros [x [-> Hx]] [y [-> Hy]]. rewrite max_Fin.
  destruct (Qltb x y); eexists; split; eauto.
Qed.

Lemma lance_term x y :
  exists q,
    (if is_zero (add (abs (Fin x)) (abs (Fin y))) then Fin 0
     else div (abs (sub (Fin x) (Fin y))) (add (abs (Fin x)) (abs (Fin y))))
    = Fin q
    /\ (0 <= q)%Q
    /\ (q == if Qeqb (Qabs x + Qabs y) 0 then 0
             else Qabs (x - y) / (Qabs x + Qabs y))%Q.
Proof.
  rewrite lance_Fin. destruct (Qeqb (Qabs x + Qabs y) 0) eqn:E.
  - exists 0%Q. split; [reflexivity|]. split; [apply Qle_refl|reflexivity].
  - eexists. split; [reflexivity|]. split; [|reflexivity].
    apply Qle_shift_div_l.
    + assert (H0 : (0 <= Qabs x + Qabs y)%Q).
      { rewrite <- (Qplus_0_r 0).
        apply Qplus_le_compat; apply Qabs_nonneg. }
      apply Qle_lteq in H0. destruct H0 as [H0|H0]; auto.
      symmetry in H0. apply Qeqb_eq in H0. congruence.
    + rewrite Qmult_0_l. apply Qabs_nonneg.
Qed.

Lemma euclid_sum_nonneg va vb :
  Forall finite va -> Forall finite vb -> List.length va = List.length vb ->
  exists q, reduce2 (fun sum v b => add sum (pow2 (sub v b))) (Fin 0) va vb
            = Fin q /\ (0 <= q)%Q.
Proof.
  intros Ha Hb Hlen.
  apply (reduce2_inv fnn); auto; [|apply fnn_zero].
  intros acc v b Hacc [x ->] [y ->]. apply fnn_add; auto.
  rewrite pow2_sub_Fin. eexists. split; [reflexivity|].
  unfold Qle. cbn [Qnum Qden Qmult]. rewrite Z.mul_0_l, Z.mul_1_r.
  apply Z.square_nonneg.
Qed.

Lemma calculateDistance_fnn va vb type :
  Forall finite va -> Forall finite vb -> List.length va = List.length vb ->
  fnn (calculateDistance va vb type).
Proof.
  unfold fnn.
  intros Ha Hb Hlen. destruct type; simpl.
  - destruct (euclid_sum_nonneg va vb Ha Hb Hlen) as [q [-> Hq]].
    rewrite sqrt_Fin by now apply Qltb_ge.
    eexists. split; [reflexivity|]. apply Qsqrt_nonneg.
  - apply (reduce2_inv fnn); auto; [|apply fnn_zero].
    intros acc v b Hacc [x ->] [y ->]. apply fnn_max; auto.
    apply fnn_abs_sub.
  - apply (reduce2_inv fnn); auto; [|apply fnn_zero].
    intros acc v b Hacc [x ->] [y ->]. apply fnn_add; auto.
    apply fnn_abs_sub.
  - apply (reduce2_inv fnn); auto; [|apply fnn_zero].
    intros acc v b Hacc [x ->] [y ->]. apply fnn_add; auto.
    cbv zeta. destruct (lance_term x y) as [q [E [Hq _]]].
    rewrite E. exists q. auto.
Qed.

(** X7: on finite vectors of one length every distance is a finite number that
    is not negative. *)
Theorem calculateDistance_nonneg va vb type :
  Forall finite va -> Forall finite vb -> List.length va = List.length vb ->
  exists q, calculateDistance va vb type = Fin q /\ (0 <= q)%Q.
Proof. apply calculateDistance_fnn. Qed.

Lemma calculateDistance_nonneg_witness :
  exists q, calculateDistance [Fin 1; Fin 0] [Fin 0; Fin 3] manhattan = Fin q
            /\ (0 <= q)%Q.
Proof.
  apply calculateDistance_nonneg; repeat constructor; eexists; reflexivity.
Defined.

Lemma reduce2_diag (I : number -> Prop) f :
  (forall acc x, I acc -> finite x -> I (f acc x x)) ->
  forall v acc, I acc -> Forall finite v -> I (reduce2 f acc v v).
Proof.
  intros Hf v. induction v as [|x v IH]; intros acc Ha Hv; simpl; auto.
  inversion Hv; subst. apply IH; auto.
Qed.

Lemma abs_self x : (Qabs (x - x) == 0)%Q.
Proof.
  assert (E : (x - x == 0)%Q) by (unfold Qminus; apply Qplus_opp_r).
  rewrite E. reflexivity.
Qed.

(** X8: the distance of a finite vector to itself is 0, for each of the four
    distance types. *)
Theorem calculateDistance_self v type :
  Forall finite v ->
  exists q, calculateDistance v v type = Fin q /\ (q == 0)%Q.
Proof.
  intros Hv.
  set (Z0 := fun a : number => exists q, a = Fin q /\ (q == 0)%Q).
  assert (H0 : Z0 (Fin 0)) by (exists 0%Q; split; reflexivity).
  destruct type; simpl.
  - assert (H : Z0 (reduce2 (fun sum v b => add sum (pow2 (sub v b)))
                            (Fin 0) v v)).
    { apply reduce2_diag; auto.
      intros acc x [q [-> Hq]] [y ->]. rewrite pow2_sub_Fin, add_Fin.
      eexists. split; [reflexivity|].
      rewrite Hq. unfold Qminus. rewrite Qplus_opp_r. reflexivity. }
    destruct H as [q [-> Hq]].
    rewrite sqrt_Fin by (apply Qltb_ge; rewrite Hq; apply Qle_refl).
    eexists. split; [reflexivity|]. now apply Qsqrt_zero.
  - apply (reduce2_diag Z0); auto.
    intros acc x [q [-> Hq]] [y ->]. rewrite abs_sub_Fin, max_Fin.
    destruct (Qltb q (Qabs (y - y))); eexists; split; eauto. apply abs_self.
  - apply (reduce2_diag Z0); auto.
    intros acc x [q [-> Hq]] [y ->]. rewrite abs_sub_Fin, add_Fin.
    eexists. split; [reflexivity|].
    rewrite Hq, abs_self. reflexivity.
  - apply (reduce2_diag Z0); auto.
    intros acc x [q [-> Hq]] [y ->]. cbv zeta.
    destruct (lance_term y y) as [t [E [_ Ht]]]. rewrite E, add_Fin.
    eexists. split; [reflexivity|]. rewrite Hq, Ht.
    destruct (Qeqb (Qabs y + Qabs y) 0); [reflexivity|].
    rewrite abs_self. unfold Qdiv. rewrite Qmult_0_l. reflexivity.
Qed.

Lemma calculateDistance_self_witness :
  exists q, calculateDistance [Fin 2; Fin 5] [Fin 2; Fin 5] lance = Fin q
            /\ (q == 0)%Q.
Proof.
  apply calculateDistance_self; repeat constructor; eexists; reflexivity.
Defined.

Lemma reduce2_sym f :
  (forall acc acc' x y, qeq_num acc acc' -> finite x -> finite y ->
                        qeq_num (f acc x y) (f acc' y x)) ->
  forall va vb acc acc',
    qeq_num acc acc' -> Forall finite va -> Forall finite vb ->
    List.length va = List.length vb ->
    qeq_num (reduce2 f acc va vb) (reduce2 f acc' vb va).
Proof.
  intros Hf va. induction va as [|x va IH]; intros vb acc acc' Ha Hva Hvb Hlen.
  - destruct vb; [simpl; auto|discriminate].
  - destruct vb as [|y vb]; [discriminate|]. simpl.
    inversion Hva; inversion Hvb; subst. apply IH; auto.
Qed.

(** X9: on finite vectors of one length every distance is symmetric. *)
Theorem calculateDistance_symmetric va vb type :
  Forall finite va -> Forall finite vb -> List.length va = List.length vb ->
  qeq_num (calculateDistance va vb type) (calculateDistance vb va type).
Proof.
  intros Ha Hb Hlen.
  assert (H0 : qeq_num (Fin 0) (Fin 0))
    by (exists 0%Q, 0%Q; repeat split; reflexivity).
  destruct type; simpl.
  - assert (H : qeq_num
                  (reduce2 (fun sum v b => add sum (pow2 (sub v b))) (Fin 0) va vb)
                  (reduce2 (fun sum v b => add sum (pow2 (sub v b))) (Fin 0) vb va)).
    { apply reduce2_sym; auto.
      intros acc acc' x y [p [q [-> [-> E]]]] [a ->] [b ->].
      rewrite !pow2_sub_Fin, !add_Fin.
      eexists _, _. split; [reflexivity|split; [reflexivity|]]. rewrite E. ring. }
    destruct (euclid_sum_nonneg va vb Ha Hb Hlen) as [s [Es Hs]].
    destruct (euclid_sum_nonneg vb va Hb Ha (eq_sym Hlen)) as [s' [Es' Hs']].
    rewrite Es, Es' in *.
    destruct H as [p [q [Ep [Eq E]]]]. inversion Ep. inversion Eq. subst p q.
    rewrite !sqrt_Fin by now apply Qltb_ge.
    eexists _, _. split; [reflexivity|split; [reflexivity|]]. now rewrite (Qsqrt_comp s s' E).
  - apply reduce2_sym; auto.
    intros acc acc' x y [p [q [-> [-> E]]]] [a ->] [b ->].
    rewrite !abs_sub_Fin, !max_Fin.
    rewrite (Qabs_Qminus b a).
    rewrite (Qltb_comp p q _ _ E (Qeq_refl _)).
    destruct (Qltb q (Qabs (a - b))); eexists _, _;
      (split; [reflexivity|split; [reflexivity|]]);
      first [exact E|reflexivity].
  - apply reduce2_sym; auto.
    intros acc acc' x y [p [q [-> [-> E]]]] [a ->] [b ->].
    rewrite !abs_sub_Fin, !add_Fin.
    eexists _, _. split; [reflexivity|split; [reflexivity|]]. rewrite E, (Qabs_Qminus b a). reflexivity.
  - apply reduce2_sym; auto.
    intros acc acc' x y [p [q [-> [-> E]]]] [a ->] [b ->]. cbv zeta.
    destruct (lance_term a b) as [t [Et [_ Ht]]].
    destruct (lance_term b a) as [t' [Et' [_ Ht']]].
    rewrite Et, Et', !add_Fin. eexists _, _. split; [reflexivity|split; [reflexivity|]].
    rewrite E, Ht, Ht'.
    rewrite (Qeqb_comp (Qabs b + Qabs a) (Qabs a + Qabs b) 0 0
               (Qplus_comm _ _) (Qeq_refl 0)).
    rewrite (Qabs_Qminus b a).
    destruct (Qeqb (Qabs a + Qabs b) 0); [reflexivity|].
    rewrite (Qplus_comm (Qabs b) (Qabs a)). reflexivity.
Qed.

Lemma calculateDistance_symmetric_witness :
  qeq_num (calculateDistance [Fin 1; Fin 0] [Fin 0; Fin 3] euclidean)
          (calculateDistance [Fin 0; Fin 3] [Fin 1; Fin 0] euclidean).
Proof.
  apply calculateDistance_symmetric; repeat constructor; eexists; reflexivity.
Defined.

Lemma reduce2_NaN f :
  (forall v b, f NaN v b = NaN) ->
  forall va vb, reduce2 f NaN va vb = NaN.
Proof.
  intros Hf va. induction va as [|v va IH]; intros vb; simpl; auto.
  now rewrite Hf.
Qed.

Lemma reduce2_short f :
  (forall v b, f NaN v b = NaN) -> (forall acc v, f acc v NaN = NaN) ->
  forall va vb acc,
    List.length vb < List.length va -> reduce2 f acc va vb = NaN.
Proof.
  intros H1 H2 va. induction va as [|v va IH]; intros vb acc Hlen; simpl in *.
  - lia.
  - destruct vb as [|b vb]; simpl in *.
    + rewrite H2. now apply reduce2_NaN.
    + apply IH. lia.
Qed.

Lemma reduce2_prefix f va : forall vb extra acc,
  List.length va <= List.length vb ->
  reduce2 f acc va (vb ++ extra) = reduce2 f acc va vb.
Proof.
  induction va as [|v va IH]; intros vb extra acc Hlen; simpl in *; auto.
  destruct vb as [|b vb]; simpl in *; [lia|]. apply IH. lia.
Qed.

Lemma add_NaN_r a : add a NaN = NaN.
Proof. now destruct a. Qed.

Lemma sub_NaN_r a : sub a NaN = NaN.
Proof. now destruct a. Qed.

(** X10: the distance reads one coordinate of the second vector per coordinate
    of the first: a second vector that is too short gives NaN, and
    coordinates past the length of the first are ignored. *)
Theorem calculateDistance_lengths va vb type :
  (List.length vb < List.length va -> calculateDistance va vb type = NaN)
  /\ (List.length va <= List.length vb ->
      forall extra,
        calculateDistance va (vb ++ extra) type = calculateDistance va vb type).
Proof.
  split.
  - intros Hlen. destruct type; simpl.
    + rewrite reduce2_short; auto.
      intros acc v. now rewrite sub_NaN_r, add_NaN_r.
    + apply reduce2_short; auto.
      intros acc v. rewrite sub_NaN_r. now destruct acc.
    + apply reduce2_short; auto.
      intros acc v. now rewrite sub_NaN_r, add_NaN_r.
    + apply reduce2_short; auto.
      intros acc v. cbv zeta. rewrite sub_NaN_r.
      change (abs NaN) with NaN. rewrite add_NaN_r.
      change (is_zero NaN) with false. cbv iota.
      change (div NaN NaN) with NaN. apply add_NaN_r.
  - intros Hlen extra. destruct type; simpl; now rewrite reduce2_prefix.
Qed.

Lemma calculateDistance_lengths_witness :
  calculateDistance [Fin 1; Fin 2] [Fin 1] chebyshev = NaN
  /\ calculateDistance [Fin 1] ([Fin 3] ++ [Fin 7]) manhattan
     = calculateDistance [Fin 1] [Fin 3] manhattan.
Proof.
  split.
  - apply (proj1 (calculateDistance_lengths [Fin 1; Fin 2] [Fin 1] chebyshev)).
    simpl. lia.
  - apply (proj2 (calculateDistance_lengths [Fin 1] [Fin 3] manhattan)).
    simpl. lia.
Defined.

(** ** Graph index *)

Lemma set_has_keys {V : Type} (m : jsmap V) k :
  set_has k (map_keys m) = map_has k m.
Proof.
  destruct (map_has k m) eqn:E.
  - apply set_has_In. now apply map_has_In.
  - destruct (set_has k (map_keys m)) eqn:E'; auto.
    apply set_has_In, map_has_In in E'. congruence.
Qed.

Lemma init_keys_order {V : Type} (f : GraphNode -> V) ns : forall m : jsmap V,
  map_keys (fold_left (fun m n => map_set (id n) (f n) m) ns m)
  = fold_left (fun s x => set_add x s) (node_ids ns) (map_keys m).
Proof.
  induction ns as [|n ns IH]; intros m; simpl; auto.
  rewrite IH. f_equal. rewrite map_keys_set. unfold set_add.
  now rewrite set_has_keys.
Qed.

(** X11: the index has one neighbour list per node id, in the order in which
    the ids first occur in the node list, whatever the links are; an id
    outside the node list has no list. *)
Theorem getAdjacency_index ns ls w :
  map_keys (getAdjacency ns ls w) = set_of_list (node_ids ns)
  /\ NoDup (map_keys (getAdjacency ns ls w))
  /\ forall v, neighbors (getAdjacency ns ls w) v = None
               <-> ~ In v (node_ids ns).
Proof.
  assert (E : map_keys (getAdjacency ns ls w) = set_of_list (node_ids ns)).
  { unfold getAdjacency. rewrite fold_add_link_keys.
    now rewrite (init_keys_order (fun _ => [])). }
  split; [exact E|]. split.
  - rewrite E. apply set_of_list_NoDup.
  - intros v. unfold neighbors. rewrite map_get_None.
    now rewrite getAdjacency_keys.
Qed.

Lemma adj_push_In k e (adj : adjacency) v l nb :
  map_get v (adj_push k e adj) = Some l -> In nb l ->
  (exists l0, map_get v adj = Some l0 /\ In nb l0) \/ (v = k /\ nb = e).
Proof.
  unfold adj_push. destruct (map_has k adj) eqn:Hk; [|eauto].
  destruct (map_get k adj) as [old|] eqn:Ek; [|eauto].
  rewrite map_get_set. destruct (String.eqb_spec k v) as [->|Hne].
  - intros E Hin. inversion E. subst l. apply in_app_or in Hin.
    destruct Hin as [Hin|[<-|[]]]; eauto.
  - eauto.
Qed.

(** X12: every entry of a neighbour list stands for one end of a link: the list
    of [v] names the other end, with weight 1 in an unweighted index and
    [l.weight || 1] in a weighted one. *)
Theorem getAdjacency_entry ns ls w v l nb :
  neighbors (getAdjacency ns ls w) v = Some l -> In nb l ->
  exists e,
    In e ls
    /\ nb_weight nb = link_weight w e
    /\ (w = false -> nb_weight nb = Fin 1)
    /\ ((endpoint_id (l_source e) = v /\ endpoint_id (l_target e) = nb_id nb)
        \/ (endpoint_id (l_target e) = v /\ endpoint_id (l_source e) = nb_id nb)).
Proof.
  unfold neighbors. revert l nb.
  induction ls as [|e ls IH] using rev_ind; intros l nb Hget Hin.
  - unfold getAdjacency in Hget. simpl in Hget.
    rewrite getAdjacency_get_init in Hget.
    destruct (in_dec string_dec v (node_ids ns)); inversion Hget.
    subst l. destruct Hin.
  - rewrite getAdjacency_snoc in Hget. unfold add_link in Hget.
    apply adj_push_In with (nb := nb) in Hget; auto.
    destruct Hget as [[l0 [Hget Hin0]]|[-> ->]].
    + apply adj_push_In with (nb := nb) in Hget; auto.
      destruct Hget as [[l1 [Hget Hin1]]|[-> ->]].
      * destruct (IH l1 nb Hget Hin1) as [e' [He' H]].
        exists e'. split; [apply in_or_app; now left|exact H].
      * exists e. split; [apply in_or_app; right; now left|].
        simpl. split; [reflexivity|]. split; [now intros ->|]. now left.
    + exists e. split; [apply in_or_app; right; now left|].
      simpl. split; [reflexivity|]. split; [now intros ->|]. now right.
Qed.

Lemma getAdjacency_entry_witness :
  exists e,
    In e [mkLink (EId "a") (EId "b") "t" (Some (Fin 3)) None]
    /\ nb_weight (mkNb "b" (Fin 3)) = link_weight true e
    /\ (true = false -> nb_weight (mkNb "b" (Fin 3)) = Fin 1)
    /\ ((endpoint_id (l_source e) = "a"%string
         /\ endpoint_id (l_target e) = nb_id (mkNb "b" (Fin 3)))
        \/ (endpoint_id (l_target e) = "a"%string
            /\ endpoint_id (l_source e) = nb_id (mkNb "b" (Fin 3)))).
Proof.
  apply (getAdjacency_entry
           [mkNode "a" "g" None None; mkNode "b" "g" None None]
           [mkLink (EId "a") (EId "b") "t" (Some (Fin 3)) None]
           true "a" [mkNb "b" (Fin 3)]).
  - reflexivity.
  - simpl. left. reflexivity.
Defined.

Lemma entries_set (adj : adjacency) k old new :
  map_get k adj = Some old ->
  entries (map_set k new adj) + List.length old
  = entries adj + List.length new.
Proof.
  unfold entries. induction adj as [|[k' l'] adj IH]; simpl; [discriminate|].
  destruct (String.eqb k' k); intros E.
  - inversion E. subst. simpl. lia.
  - simpl. specialize (IH E). lia.
Qed.

Lemma entries_push k e (adj : adjacency) :
  entries (adj_push k e adj) = entries adj + (if map_has k adj then 1 else 0).
Proof.
  unfold adj_push, map_has. destruct (map_get k adj) as [old|] eqn:E; [|lia].
  pose proof (entries_set adj k old (old ++ [e]) E) as H.
  rewrite length_app in H. simpl in H. lia.
Qed.

Lemma adj_push_has k e (adj : adjacency) v :
  map_has v (adj_push k e adj) = map_has v adj.
Proof.
  destruct (map_has v adj) eqn:E.
  - apply map_has_In. rewrite adj_push_keys. now apply map_has_In.
  - destruct (map_has v (adj_push k e adj)) eqn:E'; auto.
    apply map_has_In in E'. rewrite adj_push_keys in E'.
    apply map_has_In in E'. congruence.
Qed.

Lemma init_entries ns :
  entries (fold_left (fun (adj : adjacency) n => map_set (id n) [] adj) ns [])
  = 0.
Proof.
  assert (Hz : forall m : adjacency,
            Forall (fun kv => snd kv = []) m ->
            Forall (fun kv => snd kv = [])
              (fold_left (fun (adj : adjacency) n => map_set (id n) [] adj)
                         ns m)).
  { induction ns as [|n ns IHn]; intros m Hm; simpl; auto.
    apply IHn. apply map_set_Forall; auto. }
  specialize (Hz [] (Forall_nil _)). unfold entries.
  induction Hz as [|[k l] m Hl Hm IHm]; simpl; auto.
  simpl in Hl. subst l. simpl. exact IHm.
Qed.

Lemma entries_getAdjacency ns ls w :
  (forall l, In l ls -> In (endpoint_id (l_source l)) (node_ids ns)
                        /\ In (endpoint_id (l_target l)) (node_ids ns)) ->
  entries (getAdjacency ns ls w) = 2 * List.length ls.
Proof.
  induction ls as [|e ls IH] using rev_ind; intros H.
  - unfold getAdjacency. simpl. apply init_entries.
  - rewrite getAdjacency_snoc, length_app. simpl.
    destruct (H e) as [Hs Ht]; [apply in_or_app; right; now left|].
    unfold add_link. rewrite !entries_push, adj_push_has.
    apply getAdjacency_keys with (ls := ls) (w := w) in Hs, Ht.
    apply map_has_In in Hs, Ht. rewrite Hs, Ht.
    rewrite IH by (intros l Hl; apply H, in_or_app; now left). lia.
Qed.

(** X13: handshake: when every link joins two nodes of the node list, the
    neighbour lists hold two entries per link. *)
Theorem getAdjacency_handshake ns ls w :
  (forall l, In l ls -> In (endpoint_id (l_source l)) (node_ids ns)
                        /\ In (endpoint_id (l_target l)) (node_ids ns)) ->
  entries (getAdjacency ns ls w) = 2 * List.length ls.
Proof. apply entries_getAdjacency. Qed.

Lemma getAdjacency_handshake_witness :
  entries (getAdjacency [mkNode "a" "g" None None; mkNode "b" "g" None None]
                        [mkLink (EId "a") (EId "b") "t" None None;
                         mkLink (EId "b") (EId "b") "t" None None] false)
  = 2 * 2.
Proof.
  apply (getAdjacency_handshake
           [mkNode "a" "g" None None; mkNode "b" "g" None None]
           [mkLink (EId "a") (EId "b") "t" None None;
            mkLink (EId "b") (EId "b") "t" None None] false).
  intros l Hl. simpl in Hl.
  destruct Hl as [<-|[<-|[]]]; simpl; split; auto.
Defined.

(** ** The manual graph *)

Lemma ensure_node_get x m y :
  map_get y (ensure_node x m)
  = match map_get y m with
    | Some n => Some n
    | None => if String.eqb x y then Some (mkNode x "未定义" None None)
              else None
    end.
Proof.
  unfold ensure_node, map_has. destruct (map_get x m) as [n|] eqn:E.
  - destruct (map_get y m) eqn:Ey; auto.
    destruct (String.eqb_spec x y) as [->|_]; auto. congruence.
  - rewrite map_get_set. destruct (String.eqb_spec x y) as [->|_].
    + now rewrite E.
    + now destruct (map_get y m).
Qed.

Lemma ensure_node_keys_NoDup x m :
  NoDup (map_keys m) -> NoDup (map_keys (ensure_node x m)).
Proof.
  intros H. unfold ensure_node. destruct (map_has x m); auto.
  now apply map_set_keys_NoDup.
Qed.

Lemma entity_nodes_get es x :
  map_get x (fold_left (fun m e => map_set (e_name e)
                                     (mkNode (e_name e) (e_type e) None None) m)
                       es [])
  = option_map (fun t => mkNode x t None None) (last_type es x).
Proof.
  unfold last_type. induction es as [|e es IH] using rev_ind; simpl; auto.
  rewrite fold_left_app, rev_app_distr. simpl.
  rewrite map_get_set. destruct (String.eqb_spec (e_name e) x) as [<-|Hne]; auto.
Qed.

Lemma entity_nodes_NoDup es :
  NoDup (map_keys
           (fold_left (fun m e => map_set (e_name e)
                                    (mkNode (e_name e) (e_type e) None None) m)
                      es [])).
Proof.
  induction es as [|e es IH] using rev_ind; simpl; [constructor|].
  rewrite fold_left_app. simpl. now apply map_set_keys_NoDup.
Qed.

Lemma uniqueNodesMap_get es rs x :
  map_get x (uniqueNodesMap es rs) = standard_node es rs x.
Proof.
  unfold uniqueNodesMap, standard_node.
  induction rs as [|r rs IH] using rev_ind.
  - simpl. rewrite entity_nodes_get. now destruct (last_type es x).
  - rewrite fold_left_app. simpl. rewrite !ensure_node_get, IH.
    rewrite existsb_app. simpl. rewrite orb_false_r.
    destruct (last_type es x); auto.
    destruct (existsb _ rs); simpl; auto.
    destruct (String.eqb_spec (r_source r) x) as [->|_]; simpl; auto.
    destruct (String.eqb_spec (r_target r) x) as [->|_]; simpl; auto.
Qed.

Lemma uniqueNodesMap_NoDup es rs : NoDup (map_keys (uniqueNodesMap es rs)).
Proof.
  unfold uniqueNodesMap. induction rs as [|r rs IH] using rev_ind; simpl.
  - apply entity_nodes_NoDup.
  - rewrite fold_left_app. simpl.
    now apply ensure_node_keys_NoDup, ensure_node_keys_NoDup.
Qed.

Lemma standard_node_id es rs x n : standard_node es rs x = Some n -> id n = x.
Proof.
  unfold standard_node. destruct (last_type es x).
  - intros E. inversion E. reflexivity.
  - destruct (existsb _ rs); intros E; inversion E. reflexivity.
Qed.

Lemma uniqueNodesMap_ids es rs :
  node_ids (map_values (uniqueNodesMap es rs))
  = map_keys (uniqueNodesMap es rs).
Proof.
  unfold node_ids, map_values, map_keys. rewrite map_map.
  apply map_ext_in. intros [k n] Hin. simpl.
  apply map_get_of_In in Hin; [|apply uniqueNodesMap_NoDup].
  rewrite uniqueNodesMap_get in Hin. eapply standard_node_id; eauto.
Qed.

Lemma uniqueNodesMap_has_ends es rs r :
  In r rs ->
  map_has (r_source r) (uniqueNodesMap es rs) = true
  /\ map_has (r_target r) (uniqueNodesMap es rs) = true.
Proof.
  intros Hr. unfold map_has. rewrite !uniqueNodesMap_get.
  unfold standard_node.
  assert (Hs : existsb (fun r0 => String.eqb (r_source r0) (r_source r)
                                  || String.eqb (r_target r0) (r_source r)) rs
               = true).
  { apply existsb_exists. exists r. split; auto.
    now rewrite String.eqb_refl. }
  assert (Ht : existsb (fun r0 => String.eqb (r_source r0) (r_target r)
                                  || String.eqb (r_target r0) (r_target r)) rs
               = true).
  { apply existsb_exists. exists r. split; auto.
    rewrite String.eqb_refl. apply orb_true_r. }
  rewrite Hs, Ht.
  split; [destruct (last_type es (r_source r))
         |destruct (last_type es (r_target r))]; reflexivity.
Qed.

Lemma standard_links es rs :
  links (standardGraphData es rs) = List.map relation_link rs.
Proof.
  unfold standardGraphData. cbn [links].
  assert (H : forall l, In l (List.map relation_link rs) ->
            map_has (endpoint_id (l_source l)) (uniqueNodesMap es rs)
            && map_has (endpoint_id (l_target l)) (uniqueNodesMap es rs) = true).
  { intros l Hl. apply in_map_iff in Hl. destruct Hl as [r [<- Hr]]. simpl.
    destruct (uniqueNodesMap_has_ends es rs r Hr) as [-> ->]. reflexivity. }
  induction (List.map relation_link rs) as [|l ls IH]; simpl; auto.
  rewrite H by now left. f_equal. apply IH. intros l' Hl'. apply H. now right.
Qed.

Lemma standard_link_ends es rs l :
  In l (links (standardGraphData es rs)) ->
  In (endpoint_id (l_source l)) (node_ids (nodes (standardGraphData es rs)))
  /\ In (endpoint_id (l_target l)) (node_ids (nodes (standardGraphData es rs))).
Proof.
  rewrite standard_links. intros Hl.
  apply in_map_iff in Hl. destruct Hl as [r [<- Hr]].
  unfold standardGraphData. cbn [nodes]. rewrite uniqueNodesMap_ids. simpl.
  destruct (uniqueNodesMap_has_ends es rs r Hr) as [Hs Ht].
  split; now apply map_has_In.
Qed.

(** X14: the manual graph has one node per id: the ids are pairwise different,
    an id that names an entity carries the type of the last entity of that
    name, and an id that only relations mention carries ["未定义"]. *)
Theorem standardGraphData_nodes es rs :
  let g := standardGraphData es rs in
  NoDup (node_ids (nodes g))
  /\ forall n, In n (nodes g) <-> standard_node es rs (id n) = Some n.
Proof.
  intros g. unfold g, standardGraphData. cbn [nodes]. split.
  - rewrite uniqueNodesMap_ids. apply uniqueNodesMap_NoDup.
  - intros n. rewrite <- uniqueNodesMap_get. split.
    + intros Hin. unfold map_values in Hin. apply in_map_iff in Hin.
      destruct Hin as [[k n'] [E Hin]]. simpl in E. subst n'.
      pose proof Hin as Hget.
      apply map_get_of_In in Hget; [|apply uniqueNodesMap_NoDup].
      pose proof Hget as Hid. rewrite uniqueNodesMap_get in Hid.
      apply standard_node_id in Hid. now rewrite Hid.
    + intros Hget. apply map_get_In in Hget.
      unfold map_values. apply in_map_iff. exists (id n, n). auto.
Qed.

(** X15: the manual graph keeps every relation as a link, in order, and each
    link joins two of its nodes: the filter on the links drops nothing. *)
Theorem standardGraphData_links es rs :
  let g := standardGraphData es rs in
  links g = List.map relation_link rs
  /\ forall l, In l (links g) ->
       In (endpoint_id (l_source l)) (node_ids (nodes g))
       /\ In (endpoint_id (l_target l)) (node_ids (nodes g)).
Proof.
  intros g. split; [apply standard_links|apply standard_link_ends].
Qed.

(** X16: indexing the manual graph: the neighbour lists hold two entries per
    relation and name only nodes of the graph. *)
Theorem standardGraphData_index es rs w :
  let g := standardGraphData es rs in
  let adj := getAdjacency (nodes g) (links g) w in
  entries adj = 2 * List.length rs
  /\ forall v l nb, neighbors adj v = Some l -> In nb l ->
       In (nb_id nb) (node_ids (nodes g)).
Proof.
  intros g adj. split.
  - unfold adj. rewrite entries_getAdjacency by apply standard_link_ends.
    unfold g. now rewrite standard_links, length_map.
  - intros v l nb Hget Hin. unfold neighbors, adj in Hget.
    destruct (getAdjacency_neighbor _ _ _ _ _ _ Hget Hin)
      as [e [He [[_ <-]|[_ <-]]]]; now apply standard_link_ends.
Qed.

(** ** The graph on screen *)

Lemma set_of_list_In xs x : In x (set_of_list xs) <-> In x xs.
Proof.
  unfold set_of_list.
  assert (H : forall s, In x (fold_left (fun s y => set_add y s) xs s)
                        <-> In x xs \/ In x s).
  { induction xs as [|y xs IH]; intros s; simpl; [tauto|].
    rewrite IH, set_add_In. intuition auto. }
  rewrite H. simpl. tauto.
Qed.

Lemma filteredNodes_In std v n :
  In n (filteredNodes std v) ->
  In n (nodes std) /\ set_has (id n) (hiddenNodeIds v) = false.
Proof.
  unfold filteredNodes.
  destruct (0 <? List.length (expandedNodeIds v)).
  - intros H. apply filter_In in H. destruct H as [H1 H2].
    apply andb_prop in H2. destruct H2 as [_ H2].
    apply negb_true_iff in H2. auto.
  - assert (H0 : forall m,
              In m (filter (fun n => negb (set_has (id n) (hiddenNodeIds v)))
                           (nodes std)) ->
              In m (nodes std) /\ set_has (id m) (hiddenNodeIds v) = false).
    { intros m H. apply filter_In in H. destruct H as [H1 H2].
      apply negb_true_iff in H2. auto. }
    destruct (negb (String.eqb (selectedType v) "all"));
      destruct (negb (String.eqb (selectedEntityId v) EmptyString));
      intros H.
    + apply filter_In in H. destruct H as [H _].
      apply filter_In in H. destruct H as [H _]. now apply H0.
    + apply filter_In in H. destruct H as [H _]. now apply H0.
    + apply filter_In in H. destruct H as [H _]. now apply H0.
    + now apply H0.
Qed.

Lemma filter_twice {A : Type} (f g : A -> bool) l :
  filter f (filter g l) = filter (fun x => g x && f x) l.
Proof.
  induction l as [|x l IH]; simpl; auto.
  destruct (g x); simpl; [destruct (f x)|]; now rewrite IH.
Qed.

(** X17: without an analysis graph to show, the graph on screen is cut from the
    manual graph: its nodes are nodes of the manual graph in their order,
    no hidden node is among them, and every link it keeps is a link of the
    manual graph between two visible nodes. *)
Theorem activeGraphData_manual std v analysis :
  let g := activeGraphData false analysis std v in
  (exists keep, nodes g = filter keep (nodes std))
  /\ (forall n, In n (nodes g) -> set_has (id n) (hiddenNodeIds v) = false)
  /\ (forall l, In l (links g) <->
        In l (links std)
        /\ In (endpoint_id (l_source l)) (node_ids (nodes g))
        /\ In (endpoint_id (l_target l)) (node_ids (nodes g))).
Proof.
  intros g. unfold g, activeGraphData. cbn [nodes links].
  split; [|split].
  - unfold filteredNodes.
    destruct (0 <? List.length (expandedNodeIds v)); [eauto|].
    destruct (negb (String.eqb (selectedType v) "all"));
      destruct (negb (String.eqb (selectedEntityId v) EmptyString)).
    + eexists. rewrite !filter_twice. reflexivity.
    + eexists. rewrite !filter_twice. reflexivity.
    + eexists. rewrite !filter_twice. reflexivity.
    + eauto.
  - intros n Hn. now apply filteredNodes_In in Hn.
  - intros l. rewrite filter_In, andb_true_iff, !set_has_In, !set_of_list_In.
    unfold node_ids. tauto.
Qed.

(** ** Community detector *)

Lemma bipartite_node_ids es frontType backType :
  node_ids (bipartite_nodes es frontType backType)
  = List.map e_name (bipartite_entities es frontType backType).
Proof. unfold node_ids, bipartite_nodes. now rewrite map_map. Qed.

Lemma community_node_ids es rs frontType backType shuffled :
  node_ids (nodes (calculateBipartiteCommunity es rs frontType backType shuffled))
  = List.map e_name (bipartite_entities es frontType backType).
Proof.
  unfold calculateBipartiteCommunity. cbn [nodes]. unfold node_ids.
  rewrite map_map. rewrite <- bipartite_node_ids. unfold node_ids.
  apply map_ext. intros n. unfold set_community. now destruct (metrics n).
Qed.

(** X18: the detector returns a well-formed graph: its nodes are the entities
    of the front type followed by those of the back type, each in its
    group, and every link joins two different ids that both name nodes;
    there is no self-loop and no link to an id outside the graph. *)
Theorem community_graph_shape es rs frontType backType shuffled :
  let g := calculateBipartiteCommunity es rs frontType backType shuffled in
  node_ids (nodes g)
  = List.map e_name (filter (fun e => String.eqb (e_type e) frontType) es)
    ++ List.map e_name (filter (fun e => String.eqb (e_type e) backType) es)
  /\ (forall n, In n (nodes g) -> group n = frontType \/ group n = backType)
  /\ (forall l, In l (links g) ->
        In (endpoint_id (l_source l)) (node_ids (nodes g))
        /\ In (endpoint_id (l_target l)) (node_ids (nodes g))
        /\ endpoint_id (l_source l) <> endpoint_id (l_target l)).
Proof.
  intros g. split; [|split].
  - unfold g. rewrite community_node_ids. unfold bipartite_entities.
    now rewrite map_app.
  - intros n Hn. unfold g, calculateBipartiteCommunity in Hn. cbn [nodes] in Hn.
    apply in_map_iff in Hn. destruct Hn as [n0 [<- Hn0]].
    assert (Hg : group n0 = frontType \/ group n0 = backType).
    { unfold bipartite_nodes in Hn0. apply in_map_iff in Hn0.
      destruct Hn0 as [e [<- He]]. simpl.
      unfold bipartite_entities in He. apply in_app_or in He.
      destruct He as [He|He]; apply filter_In in He; destruct He as [_ He];
        apply String.eqb_eq in He; auto. }
    unfold set_community. now destruct (metrics n0).
  - intros l Hl. unfold g. rewrite community_node_ids.
    unfold g, calculateBipartiteCommunity in Hl. cbn [links] in Hl.
    unfold bipartite_links in Hl. apply in_map_iff in Hl.
    destruct Hl as [r [<- Hr]]. simpl.
    unfold validLinks in Hr. apply filter_In in Hr. destruct Hr as [_ Hr].
    apply andb_prop in Hr. destruct Hr as [Hr Hne].
    apply andb_prop in Hr. destruct Hr as [Hs Ht].
    apply set_has_In in Hs. apply (proj1 (set_of_list_In _ _)) in Hs.
    apply set_has_In in Ht. apply (proj1 (set_of_list_In _ _)) in Ht.
    apply negb_true_iff in Hne. apply String.eqb_neq in Hne.
    split; [exact Hs|split; [exact Ht|exact Hne]].
Qed.

Lemma unique_nats_spec xs :
  NoDup (unique_nats xs) /\ forall x, In x (unique_nats xs) -> In x xs.
Proof.
  unfold unique_nats.
  assert (G : forall acc,
            NoDup acc ->
            NoDup (fold_left (fun s y => if existsb (Nat.eqb y) s then s
                                         else s ++ [y]) xs acc)
            /\ forall x, In x (fold_left (fun s y => if existsb (Nat.eqb y) s
                                                     then s else s ++ [y])
                                         xs acc) ->
                         In x acc \/ In x xs).
  { induction xs as [|y xs IH]; intros acc Hnd; simpl; [auto|].
    destruct (existsb (Nat.eqb y) acc) eqn:E.
    - destruct (IH acc Hnd) as [H1 H2]. split; auto.
      intros x Hx. destruct (H2 x Hx); auto.
    - assert (Hnd' : NoDup (acc ++ [y])).
      { apply NoDup_app; auto.
        - repeat constructor. intros [].
        - intros x Hx [<-|[]].
          assert (existsb (Nat.eqb y) acc = true).
          { apply existsb_exists. exists y. split; auto. apply Nat.eqb_refl. }
          congruence. }
      destruct (IH _ Hnd') as [H1 H2]. split; auto.
      intros x Hx. destruct (H2 x Hx) as [H|H]; auto.
      apply in_app_or in H. destruct H as [H|[<-|[]]]; auto. }
  destruct (G [] (NoDup_nil _)) as [H1 H2]. split; auto.
  intros x Hx. destruct (H2 x Hx) as [[]|H]; auto.
Qed.

Lemma index_of_lt l xs i : index_of l xs = Some i -> i < List.length xs.
Proof.
  intros H. apply index_of_nth in H. apply nth_error_Some. congruence.
Qed.

Lemma index_of_NoDup xs : NoDup xs ->
  forall i, i < List.length xs -> index_of (nth i xs 0) xs = Some i.
Proof.
  induction 1 as [|x xs Hx Hnd IH]; intros i Hi; simpl in *; [lia|].
  destruct i as [|i].
  - now rewrite Nat.eqb_refl.
  - destruct (Nat.eqb_spec x (nth i xs 0)) as [E|_].
    + exfalso. apply Hx. rewrite E. apply nth_In. lia.
    + rewrite IH by lia. reflexivity.
Qed.

Lemma object_values_from {V : Type} (m : jsmap V) x :
  In x (object_values m) -> exists k, In (k, x) m.
Proof.
  unfold object_values. intros H. apply in_app_or in H. destruct H as [H|H].
  - apply in_map_iff in H. destruct H as [[n y] [E H]]. simpl in E. subst y.
    apply js_sort_In in H. unfold index_entries in H.
    apply in_flat_map in H. destruct H as [[k y] [Hin H]]. simpl in H.
    destruct (array_index k); [|destruct H].
    destruct H as [H|[]]. inversion H. subst. eauto.
  - apply in_map_iff in H. destruct H as [[k y] [E H]]. simpl in E. subst y.
    apply filter_In in H. destruct H as [H _]. eauto.
Qed.

Section Labels.

Variable es : list RawEntity.
Variable rs : list RawRelation.
Variables frontType backType : string.

Let ns := bipartite_nodes es frontType backType.
Let adj := getAdjacency ns (bipartite_links es rs frontType backType) false.

(** Labels stay on node ids, one per id. *)
Let labels_ok (labels : jsmap nat) : Prop :=
  NoDup (map_keys labels)
  /\ forall v, In v (map_keys labels) -> In v (node_ids ns).

Lemma visit_ok st n : labels_ok (fst st) -> labels_ok (fst (visit adj st n)).
Proof.
  destruct st as [labels change]. simpl. intros [Hnd Hk].
  destruct (visit adj (labels, change) n) as [labels' change'] eqn:E.
  destruct (visit_adopts _ _ _ _ _ _ _ _ _ E)
    as [->|[l [nb [b [Hl [_ [_ ->]]]]]]].
  - split; auto.
  - simpl. split; [now apply map_set_keys_NoDup|].
    intros v Hv. apply map_keys_set_In in Hv. destruct Hv as [->|Hv]; auto.
    apply (proj1 (getAdjacency_keys
                    ns (bipartite_links es rs frontType backType) false (id n))).
    apply map_has_In. unfold map_has, ns. now rewrite Hl.
Qed.

Lemma pass_ok order : forall st,
  labels_ok (fst st) -> labels_ok (fst (fold_left (visit adj) order st)).
Proof.
  induction order as [|n order IH]; intros st H; simpl; auto.
  apply IH, visit_ok, H.
Qed.

Lemma propagate_ok shuffled passes : forall i labels,
  labels_ok labels -> labels_ok (propagate passes i shuffled adj labels).
Proof.
  induction passes as [|passes IH]; intros i labels H; simpl; auto.
  pose proof (pass_ok (shuffled i) (labels, false) H) as H'.
  destruct (fold_left (visit adj) (shuffled i) (labels, false)) as [l' c].
  simpl in H'. destruct c; auto.
Qed.

Lemma initial_labels_ok : labels_ok (initial_labels ns).
Proof.
  unfold initial_labels. split.
  - generalize (combine (seq 0 (List.length ns)) ns).
    assert (G : forall (pairs : list (nat * GraphNode)) (m : jsmap nat),
              NoDup (map_keys m) ->
              NoDup (map_keys (fold_left (fun labels ni =>
                                 map_set (id (snd ni)) (fst ni) labels) pairs m))).
    { induction pairs as [|p pairs IH]; intros m H; simpl; auto.
      apply IH. now apply map_set_keys_NoDup. }
    intros pairs. apply G. constructor.
  - intros v Hv. apply map_has_In in Hv. unfold map_has in Hv.
    destruct (map_get v _) as [l|] eqn:E; [|discriminate].
    apply initial_labels_spec in E. destruct E as [Hl <-].
    unfold node_ids. apply in_map, nth_In, Hl.
Qed.

(** The final labels: one per node id, each held under a node id. *)
Lemma final_labels_ok shuffled :
  let labels := final_labels es rs frontType backType shuffled in
  NoDup (map_keys labels)
  /\ (forall v, In v (map_keys labels) -> In v (node_ids ns))
  /\ (forall v, In v (node_ids ns) -> map_has v labels = true).
Proof.
  intros labels. unfold labels, final_labels. fold ns. fold adj.
  destruct (propagate_ok shuffled 20 0 (initial_labels ns) initial_labels_ok)
    as [H1 H2].
  split; [exact H1|]. split; [exact H2|].
  intros v Hv. apply propagate_keys. now apply initial_labels_keys.
Qed.

End Labels.

(** X19: the communities are numbered without gaps: with [m] the number of
    distinct final labels, every node carries a number below [m] and every
    number below [m] is carried by some node. *)
Theorem community_numbers_dense es rs frontType backType shuffled :
  let g := calculateBipartiteCommunity es rs frontType backType shuffled in
  exists m,
    m <= List.length (nodes g)
    /\ (forall n, In n (nodes g) ->
          exists c, community n = Some (of_nat c) /\ c < m)
    /\ (forall c, c < m ->
          exists n, In n (nodes g) /\ community n = Some (of_nat c)).
Proof.
  intros g. unfold g, calculateBipartiteCommunity.
  set (ns := bipartite_nodes es frontType backType).
  set (labels := final_labels es rs frontType backType shuffled).
  set (uniq := unique_nats (object_values labels)).
  destruct (final_labels_ok es rs frontType backType shuffled)
    as [Hnd [Hsub Hsup]]. fold labels ns in Hnd, Hsub, Hsup.
  destruct (unique_nats_spec (object_values labels)) as [Hund Hufrom].
  fold uniq in Hund, Hufrom.
  cbn [nodes].
  assert (Hmet : forall n, In n ns -> metrics n = Some zero_metrics).
  { intros n Hn. unfold ns, bipartite_nodes in Hn. apply in_map_iff in Hn.
    destruct Hn as [e [<- _]]. reflexivity. }
  assert (Hcomm : forall n, In n ns ->
            community (set_community (community_of labels uniq (id n)) n)
            = Some (of_nat (community_of labels uniq (id n)))).
  { intros n Hn. unfold set_community, community. rewrite (Hmet n Hn).
    reflexivity. }
  exists (List.length uniq). split; [|split].
  - rewrite length_map.
    (* distinct labels are held under distinct node ids *)
    assert (Hinj : incl uniq (List.map snd labels)).
    { intros l Hl. apply Hufrom, object_values_from in Hl.
      destruct Hl as [k Hk]. apply in_map_iff. exists (k, l). auto. }
    apply NoDup_incl_length in Hinj; auto.
    rewrite length_map in Hinj.
    assert (Hk : List.length labels <= List.length ns).
    { rewrite <- (length_map fst labels).
      rewrite <- (length_map id ns).
      apply NoDup_incl_length; auto. }
    lia.
  - intros n Hn. apply in_map_iff in Hn. destruct Hn as [n0 [<- Hn0]].
    exists (community_of labels uniq (id n0)). split; [now apply Hcomm|].
    unfold community_of.
    assert (Hin : In (id n0) (node_ids ns)) by (unfold node_ids; now apply in_map).
    apply Hsup in Hin. unfold map_has in Hin.
    destruct (map_get (id n0) labels) as [l|] eqn:El; [|discriminate].
    assert (Hl : In l uniq).
    { apply unique_nats_In. eapply object_values_In. eapply map_get_In; eauto. }
    destruct (index_of_In l uniq Hl) as [i Hi]. rewrite Hi.
    eapply index_of_lt; eauto.
  - intros c Hc.
    assert (Hl : In (nth c uniq 0) uniq) by now apply nth_In.
    apply Hufrom, object_values_from in Hl. destruct Hl as [k Hk].
    assert (Hkin : In k (node_ids ns)).
    { apply Hsub. unfold map_keys. apply in_map_iff. exists (k, nth c uniq 0).
      auto. }
    unfold node_ids in Hkin. apply in_map_iff in Hkin.
    destruct Hkin as [n0 [Eid Hn0]].
    exists (set_community (community_of labels uniq (id n0)) n0). split.
    + apply in_map_iff. exists n0. auto.
    + rewrite Hcomm by assumption. f_equal. f_equal.
      unfold community_of. rewrite Eid.
      rewrite (map_get_of_In labels k (nth c uniq 0) Hnd Hk).
      now rewrite index_of_NoDup.
Qed.

(** ** Hierarchical clusterer *)

Lemma agglomerate_more vectors distanceType method extra fuel : forall cs,
  merge_step vectors distanceType method
             (agglomerate vectors distanceType method fuel cs) = None ->
  agglomerate vectors distanceType method (fuel + extra) cs
  = agglomerate vectors distanceType method fuel cs.
Proof.
  induction fuel as [|fuel IH]; intros cs H; simpl in *.
  - destruct extra; simpl; auto. now rewrite H.
  - destruct (merge_step vectors distanceType method cs); auto.
Qed.

(** X20: the merging loop ends, whatever the weights are: after one turn per
    node no merge is left to make, and more turns change nothing. *)
Theorem hierarchical_loop_ends ns ls distanceType method extra :
  let vectors := node_vectors ns (getAdjacency ns ls true) in
  let cs := initial_clusters ns vectors in
  merge_step vectors distanceType method
             (agglomerate vectors distanceType method (List.length cs) cs)
  = None
  /\ agglomerate vectors distanceType method (List.length cs + extra) cs
     = agglomerate vectors distanceType method (List.length cs) cs.
Proof.
  intros vectors cs.
  assert (H : merge_step vectors distanceType method
                (agglomerate vectors distanceType method (List.length cs) cs)
              = None) by (apply agglomerate_done; lia).
  split; auto. now apply agglomerate_more.
Qed.

Lemma fnn_max_list xs : xs <> [] -> Forall fnn xs -> fnn (max_list xs).
Proof.
  destruct xs as [|x xs]; [congruence|]. intros _ H.
  inversion H as [|? ? [q [-> Hq]] Hxs]. subst.
  unfold max_list. simpl.
  assert (G : forall ys a, fnn a -> Forall fnn ys -> fnn (fold_left max ys a)).
  { induction ys as [|y ys IH]; intros a Ha Hy; simpl; auto.
    inversion Hy. subst. apply IH; auto. now apply fnn_max. }
  apply G; auto. exists q. auto.
Qed.

Lemma fnn_add_fold xs : forall a,
  fnn a -> Forall fnn xs -> fnn (fold_left add xs a).
Proof.
  induction xs as [|x xs IH]; intros a Ha Hx; simpl; auto.
  inversion Hx. subst. apply IH; auto. now apply fnn_add.
Qed.

Lemma fnn_div_of_nat a n : fnn a -> 0 < n -> fnn (div a (of_nat n)).
Proof.
  intros [q [-> Hq]] Hn. unfold div, of_nat. rewrite Qeqb_of_nat_pos by lia.
  eexists. split; [reflexivity|].
  apply Qle_shift_div_l.
  - unfold Qlt, inject_Z. simpl. lia.
  - now rewrite Qmult_0_l.
Qed.

Section MergeDistances.

Variable ns : list GraphNode.
Variable ls : list GraphLink.
Variable distanceType : DistanceType.
Variable method : ClusterMethod.

Let adj := getAdjacency ns ls true.
Let vectors := node_vectors ns adj.
Let ids := node_ids ns.

Hypothesis Hfin : Forall finite_weight ls.
Hypothesis Hids : method = centroid -> Forall (fun x => x <> ""%string) ids.

Lemma getClusterDist_fnn c1 c2 :
  good_cluster ids method c1 -> good_cluster ids method c2 ->
  fnn (getClusterDist vectors distanceType method c1 c2).
Proof.
  intros G1 G2. unfold getClusterDist.
  assert (Hp : pairwise_dists vectors distanceType c1 c2 <> []
               /\ Forall fnn (pairwise_dists vectors distanceType c1 c2)).
  { destruct G1 as [N1 [M1 _]], G2 as [N2 [M2 _]]. unfold pairwise_dists. split.
    - destruct (members c1) as [|a m1]; [congruence|].
      destruct (members c2) as [|b m2]; [congruence|]. simpl. discriminate.
    - apply Forall_forall. intros x Hx. apply in_flat_map in Hx.
      destruct Hx as [a [Ha Hx]]. apply in_map_iff in Hx.
      destruct Hx as [b [<- Hb]].
      rewrite Forall_forall in M1, M2.
      destruct (vector_of_node ns ls Hfin a (M1 a Ha)) as [La Fa].
      destruct (vector_of_node ns ls Hfin b (M2 b Hb)) as [Lb Fb].
      apply calculateDistance_fnn; auto.
      unfold vectors, adj. now rewrite La, Lb. }
  destruct Hp as [Hne Hf].
  destruct method eqn:Em.
  - now apply fnn_max_list.
  - apply fnn_div_of_nat.
    + apply fnn_add_fold; auto. apply fnn_zero.
    + destruct (pairwise_dists _ _ c1 c2); [congruence|simpl; lia].
  - destruct G1 as [_ [_ V1]], G2 as [_ [_ V2]].
    destruct (V1 eq_refl) as [L1 F1]. destruct (V2 eq_refl) as [L2 F2].
    apply calculateDistance_fnn; auto. congruence.
Qed.

Lemma closest_fold_dist (d : nat * nat -> number) pairs : forall st,
  (forall ij, snd st = Some ij -> fst st = d ij) ->
  forall ij,
    snd (fold_left (fun st ij => if ltb (d ij) (fst st) then (d ij, Some ij)
                                 else st) pairs st) = Some ij ->
    fst (fold_left (fun st ij => if ltb (d ij) (fst st) then (d ij, Some ij)
                                 else st) pairs st) = d ij.
Proof.
  induction pairs as [|p pairs IH]; intros st H ij; simpl; [apply H|].
  apply IH. destruct (ltb (d p) (fst st)); auto.
  simpl. intros ij' E. now inversion E.
Qed.

(** Every merge recorded so far has a good distance. *)
Let dist_inv (cs : list cluster) : Prop :=
  Forall (fun c => Forall good_distance (merge_distances (tree c))) cs.

Lemma merge_step_dist cs cs' :
  Forall (good_cluster ids method) cs -> dist_inv cs ->
  merge_step vectors distanceType method cs = Some cs' -> dist_inv cs'.
Proof.
  intros Hgood Hd. unfold merge_step.
  destruct (1 <? List.length cs); [|discriminate].
  destruct (closest_pair vectors distanceType method cs) as [minD [[i j]|]] eqn:E;
    [|discriminate].
  intros H. inversion H. subst cs'. clear H.
  set (d := fun ij : nat * nat =>
              getClusterDist vectors distanceType method
                             (nth (fst ij) cs empty_cluster)
                             (nth (snd ij) cs empty_cluster)).
  assert (E' : fold_left (fun st ij => if ltb (d ij) (fst st)
                                       then (d ij, Some ij) else st)
                         (index_pairs (List.length cs)) (PosInf, None)
               = (minD, Some (i, j))) by exact E.
  assert (Hij : In (i, j) (index_pairs (List.length cs))).
  { apply (closest_fold_In d _ (PosInf, None) (i, j) eq_refl).
    now rewrite E'. }
  assert (Hm : minD = d (i, j)).
  { pose proof (closest_fold_dist d (index_pairs (List.length cs))
                  (PosInf, None)) as G.
    rewrite E' in G. simpl in G. apply G; auto. discriminate. }
  apply index_pairs_In in Hij. destruct Hij as [Hi Hj].
  pose proof (remove_two_perm cs i j empty_cluster Hi Hj) as P.
  set (c1 := nth i cs empty_cluster) in *.
  set (c2 := nth j cs empty_cluster) in *.
  assert (Hall : Forall (good_cluster ids method) (c1 :: c2 :: remove_two i j cs))
    by (eapply Permutation_Forall; eauto).
  assert (Hdall : dist_inv (c1 :: c2 :: remove_two i j cs))
    by (eapply Permutation_Forall; eauto).
  apply Forall_cons_iff in Hall. destruct Hall as [G1 Hall].
  apply Forall_cons_iff in Hall. destruct Hall as [G2 _].
  apply Forall_cons_iff in Hdall. destruct Hdall as [D1 Hdall].
  apply Forall_cons_iff in Hdall. destruct Hdall as [D2 Dkeep].
  apply Forall_app. split; auto. constructor; [|constructor].
  unfold merge_clusters. cbn [tree merge_distances flagged_leaf flat_map].
  rewrite app_nil_r. constructor.
  - destruct (getClusterDist_fnn c1 c2 G1 G2) as [q [Eq Hq]].
    exists q. split; auto. rewrite Hm. unfold d. simpl. fold c1 c2.
    now rewrite Eq.
  - apply Forall_app. auto.
Qed.

Lemma agglomerate_dist fuel : forall cs,
  tree_inv ids method cs -> dist_inv cs ->
  dist_inv (agglomerate vectors distanceType method fuel cs).
Proof.
  induction fuel as [|fuel IH]; intros cs Hinv Hd; simpl; auto.
  destruct (merge_step vectors distanceType method cs) as [cs'|] eqn:E; auto.
  apply IH.
  - destruct (Nat.le_gt_cases 2 (List.length cs)) as [Hlen|Hlen].
    + destruct (merge_step_inv ns ls distanceType method Hfin Hids cs Hinv Hlen)
        as [cs2 [E2 Hinv2]].
      unfold vectors, adj in E. rewrite E2 in E. inversion E. subst cs2.
      exact Hinv2.
    + unfold merge_step in E.
      destruct (Nat.ltb_spec 1 (List.length cs)); [lia|discriminate].
  - exact (merge_step_dist cs cs' (proj1 Hinv) Hd E).
Qed.

Lemma initial_dist : dist_inv (initial_clusters ns vectors).
Proof.
  unfold dist_inv, initial_clusters. apply Forall_forall. intros c Hc.
  apply in_map_iff in Hc. destruct Hc as [n [<- _]]. simpl. constructor.
Qed.

Lemma tree_distances :
  ns <> [] ->
  Forall good_distance
         (merge_distances (calculateHierarchicalTree ns ls distanceType method)).
Proof.
  intros Hne. unfold calculateHierarchicalTree. fold adj. fold vectors.
  pose proof (initial_inv ns ls method Hfin) as Hinit.
  fold adj in Hinit. fold vectors in Hinit.
  pose proof (agglomerate_dist (List.length (initial_clusters ns vectors))
                _ Hinit initial_dist) as Hd.
  destruct (agglomerate_inv ns ls distanceType method Hfin Hids
              (List.length (initial_clusters ns vectors))
              (initial_clusters ns vectors) Hinit) as [_ Hone].
  { rewrite initial_length. destruct ns; [congruence|simpl; lia]. }
  fold adj in Hone. fold vectors in Hone.
  destruct (agglomerate vectors distanceType method _ _) as [|c [|c' cs]];
    try discriminate.
  now inversion Hd.
Qed.

Lemma dendrogram_shape :
  ns <> [] ->
  let t := calculateHierarchicalTree ns ls distanceType method in
  Permutation (leaf_names t) ids
  /\ internal_count t = List.length ns - 1
  /\ binary t = true.
Proof.
  intros Hne t. unfold t, calculateHierarchicalTree. fold adj. fold vectors.
  pose proof (initial_inv ns ls method Hfin) as Hinit.
  fold adj in Hinit. fold vectors in Hinit.
  destruct (agglomerate_inv ns ls distanceType method Hfin Hids
              (List.length (initial_clusters ns vectors))
              (initial_clusters ns vectors) Hinit) as [Hinv Hone].
  { rewrite initial_length. destruct ns; [congruence|simpl; lia]. }
  fold adj in Hinv, Hone. fold vectors in Hinv, Hone.
  destruct (agglomerate vectors distanceType method _ _) as [|c [|c' cs]];
    try discriminate.
  destruct Hinv as [_ [Hleaves [Hint Hbin]]].
  unfold all_leaves in Hleaves. simpl in Hleaves. rewrite app_nil_r in Hleaves.
  unfold all_internal in Hint. simpl in Hint.
  unfold ids, node_ids in Hint. rewrite length_map in Hint.
  inversion Hbin. subst. repeat split; auto. lia.
Qed.

End MergeDistances.

(** X21: for a non-empty node set with finite link weights, every merge in the
    dendrogram records a distance that is a finite number and not
    negative, and there is one recorded distance per internal node. *)
Theorem merge_distances_good ns ls distanceType method :
  ns <> [] ->
  Forall finite_weight ls ->
  (method = centroid -> Forall (fun x => x <> ""%string) (node_ids ns)) ->
  let t := calculateHierarchicalTree ns ls distanceType method in
  Forall good_distance (merge_distances t)
  /\ List.length (merge_distances t) = internal_count t.
Proof.
  intros Hne Hfin Hids t. split.
  - now apply tree_distances.
  - clear. generalize t. clear t.
    fix IH 1. intros [name children d isLeaf]. simpl.
    destruct (flagged_leaf isLeaf); [reflexivity|]. simpl. f_equal.
    destruct children as [cs|]; [|reflexivity].
    induction cs as [|c cs IHcs]; simpl; [reflexivity|].
    rewrite length_app, IHcs, (IH c). reflexivity.
Qed.

Lemma merge_distances_good_witness :
  let t := calculateHierarchicalTree
             [mkNode "a" "g" None None; mkNode "b" "g" None None]
             [mkLink (EId "a") (EId "b") "co-occur" (Some (Fin 1)) None]
             manhattan average in
  Forall good_distance (merge_distances t)
  /\ List.length (merge_distances t) = internal_count t.
Proof.
  apply merge_distances_good.
  - discriminate.
  - repeat constructor; simpl; discriminate.
  - discriminate.
Defined.

(** ** Co-occurrence graph and dispatcher *)

Lemma cooc_nodes es rs containerType itemType :
  node_ids (nodes (generateCooccurrenceGraph es rs containerType itemType))
  = snd (containerToItems es rs containerType itemType).
Proof.
  unfold generateCooccurrenceGraph.
  destruct (containerToItems es rs containerType itemType) as [c2i all].
  cbn [nodes snd]. unfold node_ids. rewrite map_map. simpl. apply map_id.
Qed.

Lemma cooc_links es rs containerType itemType :
  links (generateCooccurrenceGraph es rs containerType itemType)
  = List.map cooc_link
             (edgesMap (fst (containerToItems es rs containerType itemType))).
Proof.
  unfold generateCooccurrenceGraph.
  destruct (containerToItems es rs containerType itemType) as [c2i all].
  reflexivity.
Qed.

Lemma edgesMap_pos (c2i : jsmap jsset) :
  Forall (fun kw => 1 <= snd kw) (edgesMap c2i).
Proof. rewrite edgesMap_fold. apply bump_fold_pos. constructor. Qed.

Lemma cooc_link_weight kw :
  l_weight (cooc_link kw) = Some (of_nat (snd kw))
  /\ l_type (cooc_link kw) = "co-occur"%string.
Proof. unfold cooc_link. destruct (key_parts (fst kw)). now split. Qed.

(** X22: whatever the entities and relations are, the co-occurrence graph has
    pairwise different node ids, all in the item group, and every link is
    a ["co-occur"] link whose weight is a whole number of at least 1. *)
Theorem cooccurrence_graph_shape es rs containerType itemType :
  let g := generateCooccurrenceGraph es rs containerType itemType in
  NoDup (node_ids (nodes g))
  /\ (forall n, In n (nodes g) -> group n = itemType)
  /\ (forall l, In l (links g) ->
        l_type l = "co-occur"%string
        /\ exists w, 1 <= w /\ l_weight l = Some (of_nat w)).
Proof.
  intros g. split; [|split].
  - unfold g. rewrite cooc_nodes.
    apply (containerToItems_spec es containerType itemType rs).
  - intros n Hn. unfold g, generateCooccurrenceGraph in Hn.
    destruct (containerToItems es rs containerType itemType) as [c2i all].
    cbn [nodes] in Hn. apply in_map_iff in Hn. destruct Hn as [i [<- _]].
    reflexivity.
  - intros l Hl. unfold g in Hl. rewrite cooc_links in Hl.
    apply in_map_iff in Hl. destruct Hl as [kw [<- Hkw]].
    destruct (cooc_link_weight kw) as [Hw Ht]. split; auto.
    exists (snd kw). split; auto.
    pose proof (edgesMap_pos
                  (fst (containerToItems es rs containerType itemType))) as Hp.
    rewrite Forall_forall in Hp. now apply Hp.
Qed.

Lemma cooc_links_finite es rs containerType itemType :
  Forall finite_weight
         (links (generateCooccurrenceGraph es rs containerType itemType)).
Proof.
  rewrite cooc_links. apply Forall_forall. intros l Hl.
  apply in_map_iff in Hl. destruct Hl as [kw [<- _]].
  destruct (cooc_link_weight kw) as [Hw _].
  unfold finite_weight. rewrite Hw. split; discriminate.
Qed.

(** X23: the hierarchical run of the application: the co-occurrence graph goes
    through the dispatcher into the clusterer.  When some container holds
    an item, the dendrogram has exactly the held items as leaves, once
    each, is binary, has one internal node less than leaves, and records
    a finite non-negative distance at every merge. *)
Theorem hierarchical_of_cooccurrence es rs containerType itemType params
    rawData shuffled :
  let g := generateCooccurrenceGraph es rs containerType itemType in
  nodes g <> [] ->
  (p_method params = centroid ->
   forall e, In e es -> e_name e <> EmptyString) ->
  exists t,
    runAlgorithm "HIERARCHICAL" g params rawData shuffled = Some (TreeResult t)
    /\ NoDup (leaf_names t)
    /\ (forall i, In i (leaf_names t)
                  <-> exists c, holds es rs containerType itemType c i = true)
    /\ binary t = true
    /\ S (internal_count t) = List.length (leaf_names t)
    /\ Forall good_distance (merge_distances t).
Proof.
  intros g Hne Hnames.
  pose proof (containerToItems_spec es containerType itemType rs)
    as [_ [_ [_ [Hnd Hitems]]]].
  rewrite <- cooc_nodes in Hnd, Hitems. fold g in Hnd, Hitems.
  assert (Hfin : Forall finite_weight (links g)) by apply cooc_links_finite.
  assert (Hids : p_method params = centroid ->
                 Forall (fun x => x <> EmptyString) (node_ids (nodes g))).
  { intros Hm. apply Forall_forall. intros i Hi.
    apply Hitems in Hi. destruct Hi as [c Hc].
    apply holds_typed in Hc. destruct Hc as [_ Hc].
    apply has_entity_In in Hc. destruct Hc as [e [He [<- _]]].
    now apply Hnames. }
  destruct (dendrogram_shape (nodes g) (links g) (p_distanceType params)
              (p_method params) Hfin Hids Hne) as [Hperm [Hint Hbin]].
  pose proof (tree_distances (nodes g) (links g) (p_distanceType params)
                (p_method params) Hfin Hids Hne) as Hdist.
  eexists. split; [reflexivity|].
  split; [|split; [|split; [|split]]]; auto.
  - eapply Permutation_NoDup; [symmetry; exact Hperm|exact Hnd].
  - intros i. rewrite <- Hitems. split; apply Permutation_in; auto.
    now symmetry.
  - rewrite Hint. rewrite (Permutation_length Hperm).
    unfold node_ids. rewrite length_map.
    destruct (nodes g); [congruence|simpl; lia].
Qed.

Lemma hierarchical_of_cooccurrence_witness :
  exists t,
    runAlgorithm "HIERARCHICAL"
      (generateCooccurrenceGraph example_entities example_relations
                                 "container" "item")
      (mkParams euclidean complete EmptyString 0 EmptyString EmptyString
                (Fin 0) (Fin 0)) None
      (fun _ => [])
    = Some (TreeResult t)
    /\ NoDup (leaf_names t)
    /\ (forall i, In i (leaf_names t)
                  <-> exists c, holds example_entities example_relations
                                      "container" "item" c i = true)
    /\ binary t = true
    /\ S (internal_count t) = List.length (leaf_names t)
    /\ Forall good_distance (merge_distances t).
Proof.
  apply (hierarchical_of_cooccurrence example_entities example_relations
           "container" "item").
  - vm_compute. discriminate.
  - simpl. discriminate.
Defined.

(** X24: without raw data the dispatcher runs only the two algorithms that work
    on the graph: every other request, the three that need raw data
    included, returns the empty object, and nothing throws. *)
Theorem runAlgorithm_without_rawData type data params shuffled :
  (runAlgorithm type data params None shuffled = Some EmptyResult
   <-> type <> "HIERARCHICAL"%string /\ type <> "CENTRALITY"%string)
  /\ runAlgorithm type data params None shuffled <> None.
Proof.
  unfold runAlgorithm.
  destruct (String.eqb_spec type "HIERARCHICAL") as [->|Hh].
  - split; [|discriminate]. split; [discriminate|]. intros [H _]. congruence.
  - destruct (String.eqb type "KMEANS"), (String.eqb type "COMMUNITY"),
      (String.eqb type "ASSOCIATION");
      (destruct (String.eqb_spec type "CENTRALITY") as [->|Hc];
       [split; [|discriminate]; split; [discriminate|];
        intros [_ H]; congruence
       |split; [|discriminate]; split; auto]).
Qed.

(** ** Vector k-means *)

Lemma feature_step_pair es targetType st r :
  feature_step es targetType st r
  = (set_add (snd (feature_pair es targetType r)) (fst st),
     register (fst (feature_pair es targetType r))
              (snd (feature_pair es targetType r)) (snd st)).
Proof.
  unfold feature_step, feature_pair.
  now destruct (has_type es (r_source r) targetType).
Qed.

(** What the feature pass has collected after the relations [l]. *)
Lemma features_fold es targetType l :
  let st := fold_left (feature_step es targetType) l ([], []) in
  NoDup (fst st)
  /\ (forall f, In f (fst st)
                <-> exists r, In r l /\ snd (feature_pair es targetType r) = f)
  /\ (forall n f, set_has f (items_of (snd st) n)
                  = existsb (fun r =>
                               String.eqb (fst (feature_pair es targetType r)) n
                               && String.eqb (snd (feature_pair es targetType r)) f)
                            l).
Proof.
  induction l as [|r l IH] using rev_ind.
  - simpl. split; [constructor|]. split.
    + intros f. split; [intros []|intros [r [[] _]]].
    + reflexivity.
  - rewrite fold_left_app. cbn [fold_left].
    destruct IH as [Hnd [Hin Hconn]].
    set (st := fold_left (feature_step es targetType) l ([], [])) in *.
    rewrite feature_step_pair. cbn [fst snd]. split; [|split].
    + now apply set_add_NoDup.
    + intros f. rewrite set_add_In, Hin. split.
      * intros [->|[r' [Hr' E]]].
        -- exists r. split; auto. apply in_or_app. right. now left.
        -- exists r'. split; auto. apply in_or_app. now left.
      * intros [r' [Hr' E]]. apply in_app_or in Hr'.
        destruct Hr' as [Hr'|[<-|[]]]; eauto.
    + intros n f. rewrite items_of_register, existsb_app. simpl.
      rewrite orb_false_r, <- Hconn.
      destruct (String.eqb_spec (fst (feature_pair es targetType r)) n)
        as [E|Hne]; simpl.
      * rewrite set_has_add, E.
        rewrite (String.eqb_sym f). apply orb_comm.
      * now rewrite orb_false_r.
Qed.

Lemma sort_strings_perm xs : Permutation (sort_strings xs) xs.
Proof. apply js_sort_perm. Qed.

Lemma sort_strings_ascending xs :
  NoDup xs -> Sorted (fun a b => str_ltb a b = true) (sort_strings xs).
Proof.
  intros Hnd.
  assert (Hs : Sorted (fun a b => str_ltb b a = false) (sort_strings xs)).
  { unfold sort_strings.
    apply (js_sort_Sorted (fun x y => str_ltb y x) (fun _ => True)).
    - intros x y _ _ H. exact H.
    - intros x y _ _ H. now apply str_ltb_asym.
    - apply Forall_forall. auto. }
  assert (Hnd' : NoDup (sort_strings xs)).
  { eapply Permutation_NoDup; [symmetry; apply sort_strings_perm|exact Hnd]. }
  induction Hs as [|a l Hs IH Hd]; constructor.
  - apply IH. now inversion Hnd'.
  - destruct Hd as [|b l Hab]; constructor.
    apply str_ltb_total; auto.
    intros E. subst b. inversion Hnd' as [|? ? Hn _]. apply Hn. now left.
Qed.

(** X25: the feature list is the set of features of the relevant relations in
    ascending order, and the vector of a target entity has a 1 exactly at
    the features some relevant relation gives it, and 0 elsewhere. *)
Theorem kmeans_vectors_spec es rs targetType :
  let featureList := sort_strings (fst (kmeans_features es rs targetType)) in
  Sorted (fun a b => str_ltb a b = true) featureList
  /\ (forall f, In f featureList
                <-> exists r, In r (relevantRelations es rs targetType)
                              /\ snd (feature_pair es targetType r) = f)
  /\ kmeans_vectors es rs targetType
     = List.map (fun e =>
                   List.map (fun f => if related es rs targetType (e_name e) f
                                      then Fin 1 else Fin 0)
                            featureList)
                (targetNodes es targetType).
Proof.
  intros featureList. unfold featureList, kmeans_vectors, kmeans_features.
  destruct (features_fold es targetType (relevantRelations es rs targetType))
    as [Hnd [Hin Hconn]].
  destruct (fold_left (feature_step es targetType)
                      (relevantRelations es rs targetType) ([], []))
    as [contextFeatures nodeConnections].
  cbn [fst snd] in *. split; [|split].
  - now apply sort_strings_ascending.
  - intros f. rewrite <- Hin. split; apply Permutation_in;
      [|symmetry]; apply sort_strings_perm.
  - apply map_ext. intros e. unfold vectorize. apply map_ext. intros f.
    unfold related. rewrite <- Hconn. reflexivity.
Qed.

Lemma features_nonempty es targetType l :
  l <> [] -> fst (fold_left (feature_step es targetType) l ([], [])) <> [].
Proof.
  intros Hne Hnil. destruct l as [|r l]; [congruence|].
  destruct (features_fold es targetType (r :: l)) as [_ [Hin _]].
  rewrite Hnil in Hin.
  apply (proj2 (Hin (snd (feature_pair es targetType r)))).
  exists r. split; auto. now left.
Qed.

Lemma empty_vectors_iter (vs : list (list number)) cs asg :
  Forall (fun v => v = []) vs ->
  kmeans_iter 0 0 vs (cs, asg) = Some ([], assign cs vs).
Proof.
  intros H. unfold kmeans_iter, update_centroids. cbn [fst repeat].
  assert (G : forall l (a : list nat),
            Forall (fun v : list number => v = []) l ->
            accumulate l a ([], []) = Some ([], [])).
  { induction l as [|v l IH]; intros a Hl; [reflexivity|].
    inversion Hl; subst. destruct a as [|c a]; [reflexivity|].
    simpl. now apply IH. }
  now rewrite G.
Qed.

Lemma empty_vectors_loop (vs : list (list number)) iters : forall asg,
  Forall (fun v => v = []) vs ->
  exists asg',
    kmeans_loop iters 0 0 vs ([], asg) = Some ([], asg')
    /\ (Forall (fun a => a = 0) asg -> Forall (fun a => a = 0) asg')
    /\ (List.length asg = List.length vs -> List.length asg' = List.length vs).
Proof.
  induction iters as [|iters IH]; intros asg H; simpl.
  - eauto.
  - rewrite empty_vectors_iter by assumption.
    destruct (IH (assign [] vs) H) as [asg' [E [Hz Hl]]].
    exists asg'. split; auto. split.
    + intros _. apply Hz. unfold assign. apply Forall_forall.
      intros a Ha. apply in_map_iff in Ha. destruct Ha as [v [<- _]].
      apply nearest_nil.
    + intros _. apply Hl. unfold assign. apply length_map.
Qed.

(** X26: the edge cases of the k-means run.  Without an entity of the target
    type the result is empty for every [k].  With [k = 0] and at least one
    target entity, the update step throws as soon as some relation touches
    a target entity; when none does, every target entity gets index 0. *)
Theorem kmeans_edge_cases es rs targetType :
  (targetNodes es targetType = [] ->
   forall k, calculateVectorKMeans es rs targetType k = Some (mkKMeans [] []))
  /\ (targetNodes es targetType <> [] ->
      relevantRelations es rs targetType <> [] ->
      calculateVectorKMeans es rs targetType 0 = None)
  /\ (targetNodes es targetType <> [] ->
      relevantRelations es rs targetType = [] ->
      exists res,
        calculateVectorKMeans es rs targetType 0 = Some res
        /\ forall e, In e (targetNodes es targetType) ->
             map_get (e_name e) (km_result res) = Some 0).
Proof.
  split; [|split].
  - intros E k. unfold calculateVectorKMeans. now rewrite E.
  - intros Htn Hrel. unfold calculateVectorKMeans.
    destruct (targetNodes es targetType) as [|e0 tn] eqn:Etn; [congruence|].
    destruct (kmeans_vectors_bits es rs targetType) as [Hbits Hlen].
    set (dim := List.length (sort_strings (fst (kmeans_features es rs targetType))))
      in *.
    assert (Hdim : 0 < dim).
    { unfold dim, sort_strings. rewrite js_sort_length.
      pose proof (features_nonempty es targetType _ Hrel) as Hf.
      unfold kmeans_features.
      destruct (fst (fold_left _ _ _)); [congruence|simpl; lia]. }
    rewrite Etn in Hlen.
    destruct (kmeans_vectors es rs targetType) as [|v0 vs]; [discriminate|].
    inversion Hbits as [|? ? [Hv0 _] _]. subst.
    destruct v0 as [|x v0]; [simpl in Hv0; lia|].
    reflexivity.
  - intros Htn Hrel. unfold calculateVectorKMeans.
    destruct (targetNodes es targetType) as [|e0 tn] eqn:Etn; [congruence|].
    assert (Hf : kmeans_features es rs targetType = ([], []))
      by (unfold kmeans_features; now rewrite Hrel).
    assert (Hv : Forall (fun v : list number => v = [])
                        (kmeans_vectors es rs targetType)).
    { unfold kmeans_vectors. rewrite Hf. apply Forall_forall.
      intros v Hv. apply in_map_iff in Hv. destruct Hv as [e [<- _]].
      reflexivity. }
    destruct (kmeans_vectors_bits es rs targetType) as [_ Hlen].
    rewrite Etn in Hlen.
    rewrite Hf. cbn [fst]. change (sort_strings []) with (@nil string).
    cbn [List.length].
    set (vs := kmeans_vectors es rs targetType) in *.
    assert (Hc : initial_centroids 0 vs = []).
    { unfold initial_centroids.
      destruct (Nat.ltb_spec (List.length vs) 0); [lia|reflexivity]. }
    rewrite Hc.
    destruct (empty_vectors_loop vs 10 (repeat 0 (List.length vs)) Hv)
      as [asg' [E [Hz Hl]]].
    rewrite E. eexists. split; [reflexivity|]. cbn [km_result].
    intros e He.
    assert (Hzero : Forall (fun a => a = 0) asg').
    { apply Hz. apply Forall_forall. intros a Ha. now apply repeat_spec in Ha. }
    assert (Hlen' : List.length asg' = List.length (e0 :: tn)).
    { rewrite Hl by apply repeat_length. exact Hlen. }
    destruct (result_get (combine (e0 :: tn) asg') (e_name e)) as [c [Ec Hc']].
    { destruct (in_combine_fst (e0 :: tn) asg' e (eq_sym Hlen') He) as [a Ha].
      apply in_map_iff. exists (e, a). auto. }
    rewrite Ec. f_equal.
    apply in_map_iff in Hc'. destruct Hc' as [[e' a] [<- Hin]].
    apply in_combine_r in Hin. rewrite Forall_forall in Hzero.
    now apply Hzero.
Qed.

Lemma kmeans_edge_cases_witness :
  calculateVectorKMeans [mkEntity "herb" "a"] [] "symptom" 3
  = Some (mkKMeans [] [])
  /\ calculateVectorKMeans [mkEntity "symptom" "s"; mkEntity "herb" "a"]
                           [mkRelation "s" "uses" "a"] "symptom" 0
     = None
  /\ exists res,
       calculateVectorKMeans [mkEntity "symptom" "s"] [] "symptom" 0 = Some res
       /\ forall e, In e (targetNodes [mkEntity "symptom" "s"] "symptom") ->
            map_get (e_name e) (km_result res) = Some 0.
Proof.
  split; [|split].
  - apply (proj1 (kmeans_edge_cases [mkEntity "herb" "a"] [] "symptom")).
    reflexivity.
  - apply (proj1 (proj2 (kmeans_edge_cases
                           [mkEntity "symptom" "s"; mkEntity "herb" "a"]
                           [mkRelation "s" "uses" "a"] "symptom")));
      vm_compute; discriminate.
  - apply (proj2 (proj2 (kmeans_edge_cases [mkEntity "symptom" "s"] []
                                           "symptom"))).
    + vm_compute. discriminate.
    + reflexivity.
Defined.

(** ** Association rule miner *)

(** X27: the rule graph mirrors the rules: one ["assoc"] link per rule, in the
    order of the rules, and one node per item that occurs in a rule, with
    pairwise different ids; every link joins two of the nodes. *)
Theorem association_graph_shape es rs frontType backType minSupport
    minConfidence :
  let res := calculateAssociationRules es rs frontType backType
                                       minSupport minConfidence in
  assoc_links res = List.map rule_link (rules res)
  /\ NoDup (node_ids (assoc_nodes res))
  /\ (forall x, In x (node_ids (assoc_nodes res))
                <-> exists r, In r (rules res) /\ (source r = x \/ target r = x))
  /\ (forall l, In l (assoc_links res) ->
        In (endpoint_id (l_source l)) (node_ids (assoc_nodes res))
        /\ In (endpoint_id (l_target l)) (node_ids (assoc_nodes res))).
Proof.
  intros res.
  assert (H : assoc_links res = List.map rule_link (rules res)
              /\ NoDup (node_ids (assoc_nodes res))
              /\ (forall x, In x (node_ids (assoc_nodes res))
                    <-> exists r, In r (rules res)
                                  /\ (source r = x \/ target r = x))).
  { unfold res, calculateAssociationRules.
    destruct (List.length (transactions es rs frontType backType) =? 0).
    { simpl. split; [reflexivity|]. split; [constructor|].
      intros x. split; [intros []|intros [r [[] _]]]. }
    destruct (count_all es frontType backType _) as [itemCounts pairCounts].
    cbn [rules assoc_nodes assoc_links].
    set (found := unsorted_rules itemCounts pairCounts _ minSupport minConfidence).
    split; [reflexivity|].
    assert (Eids : node_ids
                     (List.map (fun x => mkNode x (group_or_unknown es x)
                                                (Some zero_metrics) None)
                               (set_of_list
                                  (flat_map (fun r => [source r; target r]) found)))
                   = set_of_list (flat_map (fun r => [source r; target r]) found)).
    { unfold node_ids. rewrite map_map. simpl. apply map_id. }
    rewrite Eids. split; [apply set_of_list_NoDup|].
    intros x. rewrite set_of_list_In, in_flat_map. split.
    - intros [r [Hr Hx]]. exists r. split; [now apply js_sort_In|].
      simpl in Hx. destruct Hx as [Hx|[Hx|[]]]; auto.
    - intros [r [Hr Hx]]. exists r. split; [now apply js_sort_In in Hr|].
      simpl. destruct Hx; auto. }
  destruct H as [Hl [Hnd Hids]]. split; [exact Hl|]. split; [exact Hnd|].
  split; [exact Hids|].
  intros l Hin. rewrite Hl in Hin. apply in_map_iff in Hin.
  destruct Hin as [r [<- Hr]]. simpl. split; apply Hids; exists r; auto.
Qed.

(** X28: every rule counts at least one joint occurrence, its support is a
    positive finite number, and its confidence and lift are positive (or
    [+Infinity], never NaN, zero or negative). *)
Theorem association_rules_positive es rs frontType backType minSupport
    minConfidence r :
  In r (rules (calculateAssociationRules es rs frontType backType
                                         minSupport minConfidence)) ->
  1 <= cooccur r
  /\ (exists q, support r = Fin q /\ (0 < q)%Q)
  /\ pos_num (confidence r)
  /\ pos_num (lift r).
Proof.
  unfold calculateAssociationRules.
  destruct (List.length (transactions es rs frontType backType)) as [|t] eqn:Et;
    simpl Nat.eqb; cbv iota; [intros []|].
  pose proof (count_all_pairs_pos es frontType backType
                (transactions es rs frontType backType)) as Hpairs.
  destruct (count_all es frontType backType _) as [itemCounts pairCounts].
  cbn [rules snd] in *. intros Hr. apply js_sort_In in Hr.
  unfold unsorted_rules in Hr. apply in_flat_map in Hr.
  destruct Hr as [kc [Hkc Hr]].
  destruct (rule_of itemCounts (S t) minSupport minConfidence kc) as [r'|] eqn:E;
    simpl in Hr; [|destruct Hr].
  destruct Hr as [->|[]].
  rewrite Forall_forall in Hpairs. pose proof (Hpairs kc Hkc) as Hpos.
  pose proof (rule_lift_pos _ _ _ _ _ _ Hpos E) as Hlift.
  apply rule_of_spec in E. destruct E as [_ [_ [Hco [Hs [Hcf _]]]]].
  assert (Hsup : exists q, support r = Fin q /\ (0 < q)%Q).
  { rewrite Hs. destruct (of_nat_div_nonneg (cooccur r) t) as [q [-> [_ Hq]]].
    exists q. split; auto. apply Hq. lia. }
  split; [lia|]. split; [exact Hsup|]. split; [|exact Hlift].
  rewrite Hcf. unfold item_support.
  destruct Hsup as [q [-> Hq]].
  destruct (of_nat_div_nonneg
              (match map_get (source r) itemCounts with
               | Some n => n | None => 0 end) t) as [s [-> [Hs0 _]]].
  apply div_pos; auto. right. exists q. auto.
Qed.

Lemma association_rules_positive_witness :
  let r := nth 0 (rules (calculateAssociationRules
                           [mkEntity "symptom" "a"; mkEntity "herb" "b"]
                           [mkRelation "a" "treated by" "b"]
                           "symptom" "herb" (Fin 0) (Fin 0)))
               (mkRule EmptyString EmptyString NaN NaN NaN 0) in
  1 <= cooccur r
  /\ (exists q, support r = Fin q /\ (0 < q)%Q)
  /\ pos_num (confidence r)
  /\ pos_num (lift r).
Proof.
  apply (association_rules_positive
           [mkEntity "symptom" "a"; mkEntity "herb" "b"]
           [mkRelation "a" "treated by" "b"]
           "symptom" "herb" (Fin 0) (Fin 0)).
  vm_compute. left. reflexivity.
Defined.

Lemma transactions_Forall (P : jsset -> Prop) es rs frontType backType :
  (forall r, has_type es (r_source r) frontType = true ->
             has_type es (r_target r) backType = true ->
             P (set_of_list [r_source r; r_target r])) ->
  (forall fronts backs,
     fronts <> [] -> backs <> [] ->
     Forall (fun i => has_type es i frontType = true) fronts ->
     Forall (fun i => has_type es i backType = true) backs ->
     P (set_of_list (fronts ++ backs))) ->
  Forall (fun kv => P (snd kv)) (transactions es rs frontType backType).
Proof.
  intros Hdirect Hconn.
  unfold transactions, connector_transactions, direct_transactions.
  set (Q := fun kv : string * jsset => P (snd kv)).
  assert (G1 : forall (l : list (nat * RawRelation)) (tr : jsmap jsset),
             Forall Q tr ->
             Forall Q
               (fold_left
                  (fun tr ir =>
                     let r := snd ir in
                     if has_type es (r_source r) frontType
                        && has_type es (r_target r) backType
                     then map_set (direct_key (fst ir))
                                  (set_of_list [r_source r; r_target r]) tr
                     else tr) l tr)).
  { induction l as [|ir l IH]; intros tr H; simpl; auto.
    apply IH. cbv zeta.
    destruct (has_type es (r_source (snd ir)) frontType) eqn:E1; auto.
    destruct (has_type es (r_target (snd ir)) backType) eqn:E2; auto.
    simpl. apply map_set_Forall; auto. intros k'. unfold Q. simpl.
    now apply Hdirect. }
  assert (G2 : forall (cm : jsmap jsset) (tr : jsmap jsset),
             Forall Q tr ->
             Forall Q
               (fold_left
                  (fun tr ci =>
                     let fronts := filter (fun i => has_type es i frontType) (snd ci) in
                     let backs := filter (fun i => has_type es i backType) (snd ci) in
                     match fronts, backs with
                     | _ :: _, _ :: _ =>
                         map_set (fst ci) (set_of_list (fronts ++ backs)) tr
                     | _, _ => tr
                     end) cm tr)).
  { induction cm as [|ci cm IH]; intros tr H; simpl; auto.
    apply IH. cbv zeta.
    match goal with
    | |- context [match ?x with [] => _ | _ :: _ => _ end] =>
        remember x as fronts eqn:Ef
    end.
    destruct fronts as [|f fs]; [exact H|].
    match goal with
    | |- context [match ?x with [] => _ | _ :: _ => _ end] =>
        remember x as backs eqn:Eb
    end.
    destruct backs as [|b bs]; [exact H|].
    apply map_set_Forall; auto. intros k'. unfold Q. simpl snd.
    apply (Hconn (f :: fs) (b :: bs)); try discriminate.
    - rewrite Ef. apply Forall_forall. intros i Hi.
      apply filter_In in Hi. tauto.
    - rewrite Eb. apply Forall_forall. intros i Hi.
      apply filter_In in Hi. tauto. }
  apply G2, G1. constructor.
Qed.

(** X29: every transaction of the miner is a set without repeats that holds
    items of the front and back type only, at least one of each. *)
Theorem transactions_well_formed es rs frontType backType :
  Forall (fun kv =>
            NoDup (snd kv)
            /\ (forall i, In i (snd kv) ->
                  has_type es i frontType = true
                  \/ has_type es i backType = true)
            /\ (exists f, In f (snd kv) /\ has_type es f frontType = true)
            /\ (exists b, In b (snd kv) /\ has_type es b backType = true))
         (transactions es rs frontType backType).
Proof.
  apply (transactions_Forall
           (fun s => NoDup s
                     /\ (forall i, In i s -> has_type es i frontType = true
                                             \/ has_type es i backType = true)
                     /\ (exists f, In f s /\ has_type es f frontType = true)
                     /\ (exists b, In b s /\ has_type es b backType = true))).
  - intros r Hs Ht. split; [apply set_of_list_NoDup|]. split; [|split].
    + intros i Hi. apply (proj1 (set_of_list_In _ _)) in Hi.
      destruct Hi as [<-|[<-|[]]]; auto.
    + exists (r_source r). split; auto. apply (proj2 (set_of_list_In _ _)). now left.
    + exists (r_target r). split; auto. apply (proj2 (set_of_list_In _ _)). right. now left.
  - intros fronts backs Hf Hb Hfs Hbs.
    rewrite Forall_forall in Hfs, Hbs.
    split; [apply set_of_list_NoDup|]. split; [|split].
    + intros i Hi. apply (proj1 (set_of_list_In _ _)) in Hi.
      apply in_app_or in Hi.
      destruct Hi; auto.
    + destruct fronts as [|f fs]; [congruence|]. exists f. split.
      * apply (proj2 (set_of_list_In _ _)). now left.
      * apply Hfs. now left.
    + destruct backs as [|b bs]; [congruence|]. exists b. split.
      * apply (proj2 (set_of_list_In _ _)), in_or_app. right. now left.
      * apply Hbs. now left.
Qed.
